(** * XULIEZHEN sprite-sheet animator: frame addressing, edit overlays,
      compositing, chroma key, playback and GIF assembly.

    Shallow embedding of
      - types.ts                          (SpriteConfig, ImageDimensions, ...)
      - components/SplitFrameEditor.tsx   (grid addressing, nudges)
      - components/FrameEditorModal.tsx   (the same operations on a whole config)
      - components/PreviewPlayer.tsx      (valid frames, playback clock, draw)
      - utils/gifBuilder.ts               (applyChromaKey, generateGif)
      - services/geminiService.ts         (retryOperation)
      - App.tsx                           (deleteGroup, generateGifAsset)

    Numbers.  The integer-valued JavaScript numbers of the program (rows, cols,
    frame indices, pixel offsets, image sizes, colour channels) are [Z].  The
    cell size [dimensions.width / config.cols] is a rational [Q] (the program
    divides by [cols], [rows] and [fps] without a check; every statement
    below about those quotients assumes them positive), and [Math.floor] is
    [Qfloor].  The frame interval [1000 / config.fps] and the tick count
    [time / frameInterval] of the playback clock are rounded to doubles.

    Canvas.  What the 2D context does to a pixel is fixed where the HTML
    standard fixes it, and left to the platform ([Canvas2D]) where browsers
    differ: blending, anti-aliasing of edges and resampling. *)

From Stdlib Require Import ZArith QArith Qround Lia List Bool Ascii String Sorted.
From Stdlib Require Import Qabs Qminmax Qpower Lqa.
From stdpp Require Import base gmap list strings.

Local Open Scope Z_scope.

(** ** types.ts *)

Inductive Direction := Row | Column.

Record Offset := mkOffset { x : Z; y : Z }.

Record ImageDimensions := mkDims { width : Z; height : Z }.

Record SpriteConfig := mkConfig {
  rows : Z;
  cols : Z;
  totalFrames : Z;
  fps : Z;
  scale : Z;
  autoTransparent : bool;
  direction : Direction;
  frameOffsets : gmap Z Offset;   (* Record<number, { x, y }> *)
  excludedFrames : list Z         (* number[] *)
}.

(** [{ ...config, frameOffsets: newOffsets }] *)
Definition withFrameOffsets (config : SpriteConfig) (newOffsets : gmap Z Offset)
  : SpriteConfig :=
  mkConfig (rows config) (cols config) (totalFrames config) (fps config)
           (scale config) (autoTransparent config) (direction config)
           newOffsets (excludedFrames config).

(** App.tsx, [INITIAL_CONFIG]. *)
Definition INITIAL_CONFIG : SpriteConfig :=
  mkConfig 4 4 16 12 1 true Row ∅ [].

(** ** JavaScript arithmetic used by the program *)

(** [a % b] on integers: the remainder takes the sign of the dividend. *)
Definition jsRem (a b : Z) : Z := Z.rem a b.

(** [Math.floor(a / b)]: the real quotient, then its floor. *)
Definition jsFloorDiv (a b : Z) : Z := Qfloor (inject_Z a / inject_Z b).

(** [xs.includes(v)] on an array of numbers. *)
Definition includes (xs : list Z) (v : Z) : bool := existsb (Z.eqb v) xs.

(** [Math.ceil(Math.sqrt(n))] for an integer [n]: the least integer whose
    square reaches [n]. *)
Definition jsCeilSqrt (n : Z) : Z := Z.sqrt_up n.

(** [Math.ceil(a / b)] *)
Definition jsCeilDiv (a b : Z) : Z := Qceiling (inject_Z a / inject_Z b).

(** [Math.round(a / b)]: halves round up. *)
Definition jsRoundDiv (a b : Z) : Z := Qfloor (inject_Z a / inject_Z b + (1 # 2)).

(** [a <= b] and [a < b] on numbers. *)
Definition Qleb (a b : Q) : bool := Qle_bool a b.
Definition Qltb (a b : Q) : bool := negb (Qle_bool b a).

(** *** Double-precision division

    A JavaScript number is an IEEE 754 double.  The integers of the program
    are exact in it; a quotient is rounded to 53 significant bits, to the
    nearest double, ties to the even one.  The rounding is written out where
    a [Math.floor] of a quotient of non-integers decides what the program
    does.  The exponent range is not modelled: values stay within the normal
    range of doubles for a frame rate up to 2^53 and times up to 2^53
    milliseconds. *)

Definition pow2 (z : Z) : Q := (2 ^ z)%Q.

(** The nearest integer, ties to even. *)
Definition roundHalfEven (v : Q) : Z :=
  let f := Qfloor v in
  let r := (v - inject_Z f)%Q in
  if Qltb r (1 # 2) then f
  else if Qltb (1 # 2) r then f + 1
  else if Z.even f then f else f + 1.

(** The exponent [e] with [2^e <= q < 2^(e+1)], for [q > 0]. *)
Definition binade (q : Q) : Z :=
  let e := Z.log2 (Qnum q) - Z.log2 (Zpos (Qden q)) in
  if Qltb q (pow2 e) then e - 1 else e.

(** The double nearest to [q]. *)
Definition roundDouble (q : Q) : Q :=
  if Qeq_bool q 0 then 0%Q
  else
    let magnitude := Qabs q in
    let shift := 52 - binade magnitude in
    let significand := roundHalfEven (magnitude * pow2 shift) in
    let rounded := (inject_Z significand / pow2 shift)%Q in
    if Qltb q 0 then (- rounded)%Q else rounded.

(** Half the distance between 1 and the next double: 2^-53. *)
Definition unitRoundoff : Q := 1 # 9007199254740992.

(** [a / b] on numbers, for [b] other than 0. *)
Definition jsDiv (a b : Q) : Q := roundDouble (a / b).

(** ** Grid addressing: the block repeated in SplitFrameEditor,
       FrameEditorModal, PreviewPlayer.animate and generateGif.  The result is
       the pair (row, col). *)

Definition indexToCell (config : SpriteConfig) (index : Z) : Z * Z :=
  match direction config with
  | Column =>
      let r := jsRem index (rows config) in
      let c := jsFloorDiv index (rows config) in
      (r, c)
  | Row =>
      let c := jsRem index (cols config) in
      let r := jsFloorDiv index (cols config) in
      (r, c)
  end.

(** [config.frameOffsets?.[index] || { x: 0, y: 0 }] *)
Definition offsetOf (config : SpriteConfig) (index : Z) : Offset :=
  match frameOffsets config !! index with
  | Some o => o
  | None => mkOffset 0 0
  end.

(** [{ ...config, excludedFrames: newExcluded }] *)
Definition withExcludedFrames (config : SpriteConfig) (newExcluded : list Z)
  : SpriteConfig :=
  mkConfig (rows config) (cols config) (totalFrames config) (fps config)
           (scale config) (autoTransparent config) (direction config)
           (frameOffsets config) newExcluded.

(** [Array.from({ length: config.totalFrames }, (_, i) => i)], the frames the
    editors list. *)
Definition allFrames (config : SpriteConfig) : list Z :=
  seqZ 0 (totalFrames config).

(** ** Per-frame offset edits *)

Module SplitFrameEditor.

(** [handleNudge]; the new map reaches the group through
    [onUpdateConfig('frameOffsets', newOffsets)], which App.tsx turns into
    [{ ...currentConfig, [key]: value }]. *)
Definition handleNudge (config : SpriteConfig) (index dx dy : Z) : SpriteConfig :=
  let currentOffset := offsetOf config index in
  let newOffsets :=
    <[index := mkOffset (x currentOffset + dx) (y currentOffset + dy)]>
      (frameOffsets config) in
  withFrameOffsets config newOffsets.

(** [handleResetOffset] *)
Definition handleResetOffset (config : SpriteConfig) (index : Z) : SpriteConfig :=
  let newOffsets := delete index (frameOffsets config) in
  withFrameOffsets config newOffsets.

(** [toggleExclusion] *)
Definition toggleExclusion (config : SpriteConfig) (index : Z) : SpriteConfig :=
  let currentExcluded := excludedFrames config in
  let newExcluded :=
    if includes currentExcluded index
    then filter (fun i => i <> index) currentExcluded
    else currentExcluded ++ [index] in
  withExcludedFrames config newExcluded.

(** Placement of the sheet inside a cell of the editor grid, in percent of
    the cell: [left: calc(-${col * 100}% + ${xOffsetPct}%)] and the same for
    [top]. *)
Definition imagePlacement (config : SpriteConfig) (dimensions : ImageDimensions)
    (index : Z) : Q * Q :=
  let frameWidth := (inject_Z (width dimensions) / inject_Z (cols config))%Q in
  let frameHeight := (inject_Z (height dimensions) / inject_Z (rows config))%Q in
  let '(row, col) := indexToCell config index in
  let offset := offsetOf config index in
  let xOffsetPct := (inject_Z (x offset) / frameWidth * 100)%Q in
  let yOffsetPct := (inject_Z (y offset) / frameHeight * 100)%Q in
  ((- (inject_Z col * 100) + xOffsetPct)%Q,
   (- (inject_Z row * 100) + yOffsetPct)%Q).

End SplitFrameEditor.

Module FrameEditorModal.

(** [updateFrameOffset] *)
Definition updateFrameOffset (config : SpriteConfig) (index dx dy : Z)
  : SpriteConfig :=
  let currentOffsets := frameOffsets config in
  let currentOffset :=
    match currentOffsets !! index with
    | Some o => o
    | None => mkOffset 0 0
    end in
  let newOffsets :=
    <[index := mkOffset (x currentOffset + dx) (y currentOffset + dy)]>
      currentOffsets in
  withFrameOffsets config newOffsets.

(** [resetFrameOffset] *)
Definition resetFrameOffset (config : SpriteConfig) (index : Z) : SpriteConfig :=
  let currentOffsets := delete index (frameOffsets config) in
  withFrameOffsets config currentOffsets.

(** [toggleFrameExclusion] *)
Definition toggleFrameExclusion (config : SpriteConfig) (index : Z)
  : SpriteConfig :=
  let currentExcluded := excludedFrames config in
  let newExcluded :=
    if includes currentExcluded index
    then filter (fun i => i <> index) currentExcluded
    else currentExcluded ++ [index] in
  withExcludedFrames config newExcluded.

(** Where the sheet's top-left corner lands relative to the frame box, in
    source pixels: [backgroundPosition] of (bgPosX, bgPosY) moved by
    [translate(offset.x px, offset.y px)]. *)
Definition sheetPosition (config : SpriteConfig) (dimensions : ImageDimensions)
    (index : Z) : Q * Q :=
  let frameWidth := (inject_Z (width dimensions) / inject_Z (cols config))%Q in
  let frameHeight := (inject_Z (height dimensions) / inject_Z (rows config))%Q in
  let '(row, col) := indexToCell config index in
  let offset := offsetOf config index in
  let bgPosX := (- (inject_Z col * frameWidth))%Q in
  let bgPosY := (- (inject_Z row * frameHeight))%Q in
  ((bgPosX + inject_Z (x offset))%Q, (bgPosY + inject_Z (y offset))%Q).

End FrameEditorModal.

(** ** Valid frames: the loop shared by PreviewPlayer.getValidFrames and
       generateGif ([framesToRender]).

    [for (let i = 0; i < config.totalFrames; i++)
       if (!config.excludedFrames.includes(i)) frames.push(i);]
    [n] counts the iterations that remain. *)

Fixpoint validFramesLoop (excluded : list Z) (n : nat) (i : Z) (frames : list Z)
  : list Z :=
  match n with
  | O => frames
  | S n' =>
      validFramesLoop excluded n' (i + 1)
        (if includes excluded i then frames else frames ++ [i])
  end.

Definition getValidFrames (config : SpriteConfig) : list Z :=
  validFramesLoop (excludedFrames config) (Z.to_nat (totalFrames config)) 0 [].

(** ** The Canvas 2D platform interface

    The program draws through the browser's [CanvasRenderingContext2D].  A
    canvas is its size and its pixels; [ImageData.data] is the flat RGBA
    array.  Only the calls the program makes are modelled, and only what
    every implementation of the HTML standard does is fixed: a drawing
    operation leaves alone the pixels that lie wholly outside what it paints
    ([drawImage] clips the source rectangle to the image, and the
    destination with it), a fill or a clear takes the pixels wholly inside
    the rectangle, and an image that is drawn unscaled and aligned with the
    pixel grid is copied pixel for pixel.  What a pixel on the edge of a
    shape receives (anti-aliasing) and what a pixel of a resampled image
    receives (image smoothing, sample positions) is the platform's choice:
    [edgePixel] and [resampled]. *)

Record Pixel := mkPixel { red : Z; green : Z; blue : Z; alpha : Z }.

Definition transparentBlack : Pixel := mkPixel 0 0 0 0.
Definition white : Pixel := mkPixel 255 255 255 255.   (* '#ffffff' *)
Definition cyan : Pixel := mkPixel 0 229 255 255.      (* "#00e5ff" *)

Record Image := mkImage {
  naturalWidth : Z;
  naturalHeight : Z;
  imagePixel : Z -> Z -> Pixel
}.

Record Canvas := mkCanvas {
  canvasWidth : Z;
  canvasHeight : Z;
  canvasPixel : Z -> Z -> Pixel
}.

(** A rectangle [(x, y, w, h)]. *)
Definition Rect : Type := Q * Q * Q * Q.

(** What is left to the platform.
    - [sourceOver p below]: source-over compositing of a drawn pixel [p] onto
      the pixel below it.
    - [edgePixel style rect px py below]: the pixel (px, py), cut by the edge
      of [rect], after the rectangle was filled with [style] ([Some]) or
      cleared ([None]).
    - [resampled smoothing clip image (sx, sy, sw, sh) (dx, dy, dw, dh)
      px py below]: the pixel (px, py) after [drawImage] with these
      arguments, [imageSmoothingEnabled = smoothing] and the clipping region
      [clip], where the image is not copied pixel for pixel. *)
Class Canvas2D := {
  sourceOver : Pixel -> Pixel -> Pixel;
  edgePixel : option Pixel -> Rect -> Z -> Z -> Pixel -> Pixel;
  resampled : bool -> option Rect -> Image -> Rect -> Rect ->
              Z -> Z -> Pixel -> Pixel
}.

(** Conversion of a number to the integer type of [canvas.width] and of the
    arguments of [getImageData]: the fraction is dropped (sizes stay far below
    the 32-bit range of that type). *)
Definition truncQ (v : Q) : Z := if Qleb 0 v then Qfloor v else Qceiling v.

(** [canvas.width = w; canvas.height = h]: a fresh transparent bitmap. *)
Definition setCanvasSize (w h : Q) : Canvas :=
  mkCanvas (truncQ w) (truncQ h) (fun _ _ => transparentBlack).

(** The two ends of the side of a rectangle that starts at [r] and is [len]
    long: a negative width or height extends to the other side of the
    corner. *)
Definition lowEnd (r len : Q) : Q := Qmin r (r + len).
Definition highEnd (r len : Q) : Q := Qmax r (r + len).

(** The pixel square [px, px+1) x [py, py+1) lies inside the rectangle. *)
Definition coveredBy (rx ry rw rh : Q) (px py : Z) : bool :=
  Qleb (lowEnd rx rw) (inject_Z px) && Qleb (inject_Z px + 1) (highEnd rx rw) &&
  Qleb (lowEnd ry rh) (inject_Z py) && Qleb (inject_Z py + 1) (highEnd ry rh).

(** The pixel square and the rectangle have no point in common (the sizes
    the program passes are not negative). *)
Definition clearOf (rx ry rw rh : Q) (px py : Z) : bool :=
  Qleb (inject_Z px + 1) (lowEnd rx rw) || Qleb (highEnd rx rw) (inject_Z px) ||
  Qleb (inject_Z py + 1) (lowEnd ry rh) || Qleb (highEnd ry rh) (inject_Z py).

(** Painting a rectangle: [paint] on the pixels inside it, the platform's
    anti-aliasing on the pixels its edge cuts, nothing elsewhere. *)
Definition paintRect `{Canvas2D} (style : option Pixel) (paint : Pixel)
    (rx ry rw rh : Q) (c : Canvas) : Canvas :=
  mkCanvas (canvasWidth c) (canvasHeight c)
    (fun px py =>
       let below := canvasPixel c px py in
       if coveredBy rx ry rw rh px py then paint
       else if clearOf rx ry rw rh px py then below
       else edgePixel style (rx, ry, rw, rh) px py below).

(** [ctx.clearRect(rx, ry, rw, rh)] *)
Definition clearRect `{Canvas2D} (rx ry rw rh : Q) (c : Canvas) : Canvas :=
  paintRect None transparentBlack rx ry rw rh c.

(** [ctx.fillStyle = style; ctx.fillRect(rx, ry, rw, rh)] for an opaque
    [style], which replaces what it covers. *)
Definition fillRect `{Canvas2D} (style : Pixel) (rx ry rw rh : Q) (c : Canvas)
  : Canvas :=
  paintRect (Some style) style rx ry rw rh c.

(** The point (u, v) lies in [0, naturalWidth) x [0, naturalHeight). *)
Definition inSource (image : Image) (u v : Q) : bool :=
  Qleb 0 u && Qltb u (inject_Z (naturalWidth image)) &&
  Qleb 0 v && Qltb v (inject_Z (naturalHeight image)).

(** The source position of the left (or top) edge of the destination
    pixel [p]: the image is drawn in its own direction, also when a width or
    height is negative. *)
Definition samplePoint (s sLen d dLen : Q) (p : Z) : Q :=
  (lowEnd s sLen + (inject_Z p - lowEnd d dLen) * (Qabs sLen / Qabs dLen))%Q.

(** The part of the source plane that a destination pixel shows,
    [u, u + du) x [v, v + dv), has no point in the image. *)
Definition offImage (image : Image) (u v du dv : Q) : bool :=
  Qleb (u + du) 0 || Qleb (inject_Z (naturalWidth image)) u ||
  Qleb (v + dv) 0 || Qleb (inject_Z (naturalHeight image)) v.

Definition isInteger (q : Q) : bool := Qeq_bool q (inject_Z (Qfloor q)).

(** Source and destination rectangle have whole-number corners and the same
    whole-number size: every destination pixel shows exactly one image
    pixel. *)
Definition pixelAligned (sx sy sw sh dx dy dw dh : Q) : bool :=
  isInteger sx && isInteger sy && isInteger sw && isInteger sh &&
  isInteger dx && isInteger dy && Qeq_bool sw dw && Qeq_bool sh dh.

(** The pixel lies wholly outside, or wholly inside, the clipping region. *)
Definition clippedAway (clip : option Rect) (px py : Z) : bool :=
  match clip with
  | Some (cx, cy, cw, ch) => clearOf cx cy cw ch px py
  | None => false
  end.

Definition insideClip (clip : option Rect) (px py : Z) : bool :=
  match clip with
  | Some (cx, cy, cw, ch) => coveredBy cx cy cw ch px py
  | None => true
  end.

(** [ctx.drawImage(image, sx, sy, sw, sh, dx, dy, dw, dh)] on a context with
    the given [imageSmoothingEnabled] and clipping region.  Nothing is drawn
    when [sw] or [sh] is 0.  A destination pixel outside the destination
    rectangle or the clipping region, or one that shows no point of the
    image, keeps what it held; in an aligned, unscaled draw a pixel inside
    them receives the one image pixel it shows; every other pixel is
    resampled by the platform. *)
Definition drawImage `{Canvas2D} (imageSmoothingEnabled : bool)
    (clip : option Rect) (image : Image)
    (sx sy sw sh dx dy dw dh : Q) (c : Canvas) : Canvas :=
  mkCanvas (canvasWidth c) (canvasHeight c)
    (fun px py =>
       let below := canvasPixel c px py in
       let u := samplePoint sx sw dx dw px in
       let v := samplePoint sy sh dy dh py in
       if Qeq_bool sw 0 || Qeq_bool sh 0 ||
          clearOf dx dy dw dh px py || clippedAway clip px py ||
          offImage image u v (Qabs sw / Qabs dw) (Qabs sh / Qabs dh)
       then below
       else if coveredBy dx dy dw dh px py && insideClip clip px py &&
               pixelAligned sx sy sw sh dx dy dw dh && inSource image u v
       then sourceOver (imagePixel image (Qfloor u) (Qfloor v)) below
       else resampled imageSmoothingEnabled clip image
                      (sx, sy, sw, sh) (dx, dy, dw, dh) px py below).

(** Reading a canvas pixel; outside the bitmap it is transparent black. *)
Definition readPixel (c : Canvas) (px py : Z) : Pixel :=
  if (0 <=? px) && (px <? canvasWidth c) && (0 <=? py) && (py <? canvasHeight c)
  then canvasPixel c px py else transparentBlack.

Definition pixelBytes (p : Pixel) : list Z := [red p; green p; blue p; alpha p].

(** [ctx.getImageData(0, 0, sw, sh).data]; an empty rectangle raises
    IndexSizeError ([None]). *)
Definition getImageData (c : Canvas) (sw sh : Z) : option (list Z) :=
  if (sw <=? 0) || (sh <=? 0) then None
  else Some (flat_map (fun k => pixelBytes (readPixel c (k mod sw) (k / sw)))
                      (seqZ 0 (sw * sh))).

(** [data[i]] *)
Definition get (data : list Z) (i : nat) : Z := default 0 (data !! i).

(** The pixel stored at positions 4k .. 4k+3 of an RGBA array. *)
Definition pixelAt (data : list Z) (k : nat) : Pixel :=
  mkPixel (get data (4 * k)) (get data (4 * k + 1))
          (get data (4 * k + 2)) (get data (4 * k + 3)).

(** [ctx.putImageData(frameData, 0, 0)] for data of width [sw], height [sh]. *)
Definition putImageData (data : list Z) (sw sh : Z) (c : Canvas) : Canvas :=
  mkCanvas (canvasWidth c) (canvasHeight c)
    (fun px py =>
       if (0 <=? px) && (px <? sw) && (0 <=? py) && (py <? sh)
       then pixelAt data (Z.to_nat (py * sw + px))
       else canvasPixel c px py).

(** ** utils/gifBuilder.ts *)

Module GifBuilder.

(** Magenta as the key color for transparency. *)
Definition KEY_COLOR_RGB : list Z := [255; 0; 255].
Definition KEY_COLOR_HEX : Z := 0xff00ff.

(** Tolerance for compression artifacts. *)
Definition tolerance : Z := 20.

(** The test of the loop body: the pixel matches the background colour or
    is already transparent. *)
Definition isBackground (rBg gBg bBg r g b a : Z) : bool :=
  ((Z.abs (r - rBg) <? tolerance) &&
   (Z.abs (g - gBg) <? tolerance) &&
   (Z.abs (b - bBg) <? tolerance)) ||
  (a <? 10).

(** [for (let i = 0; i < data.length; i += 4) { ... }], writing in place.
    [n] bounds the iterations that remain. *)
Fixpoint chromaKeyLoop (n i : nat) (rBg gBg bBg : Z) (data : list Z) : list Z :=
  match n with
  | O => data
  | S n' =>
      if (i <? length data)%nat then
        let r := get data i in
        let g := get data (i + 1) in
        let b := get data (i + 2) in
        let a := get data (i + 3) in
        let data' :=
          if isBackground rBg gBg bBg r g b a then
            <[(i + 3)%nat := 255]>
              (<[(i + 2)%nat := get KEY_COLOR_RGB 2]>
                 (<[(i + 1)%nat := get KEY_COLOR_RGB 1]>
                    (<[i := get KEY_COLOR_RGB 0]> data)))
          else data in
        chromaKeyLoop n' (i + 4) rBg gBg bBg data'
      else data
  end.

(** The body of [applyChromaKey] between [getImageData] and [putImageData]:
    the reference colour is read from the top-left pixel before the loop. *)
Definition chromaKeyData (data : list Z) : list Z :=
  let rBg := get data 0 in
  let gBg := get data 1 in
  let bBg := get data 2 in
  chromaKeyLoop (length data) 0 rBg gBg bBg data.

(** [applyChromaKey(ctx, width, height)] *)
Definition applyChromaKey (c : Canvas) (width height : Q) : option Canvas :=
  match getImageData c (truncQ width) (truncQ height) with
  | None => None
  | Some data =>
      Some (putImageData (chromaKeyData data) (truncQ width) (truncQ height) c)
  end.

(** Options handed to [new GIF(...)]. *)
Record GifOptions := mkGifOptions {
  gifWidth : Q;
  gifHeight : Q;
  transparent : option Z;
  background : Pixel
}.

(** One [gif.addFrame(ctx, { copy: true, delay })] call. *)
Record GifFrame := mkGifFrame { framePixels : Canvas; delay : Q }.

Inductive GifError :=
| WorkerFetchFailed                 (* getWorkerBlobUrl rejected *)
| ErrorMessage (message : string)   (* reject(new Error(message)) *)
| IndexSizeError.                   (* raised by getImageData *)

(** What a run leaves behind: the frames submitted to the encoder and, when
    the promise is rejected, the error.  Without an error [gif.render()] has
    been called and the promise resolves with the encoder's blob. *)
Record GifRun := mkGifRun {
  options : option GifOptions;
  submitted : list GifFrame;
  rejected : option GifError
}.

Definition frameWidthOf (config : SpriteConfig) (dimensions : ImageDimensions) : Q :=
  (inject_Z (width dimensions) / inject_Z (cols config))%Q.
Definition frameHeightOf (config : SpriteConfig) (dimensions : ImageDimensions) : Q :=
  (inject_Z (height dimensions) / inject_Z (rows config))%Q.

(** Source coordinates (inverse of visual offset). *)
Definition sourceXY (config : SpriteConfig) (dimensions : ImageDimensions)
    (index : Z) : Q * Q :=
  let frameWidth := frameWidthOf config dimensions in
  let frameHeight := frameHeightOf config dimensions in
  let '(row, col) := indexToCell config index in
  let offset := offsetOf config index in
  let sourceX := (inject_Z col * frameWidth - inject_Z (x offset))%Q in
  let sourceY := (inject_Z row * frameHeight - inject_Z (y offset))%Q in
  (sourceX, sourceY).

(** The [forEach] body up to and including [drawImage]; the context is as
    [getContext] gave it: image smoothing enabled, no clipping region. *)
Definition compositeFrame `{Canvas2D} (image : Image) (config : SpriteConfig)
    (dimensions : ImageDimensions) (canvas : Canvas) (index : Z) : Canvas :=
  let frameWidth := frameWidthOf config dimensions in
  let frameHeight := frameHeightOf config dimensions in
  let cleared := clearRect 0 0 frameWidth frameHeight canvas in
  let filled :=
    if autoTransparent config
    then fillRect white 0 0 frameWidth frameHeight cleared
    else cleared in
  let '(sourceX, sourceY) := sourceXY config dimensions index in
  drawImage true None image sourceX sourceY frameWidth frameHeight
            0 0 frameWidth frameHeight filled.

(** The whole [forEach] body before [gif.addFrame]. *)
Definition renderFrame `{Canvas2D} (image : Image) (config : SpriteConfig)
    (dimensions : ImageDimensions) (canvas : Canvas) (index : Z) : option Canvas :=
  let drawn := compositeFrame image config dimensions canvas index in
  if autoTransparent config
  then applyChromaKey drawn (frameWidthOf config dimensions)
                      (frameHeightOf config dimensions)
  else Some drawn.

(** [framesToRender.forEach(index => { ...; gif.addFrame(...) })]: the one
    canvas is reused, an exception ends the iteration. *)
Fixpoint forEachFrame `{Canvas2D} (image : Image) (config : SpriteConfig)
    (dimensions : ImageDimensions) (indices : list Z) (canvas : Canvas)
    (frames : list GifFrame) : list GifFrame * option GifError :=
  match indices with
  | [] => (frames, None)
  | index :: rest =>
      match renderFrame image config dimensions canvas index with
      | None => (frames, Some IndexSizeError)
      | Some canvas' =>
          forEachFrame image config dimensions rest canvas'
            (frames ++ [mkGifFrame canvas' (1000 / inject_Z (fps config))%Q])
      end
  end.

(** [generateGif(image, config, dimensions, onProgress)].  [workerUrl] is
    the outcome of [getWorkerBlobUrl()], [ctxAvailable] that of
    [canvas.getContext('2d')]. *)
Definition generateGif `{Canvas2D} (workerUrl : option string) (ctxAvailable : bool)
    (image : Image) (config : SpriteConfig) (dimensions : ImageDimensions)
  : GifRun :=
  match workerUrl with
  | None => mkGifRun None [] (Some WorkerFetchFailed)
  | Some _ =>
      let gif := mkGifOptions
        (inject_Z (width dimensions) / inject_Z (cols config))%Q
        (inject_Z (height dimensions) / inject_Z (rows config))%Q
        (if autoTransparent config then Some KEY_COLOR_HEX else None)
        (if autoTransparent config then white else mkPixel 0 0 0 255) in
      if negb ctxAvailable then
        mkGifRun (Some gif) [] (Some (ErrorMessage "Could not create canvas context"))
      else
        let frameWidth := frameWidthOf config dimensions in
        let frameHeight := frameHeightOf config dimensions in
        let canvas := setCanvasSize frameWidth frameHeight in
        let framesToRender := getValidFrames config in
        if (length framesToRender =? 0)%nat then
          mkGifRun (Some gif) [] (Some (ErrorMessage "No valid frames to render"))
        else
          let '(frames, err) :=
            forEachFrame image config dimensions framesToRender canvas [] in
          mkGifRun (Some gif) frames err
  end.

End GifBuilder.

(** ** components/PreviewPlayer.tsx *)

Module PreviewPlayer.

(** What one [animate(time)] tick shows. *)
Inductive Tick :=
| RenderNothing                       (* no valid frame: canvas cleared *)
| ActiveFrame (actualFrameIndex : Z)
| UndefinedFrame.                     (* validFrames[stepIndex] is undefined *)

(** [Math.floor(time / frameInterval) % validFrames.length] with
    [frameInterval = 1000 / config.fps]: both quotients are doubles, as is
    the timestamp [time]. *)
Definition stepIndex (config : SpriteConfig) (time : Q) (validFrames : list Z) : Z :=
  let frameInterval := jsDiv 1000 (inject_Z (fps config)) in
  jsRem (Qfloor (jsDiv time frameInterval)) (Z.of_nat (length validFrames)).

(** Frame selection of [animate]. *)
Definition animate (config : SpriteConfig) (time : Q) : Tick :=
  let validFrames := getValidFrames config in
  if (length validFrames =? 0)%nat then RenderNothing
  else
    let step := stepIndex config time validFrames in
    if step <? 0 then UndefinedFrame
    else match validFrames !! Z.to_nat step with
         | Some actualFrameIndex => ActiveFrame actualFrameIndex
         | None => UndefinedFrame
         end.

(** Source coordinates of the result image. *)
Definition sourceXY (config : SpriteConfig) (dimensions : ImageDimensions)
    (actualFrameIndex : Z) : Q * Q :=
  let frameWidth := (inject_Z (width dimensions) / inject_Z (cols config))%Q in
  let frameHeight := (inject_Z (height dimensions) / inject_Z (rows config))%Q in
  let '(row, col) := indexToCell config actualFrameIndex in
  let offset := offsetOf config actualFrameIndex in
  let sourceX := (inject_Z col * frameWidth - inject_Z (x offset))%Q in
  let sourceY := (inject_Z row * frameHeight - inject_Z (y offset))%Q in
  (sourceX, sourceY).

(** The comparison overlay of a tick: whether
    [showCompare && compareImg && compareImg.complete] holds, and then
    whether the original source could be decoded, with the position of the
    slider (0 to 100). *)
Inductive Comparison :=
| noComparison
| brokenComparison (sliderPos : Q)
| comparison (compareImg : Image) (sliderPos : Q).

(** Source coordinates of the original: the grid cell, without offsets. *)
Definition origSourceXY (config : SpriteConfig) (dimensions : ImageDimensions)
    (actualFrameIndex : Z) : Q * Q :=
  let frameWidth := (inject_Z (width dimensions) / inject_Z (cols config))%Q in
  let frameHeight := (inject_Z (height dimensions) / inject_Z (rows config))%Q in
  let '(row, col) := indexToCell config actualFrameIndex in
  let origSourceX := (inject_Z col * frameWidth)%Q in
  let origSourceY := (inject_Z row * frameHeight)%Q in
  (origSourceX, origSourceY).

(** The drawing of [animate] for the selected frame: resize the canvas,
    clear it, switch image smoothing off, draw the result image, and with
    the comparison on draw the divider and, clipped to its right, the
    original.  An original that is complete but could not be decoded makes
    [drawImage] raise InvalidStateError once the divider is drawn. *)
Definition draw `{Canvas2D} (image : Image) (config : SpriteConfig)
    (dimensions : ImageDimensions) (overlay : Comparison) (actualFrameIndex : Z)
  : Canvas :=
  let frameWidth := (inject_Z (width dimensions) / inject_Z (cols config))%Q in
  let frameHeight := (inject_Z (height dimensions) / inject_Z (rows config))%Q in
  let canvas := setCanvasSize frameWidth frameHeight in
  let cleared :=
    clearRect 0 0 (inject_Z (canvasWidth canvas)) (inject_Z (canvasHeight canvas))
              canvas in
  let '(sourceX, sourceY) := sourceXY config dimensions actualFrameIndex in
  let drawn :=
    drawImage false None image sourceX sourceY frameWidth frameHeight
              0 0 frameWidth frameHeight cleared in
  match overlay with
  | noComparison => drawn
  | brokenComparison sliderPos =>
      let splitX := (frameWidth * sliderPos / 100)%Q in
      fillRect cyan (splitX - 1) 0 2 frameHeight drawn
  | comparison compareImg sliderPos =>
      let splitX := (frameWidth * sliderPos / 100)%Q in
      let divided := fillRect cyan (splitX - 1) 0 2 frameHeight drawn in
      let '(origSourceX, origSourceY) :=
        origSourceXY config dimensions actualFrameIndex in
      drawImage false (Some (splitX, 0, frameWidth - splitX, frameHeight)%Q)
                compareImg origSourceX origSourceY frameWidth frameHeight
                0 0 frameWidth frameHeight divided
  end.

End PreviewPlayer.

(** ** services/geminiService.ts *)

Module GeminiService.

(** The fields of a caught error that [retryOperation] inspects. *)
Record ApiError := mkApiError {
  status : option Z;
  code : option Z;
  message : option string
}.

(** [s.includes(pattern)] on strings. *)
Definition stringIncludes (s pattern : string) : bool :=
  match String.index 0 pattern s with
  | Some _ => true
  | None => false
  end.

Definition isNumber (field : option Z) (n : Z) : bool :=
  match field with
  | Some v => v =? n
  | None => false
  end.

Definition isTransient (error : ApiError) : bool :=
  isNumber (status error) 503 ||
  isNumber (code error) 503 ||
  isNumber (status error) 500 ||
  isNumber (code error) 500 ||
  match message error with
  | Some m => negb (String.eqb m "") && stringIncludes m "overloaded"
  | None => false
  end.

(** What a call of [retryOperation] has done so far: how many times it has
    invoked the operation and which [sleep(delay)] calls it has awaited. *)
Record RetryLog := mkRetryLog { attempts : nat; sleeps : list Z }.

Definition noLog : RetryLog := mkRetryLog 0 [].

(** [retryOperation(operation, retries, delay)].  The [k]-th invocation of
    the operation settles as [operation k]: [inr] a value, [inl] a thrown
    error. *)
Fixpoint retryOperation {T : Type} (operation : nat -> ApiError + T)
    (retries : nat) (delay : Z) (log : RetryLog) {struct retries}
  : (ApiError + T) * RetryLog :=
  let called := mkRetryLog (S (attempts log)) (sleeps log) in
  match operation (attempts log) with
  | inr value => (inr value, called)
  | inl error =>
      match retries with
      | S retries' =>
          if isTransient error then
            retryOperation operation retries' (delay * 2)
              (mkRetryLog (attempts called) (sleeps called ++ [delay]))
          else (inl error, called)
      | O => (inl error, called)
      end
  end.

(** Every caller relies on the defaults [retries = 3, delay = 1000]. *)
Definition retryDefault {T : Type} (operation : nat -> ApiError + T)
  : (ApiError + T) * RetryLog :=
  retryOperation operation 3 1000 noLog.

(** One supported aspect ratio of the image service. *)
Record AspectOption := mkAspectOption { label : string; value : Q }.

Definition supported : list AspectOption :=
  [ mkAspectOption "1:1" 1;
    mkAspectOption "3:4" (75 # 100);
    mkAspectOption "4:3" (13333 # 10000);
    mkAspectOption "9:16" (5625 # 10000);
    mkAspectOption "16:9" (17778 # 10000) ].

(** The loop of [determineAspectRatio] over [supported[1..]]. *)
Fixpoint closestLoop (ratio : Q) (rest : list AspectOption)
    (closest : AspectOption) (minDiff : Q) : AspectOption :=
  match rest with
  | [] => closest
  | option :: rest' =>
      let diff := Qabs (ratio - value option) in
      if Qltb diff minDiff
      then closestLoop ratio rest' option diff
      else closestLoop ratio rest' closest minDiff
  end.

(** [determineAspectRatio(base64Image)]: [loaded] is the size of the image
    when it loads ([img.onload]) and [None] when it does not
    ([img.onerror]). *)
Definition determineAspectRatio (loaded : option (Z * Z)) : string :=
  match loaded with
  | None => "1:1"
  | Some (w, h) =>
      let ratio := (inject_Z w / inject_Z h)%Q in
      match supported with
      | [] => ""
      | first :: rest =>
          label (closestLoop ratio rest first (Qabs (ratio - value first)))
      end
  end.

(** The result of [getBase64Parts]. *)
Record Base64Parts := mkBase64Parts { mimeType : string; data : string }.

(** A character of the class [[a-zA-Z+]]. *)
Definition isSubtypeChar (c : ascii) : bool :=
  let n := nat_of_ascii c in
  ((65 <=? n) && (n <=? 90) || (97 <=? n) && (n <=? 122) || (n =? 43))%nat.

(** A line terminator, which [.] does not match.  Strings are taken over the
    code units below 256, where these are line feed and carriage return. *)
Definition isLineTerminator (c : ascii) : bool :=
  let n := nat_of_ascii c in ((n =? 10) || (n =? 13))%nat.

(** The text after [prefix] when [s] starts with it. *)
Fixpoint afterPrefix (prefix s : string) : option string :=
  match prefix, s with
  | EmptyString, _ => Some s
  | String a prefix', String b s' =>
      if Ascii.eqb a b then afterPrefix prefix' s' else None
  | String _ _, EmptyString => None
  end.

(** The longest run of characters satisfying [p] at the start of [s], and
    what follows it. *)
Fixpoint spanChars (p : ascii -> bool) (s : string) : string * string :=
  match s with
  | EmptyString => (EmptyString, EmptyString)
  | String c s' =>
      if p c
      then let '(taken, rest) := spanChars p s' in (String c taken, rest)
      else (EmptyString, s)
  end.

Fixpoint allChars (p : ascii -> bool) (s : string) : bool :=
  match s with
  | EmptyString => true
  | String c s' => p c && allChars p s'
  end.

(** [base64String.match(/^data:(image\/[a-zA-Z+]+);base64,(.+)$/)]: the
    groups 1 and 2 of the match.  The class [[a-zA-Z+]] has no [;], so
    group 1 can only end where the run of such characters ends. *)
Definition matchDataUrl (base64String : string) : option (string * string) :=
  match afterPrefix "data:image/" base64String with
  | None => None
  | Some afterImage =>
      let '(subtype, afterSubtype) := spanChars isSubtypeChar afterImage in
      if String.eqb subtype "" then None
      else
        match afterPrefix ";base64," afterSubtype with
        | None => None
        | Some payload =>
            if String.eqb payload "" then None
            else if allChars (fun c => negb (isLineTerminator c)) payload
                 then Some (("image/" ++ subtype)%string, payload)
                 else None
        end
  end.

(** [base64String.replace(/^data:image\/(png|jpeg|jpg|webp);base64,/, "")] *)
Definition stripKnownHeader (base64String : string) : string :=
  match afterPrefix "data:image/png;base64," base64String with
  | Some rest => rest
  | None =>
  match afterPrefix "data:image/jpeg;base64," base64String with
  | Some rest => rest
  | None =>
  match afterPrefix "data:image/jpg;base64," base64String with
  | Some rest => rest
  | None =>
  match afterPrefix "data:image/webp;base64," base64String with
  | Some rest => rest
  | None => base64String
  end end end end.

(** [getBase64Parts(base64String)] *)
Definition getBase64Parts (base64String : string) : Base64Parts :=
  match matchDataUrl base64String with
  | Some (group1, group2) => mkBase64Parts group1 group2
  | None => mkBase64Parts "image/png" (stripKnownHeader base64String)
  end.

End GeminiService.

(** ** App.tsx *)

Module NodeGroup.
Record t := mk {
  id : string;
  imageUrl : option string;
  originalSourceUrl : option string;
  dimensions : ImageDimensions;
  config : SpriteConfig;
  createdAt : Z
}.
End NodeGroup.

Module CanvasNodeData.
Inductive NodeType := raw | editor | preview.
Record t := mk {
  id : string;
  groupId : string;
  type : NodeType;
  title : string;
  position : Q * Q
}.
End CanvasNodeData.

Module SavedAsset.
Inductive AssetType := gif | sheet.
Record t := mk {
  id : string;
  type : AssetType;
  url : string;
  name : string;
  timestamp : Z;
  dimensions : ImageDimensions
}.
End SavedAsset.

Module App.

(** The pieces of React state that group deletion and GIF export touch. *)
Record State := mkState {
  groups : gmap string NodeGroup.t;
  selectedGroupId : option string;
  nodes : list CanvasNodeData.t;
  savedAssets : list SavedAsset.t
}.

(** [deleteGroup(groupId)] *)
Definition deleteGroup (groupId : string) (s : State) : State :=
  let newGroups := delete groupId (groups s) in
  mkState newGroups
    (if decide (selectedGroupId s = Some groupId) then None else selectedGroupId s)
    (filter (fun n => CanvasNodeData.groupId n <> groupId) (nodes s))
    (savedAssets s).

(** What the browser supplies to one export. *)
Record ExportEnv := mkExportEnv {
  decoded : option Image;       (* img.decode(): None when it rejects *)
  workerUrl : option string;    (* getWorkerBlobUrl() *)
  ctxAvailable : bool;          (* canvas.getContext('2d') *)
  objectUrl : string;           (* URL.createObjectURL(blob) *)
  uuid : string;                (* crypto.randomUUID() *)
  now : Z                       (* Date.now() *)
}.

Inductive ExportOutcome :=
| Skipped                               (* no image: plain return *)
| DecodeFailed                          (* img.decode() threw *)
| Ran (run : GifBuilder.GifRun).        (* generateGif was awaited *)

(** [`sprite-${group.id.substring(0,4)}.gif`] *)
Definition gifFileName (groupId : string) : string :=
  ("sprite-" ++ String.substring 0 4 groupId ++ ".gif")%string.

(** [generateGifAsset(group)] *)
Definition generateGifAsset `{Canvas2D} (env : ExportEnv) (group : NodeGroup.t)
    (s : State) : State * ExportOutcome :=
  match NodeGroup.imageUrl group with
  | None => (s, Skipped)
  | Some _ =>
      match decoded env with
      | None => (s, DecodeFailed)
      | Some img =>
          let run := GifBuilder.generateGif (workerUrl env) (ctxAvailable env) img
                       (NodeGroup.config group) (NodeGroup.dimensions group) in
          match GifBuilder.rejected run with
          | Some _ => (s, Ran run)
          | None =>
              let fileName := gifFileName (NodeGroup.id group) in
              let newAsset :=
                SavedAsset.mk (uuid env) SavedAsset.gif (objectUrl env) fileName
                              (now env) (NodeGroup.dimensions group) in
              (mkState (groups s) (selectedGroupId s) (nodes s)
                       (newAsset :: savedAssets s),
               Ran run)
          end
      end
  end.

(** [`grid-${selectedGroupId.substring(0,4)}.png`], the name of a sheet
    export. *)
Definition gridFileName (groupId : string) : string :=
  ("grid-" ++ String.substring 0 4 groupId ++ ".png")%string.

(** An asset record carries no group id; the file name is its only link to
    the group it was exported from. *)
Definition exportedFrom (groupId : string) (asset : SavedAsset.t) : bool :=
  String.eqb (SavedAsset.name asset) (gifFileName groupId) ||
  String.eqb (SavedAsset.name asset) (gridFileName groupId).

(** [{ ...group, config: newConfig }] *)
Definition withConfig (group : NodeGroup.t) (newConfig : SpriteConfig)
  : NodeGroup.t :=
  NodeGroup.mk (NodeGroup.id group) (NodeGroup.imageUrl group)
    (NodeGroup.originalSourceUrl group) (NodeGroup.dimensions group)
    newConfig (NodeGroup.createdAt group).

(** [{ ...s, groups: newGroups }] *)
Definition withGroups (s : State) (newGroups : gmap string NodeGroup.t) : State :=
  mkState newGroups (selectedGroupId s) (nodes s) (savedAssets s).

(** [createGroup(imageUrl, dimensions, config, originalSourceUrl)];
    [groupId] is the value of [crypto.randomUUID()] and [now] that of
    [Date.now()].  The new group is selected. *)
Definition createGroup (groupId : string) (now : Z) (imageUrl : string)
    (dimensions : ImageDimensions) (config : SpriteConfig)
    (originalSourceUrl : option string) (s : State) : State :=
  let newGroup :=
    NodeGroup.mk groupId (Some imageUrl) originalSourceUrl dimensions config now in
  mkState (<[groupId := newGroup]> (groups s)) (Some groupId) (nodes s)
          (savedAssets s).

(** [updateGroupConfig(groupId, newConfig)], where [group] is the entry
    [prev[groupId]] that its callers have checked to exist. *)
Definition updateGroupConfig (groupId : string) (group : NodeGroup.t)
    (newConfig : SpriteConfig) (s : State) : State :=
  withGroups s (<[groupId := withConfig group newConfig]> (groups s)).

(** [handleGridUpdate(groupId, newRows, newCols)] *)
Definition handleGridUpdate (groupId : string) (newRows newCols : Z) (s : State)
  : State :=
  match groups s !! groupId with
  | None => s
  | Some group =>
      let currentConfig := NodeGroup.config group in
      let newTotalFrames := newRows * newCols in
      updateGroupConfig groupId group
        (mkConfig newRows newCols newTotalFrames (fps currentConfig)
           (scale currentConfig) (autoTransparent currentConfig)
           (direction currentConfig) (frameOffsets currentConfig)
           (excludedFrames currentConfig)) s
  end.

(** What [processGifToSpriteSheet] builds from a decoded GIF: the size of the
    stitched sheet, the configuration later used for it
    ([{ ...INITIAL_CONFIG, ...gifGridConfig }]) and, frame by frame, the
    point where [drawImage] put the frame. *)
Record StitchedSheet := mkStitchedSheet {
  sheetDimensions : ImageDimensions;
  configToUse : SpriteConfig;
  placements : list (Z * Z)
}.

(** [processGifToSpriteSheet(file)] on a GIF that decodes: [reportedCount] is
    [decoder.tracks.selectedTrack?.frameCount], [frameW] x [frameH] the
    display size of the first frame and [duration] its duration in
    microseconds. *)
Definition processGifToSpriteSheet (reportedCount : option Z) (frameW frameH : Z)
    (duration : option Z) : StitchedSheet :=
  let frameCount :=
    match reportedCount with
    | Some n => if n =? 0 then 1 else n
    | None => 1
    end in
  let cols := jsCeilSqrt frameCount in
  let rows := jsCeilDiv frameCount cols in
  let fps :=
    match duration with
    | Some d => if d =? 0 then 12 else jsRoundDiv 1000000 d
    | None => 12
    end in
  let later :=
    map (fun i =>
           let col := jsRem i cols in
           let row := jsFloorDiv i cols in
           (col * frameW, row * frameH))
        (seqZ 1 (frameCount - 1)) in
  mkStitchedSheet
    (mkDims (cols * frameW) (rows * frameH))
    (mkConfig rows cols frameCount fps (scale INITIAL_CONFIG)
       (autoTransparent INITIAL_CONFIG) Row (frameOffsets INITIAL_CONFIG)
       (excludedFrames INITIAL_CONFIG))
    ((0, 0) :: later).

(** types.ts, [ProcessingState]. *)
Inductive Status := idle | analyzing | rendering | generating | completed.

Record ProcessingState := mkProcessingState {
  status : Status;
  progress : Q;
  error : option string
}.

(** A string or null is truthy when it is a non-empty string. *)
Definition truthy (o : option string) : bool :=
  match o with
  | Some str => negb (String.eqb str "")
  | None => false
  end.

(** [generateGifAsset] ended by throwing. *)
Definition threw (outcome : ExportOutcome) : bool :=
  match outcome with
  | Skipped => false
  | DecodeFailed => true
  | Ran run =>
      match GifBuilder.rejected run with
      | Some _ => true
      | None => false
      end
  end.

(** [handleExportGif(groupId?)]: the state when the handler's promise
    settles (a timer later puts a completed state back to idle). *)
Definition handleExportGif `{Canvas2D} (env : ExportEnv) (groupId : option string)
    (s : State) (processingState : ProcessingState) : State * ProcessingState :=
  let targetId := if truthy groupId then groupId else selectedGroupId s in
  match targetId with
  | None => (s, processingState)
  | Some target =>
      if negb (truthy targetId) then (s, processingState)
      else
        match groups s !! target with
        | None => (s, processingState)
        | Some group =>
            let '(s', outcome) := generateGifAsset env group s in
            if threw outcome
            then (s', mkProcessingState idle 0 (Some "Failed"))
            else (s', mkProcessingState completed 100 None)
        end
  end.

(** The loop of [handleBatchGenerateGif] over the groups still to export;
    [envOf k] is what the browser supplies to the k-th export, [done] the
    number of groups already handled.  A failed export is logged and the loop
    goes on. *)
Fixpoint batchLoop `{Canvas2D} (envOf : nat -> ExportEnv) (done : nat)
    (allGroups : list NodeGroup.t) (s : State) : State :=
  match allGroups with
  | [] => s
  | group :: rest =>
      let '(s', _) := generateGifAsset (envOf done) group s in
      batchLoop envOf (S done) rest s'
  end.

(** [handleBatchGenerateGif()], with [allGroups = Object.values(groups)]. *)
Definition handleBatchGenerateGif `{Canvas2D} (envOf : nat -> ExportEnv)
    (allGroups : list NodeGroup.t) (s : State) (processingState : ProcessingState)
  : State * ProcessingState :=
  if (length allGroups =? 0)%nat then (s, processingState)
  else (batchLoop envOf 0 allGroups s, mkProcessingState idle 0 None).

(** [sliceGridImage(base64Grid)] once the image has loaded: the loop body
    for cell [i], on the one canvas that is reused. *)
Definition sliceCell `{Canvas2D} (img : Image) (cellW cellH : Q) (canvas : Canvas)
    (i : Z) : Canvas :=
  let cols := 3 in
  let col := jsRem i cols in
  let row := jsFloorDiv i cols in
  let cleared := clearRect 0 0 cellW cellH canvas in
  drawImage true None img (inject_Z col * cellW) (inject_Z row * cellH)
            cellW cellH 0 0 cellW cellH cleared.

(** [for (let i = 0; i < 9; i++) { ...; slices.push(canvas.toDataURL()) }]
    with [n] cells still to cut; a slice is the bitmap the data URL encodes. *)
Fixpoint sliceLoop `{Canvas2D} (img : Image) (cellW cellH : Q) (n : nat) (i : Z)
    (canvas : Canvas) (slices : list Canvas) : list Canvas :=
  match n with
  | O => slices
  | S n' =>
      let drawn := sliceCell img cellW cellH canvas i in
      sliceLoop img cellW cellH n' (i + 1) drawn (slices ++ [drawn])
  end.

Definition sliceGridImage `{Canvas2D} (ctxAvailable : bool) (img : Image)
  : list Canvas :=
  let cols := 3 in
  let rows := 3 in
  let cellW := (inject_Z (naturalWidth img) / inject_Z cols)%Q in
  let cellH := (inject_Z (naturalHeight img) / inject_Z rows)%Q in
  let canvas := setCanvasSize cellW cellH in
  if negb ctxAvailable then []
  else sliceLoop img cellW cellH 9 0 canvas [].

(** A pair [(key, value)] with [key : keyof SpriteConfig]. *)
Inductive ConfigEdit :=
  | editRows (value : Z)
  | editCols (value : Z)
  | editTotalFrames (value : Z)
  | editFps (value : Z)
  | editScale (value : Z)
  | editAutoTransparent (value : bool)
  | editDirection (value : Direction)
  | editFrameOffsets (value : gmap Z Offset)
  | editExcludedFrames (value : list Z).

(** [{ ...currentConfig, [key]: value }] *)
Definition withField (currentConfig : SpriteConfig) (edit : ConfigEdit)
  : SpriteConfig :=
  let c := currentConfig in
  match edit with
  | editRows v =>
      mkConfig v (cols c) (totalFrames c) (fps c) (scale c) (autoTransparent c)
               (direction c) (frameOffsets c) (excludedFrames c)
  | editCols v =>
      mkConfig (rows c) v (totalFrames c) (fps c) (scale c) (autoTransparent c)
               (direction c) (frameOffsets c) (excludedFrames c)
  | editTotalFrames v =>
      mkConfig (rows c) (cols c) v (fps c) (scale c) (autoTransparent c)
               (direction c) (frameOffsets c) (excludedFrames c)
  | editFps v =>
      mkConfig (rows c) (cols c) (totalFrames c) v (scale c) (autoTransparent c)
               (direction c) (frameOffsets c) (excludedFrames c)
  | editScale v =>
      mkConfig (rows c) (cols c) (totalFrames c) (fps c) v (autoTransparent c)
               (direction c) (frameOffsets c) (excludedFrames c)
  | editAutoTransparent v =>
      mkConfig (rows c) (cols c) (totalFrames c) (fps c) (scale c) v
               (direction c) (frameOffsets c) (excludedFrames c)
  | editDirection v =>
      mkConfig (rows c) (cols c) (totalFrames c) (fps c) (scale c)
               (autoTransparent c) v (frameOffsets c) (excludedFrames c)
  | editFrameOffsets v =>
      mkConfig (rows c) (cols c) (totalFrames c) (fps c) (scale c)
               (autoTransparent c) (direction c) v (excludedFrames c)
  | editExcludedFrames v =>
      mkConfig (rows c) (cols c) (totalFrames c) (fps c) (scale c)
               (autoTransparent c) (direction c) (frameOffsets c) v
  end.

(** [updateConfigFromEditor(groupId, key, value)] *)
Definition updateConfigFromEditor (groupId : string) (edit : ConfigEdit)
    (s : State) : State :=
  match groups s !! groupId with
  | None => s
  | Some group =>
      let currentConfig := NodeGroup.config group in
      updateGroupConfig groupId group (withField currentConfig edit) s
  end.

(** [updateConfigFromSidebar(key, value)]; reading [.config] of a group that
    is not there raises a TypeError ([None]). *)
Definition updateConfigFromSidebar (edit : ConfigEdit) (s : State) : option State :=
  match selectedGroupId s with
  | None => Some s
  | Some selected =>
      if negb (truthy (selectedGroupId s)) then Some s
      else
        match groups s !! selected with
        | None => None
        | Some group =>
            match edit with
            | editRows value =>
                Some (handleGridUpdate selected value
                        (cols (NodeGroup.config group)) s)
            | editCols value =>
                Some (handleGridUpdate selected
                        (rows (NodeGroup.config group)) value s)
            | _ => Some (updateConfigFromEditor selected edit s)
            end
        end
  end.

(** The editor node's [onUpdateConfig={(key, val) => ...}] for the group
    [groupId] that the node shows. *)
Definition onUpdateConfig (groupId : string) (group : NodeGroup.t)
    (edit : ConfigEdit) (s : State) : State :=
  match edit with
  | editRows val => handleGridUpdate groupId val (cols (NodeGroup.config group)) s
  | editCols val => handleGridUpdate groupId (rows (NodeGroup.config group)) val s
  | _ => updateConfigFromEditor groupId edit s
  end.


End App.

(** *** App.tsx: layout of the canvas nodes *)

Module Layout.

(** A canvas node together with the [width] and [height] that
    [recalculateLayout] gives it. *)
Record Box := mkBox {
  node : CanvasNodeData.t;
  boxWidth : Q;
  boxHeight : Q
}.

(** [Object.values(currentGroups).sort((a, b) => a.createdAt - b.createdAt)]
    on the values in their enumeration order: the sort is stable, a group
    goes after every group created no later than it. *)
Fixpoint insertByCreatedAt (group : NodeGroup.t) (sorted : list NodeGroup.t)
  : list NodeGroup.t :=
  match sorted with
  | [] => [group]
  | first :: rest =>
      if NodeGroup.createdAt group <? NodeGroup.createdAt first
      then group :: first :: rest
      else first :: insertByCreatedAt group rest
  end.

Definition sortByCreatedAt (values : list NodeGroup.t) : list NodeGroup.t :=
  fold_left (fun sorted group => insertByCreatedAt group sorted) values [].

Definition GAP_X : Q := 150%Q.
Definition GAP_Y : Q := 150%Q.
Definition RAW_WIDTH : Q := 250%Q.

(** The body of the [forEach]: the three nodes of one group at height
    [currentY], and the height of their row. *)
Definition groupRow (group : NodeGroup.t) (currentY : Q) : list Box * Q :=
  let dims := NodeGroup.dimensions group in
  let config := NodeGroup.config group in
  let rawH : Q := 400%Q in
  let aspect : Q :=
    if 0 <? width dims
    then (inject_Z (width dims) / inject_Z (height dims))%Q else 1%Q in
  let gapTotal : Q := Qmax 0 (inject_Z ((cols config - 1) * 4)) in
  let totalPadding : Q := 64%Q in
  let idealWidth : Q := (inject_Z (width dims) + gapTotal + totalPadding)%Q in
  let editorWidth : Q := Qmin 1200 (Qmax 500 idealWidth) in
  let effectiveImageW : Q := (editorWidth - totalPadding)%Q in
  let editorImageH : Q := (effectiveImageW / aspect)%Q in
  let editorHeight : Q := (editorImageH + 160)%Q in
  let frameW : Q := (inject_Z (width dims) / inject_Z (cols config))%Q in
  let frameH : Q := (inject_Z (height dims) / inject_Z (rows config))%Q in
  let frameAspect : Q := if Qltb 0 frameH then (frameW / frameH)%Q else 1%Q in
  let previewW0 : Q := 320%Q in
  let previewH0 : Q := 360%Q in
  let previewH : Q :=
    if Qltb 1 frameAspect then (previewW0 / frameAspect + 120)%Q else previewH0 in
  let previewW1 : Q :=
    if Qltb 1 frameAspect then previewW0
    else ((previewH0 - 120) * frameAspect)%Q in
  let previewW : Q := Qmax 300 previewW1 in
  let rowHeight : Q := Qmax (Qmax rawH editorHeight) previewH in
  let xRaw : Q := 50%Q in
  let xEditor : Q := (xRaw + RAW_WIDTH + GAP_X)%Q in
  let xPreview : Q := (xEditor + editorWidth + GAP_X)%Q in
  ([ mkBox (CanvasNodeData.mk ("raw-" ++ NodeGroup.id group) (NodeGroup.id group)
              CanvasNodeData.raw "Raw Source" (xRaw, currentY))
           RAW_WIDTH rawH;
     mkBox (CanvasNodeData.mk ("editor-" ++ NodeGroup.id group) (NodeGroup.id group)
              CanvasNodeData.editor "Editor" (xEditor, currentY))
           editorWidth editorHeight;
     mkBox (CanvasNodeData.mk ("preview-" ++ NodeGroup.id group) (NodeGroup.id group)
              CanvasNodeData.preview "Preview" (xPreview, currentY))
           previewW previewH ],
   rowHeight).

(** [sortedGroups.forEach(group => { ...; currentY += rowHeight + GAP_Y; })] *)
Fixpoint layoutLoop (sortedGroups : list NodeGroup.t) (currentY : Q)
    (newNodes : list Box) : list Box :=
  match sortedGroups with
  | [] => newNodes
  | group :: rest =>
      let '(boxes, rowHeight) := groupRow group currentY in
      layoutLoop rest (currentY + rowHeight + GAP_Y)%Q (newNodes ++ boxes)
  end.

(** [recalculateLayout(currentGroups)], on [Object.values(currentGroups)]. *)
Definition recalculateLayout (values : list NodeGroup.t) : list Box :=
  layoutLoop (sortByCreatedAt values) 100 [].

Definition left (b : Box) : Q := fst (CanvasNodeData.position (node b)).
Definition top (b : Box) : Q := snd (CanvasNodeData.position (node b)).

End Layout.

(** ** Further vocabulary *)

(** [group'] with the grid fields (rows, cols, totalFrames) of [group] put
    back: what a grid update must leave of a group. *)
Definition withConfigGrid (group' group : NodeGroup.t) : NodeGroup.t :=
  App.withConfig group'
    (mkConfig (rows (NodeGroup.config group)) (cols (NodeGroup.config group))
       (totalFrames (NodeGroup.config group)) (fps (NodeGroup.config group'))
       (scale (NodeGroup.config group')) (autoTransparent (NodeGroup.config group'))
       (direction (NodeGroup.config group')) (frameOffsets (NodeGroup.config group'))
       (excludedFrames (NodeGroup.config group'))).

(** ** Vocabulary of the statements, scenarios and sample data *)

(** The 2x2 column-major grid of Scenario B. *)
Definition scenarioB : SpriteConfig := mkConfig 2 2 4 12 1 true Column ∅ [].

(** A platform whose drawn pixel replaces the one below it (what source-over
    does for opaque images), which leaves edge pixels as they are and
    resamples by taking the image pixel under the centre of what the
    destination pixel shows; used to evaluate the model on examples. *)
Definition opaquePlatform : Canvas2D :=
  {| sourceOver := fun s _ => s;
     edgePixel := fun _ _ _ _ below => below;
     resampled := fun _ _ image '(sx, sy, sw, sh) '(dx, dy, dw, dh) px py below =>
       let u := (samplePoint sx sw dx dw px + Qabs sw / Qabs dw / 2)%Q in
       let v := (samplePoint sy sh dy dh py + Qabs sh / Qabs dh / 2)%Q in
       if inSource image u v then imagePixel image (Qfloor u) (Qfloor v)
       else below |}.

(** Bilinear interpolation of the image at the point (u, v) of the source
    plane, between the four image pixels whose centres surround it (pixels
    beyond the edge of the image repeat the edge); channels are rounded to
    the nearest integer. *)
Definition clampTo (lo hi i : Z) : Z := Z.max lo (Z.min hi i).

Definition bilinear (image : Image) (u v : Q) : Pixel :=
  let u0 := Qfloor (u - (1 # 2)) in
  let v0 := Qfloor (v - (1 # 2)) in
  let tu := (u - (1 # 2) - inject_Z u0)%Q in
  let tv := (v - (1 # 2) - inject_Z v0)%Q in
  let pick i j :=
    imagePixel image (clampTo 0 (naturalWidth image - 1) i)
                     (clampTo 0 (naturalHeight image - 1) j) in
  let blend (channel : Pixel -> Z) : Z :=
    Qfloor ((inject_Z (channel (pick u0 v0)) * (1 - tu) +
             inject_Z (channel (pick (u0 + 1) v0)) * tu) * (1 - tv) +
            (inject_Z (channel (pick u0 (v0 + 1))) * (1 - tu) +
             inject_Z (channel (pick (u0 + 1) (v0 + 1))) * tu) * tv +
            (1 # 2)) in
  mkPixel (blend red) (blend green) (blend blue) (blend alpha).

(** A platform like the browsers the program runs in, for opaque images:
    with image smoothing on, a resampled pixel is the bilinear
    interpolation of the image at the centre of what the destination pixel
    shows; with smoothing off it is the image pixel under that centre. *)
Definition smoothingPlatform : Canvas2D :=
  {| sourceOver := fun s _ => s;
     edgePixel := fun _ _ _ _ below => below;
     resampled := fun smoothing _ image '(sx, sy, sw, sh) '(dx, dy, dw, dh)
                      px py below =>
       let u := (samplePoint sx sw dx dw px + Qabs sw / Qabs dw / 2)%Q in
       let v := (samplePoint sy sh dy dh py + Qabs sh / Qabs dh / 2)%Q in
       if smoothing then bilinear image u v
       else if inSource image u v then imagePixel image (Qfloor u) (Qfloor v)
       else below |}.

(** A 4x4 opaque white test image. *)
Definition whiteImage : Image := mkImage 4 4 (fun _ _ => white).

(** The domain of the playback clock: a frame rate of at least 1 and a
    time that is not negative, both within the integers a double holds
    exactly. *)
Definition clockDomain (config : SpriteConfig) (time : Q) : Prop :=
  1 <= fps config <= 2 ^ 53 /\ (0 <= time)%Q /\ (time <= inject_Z (2 ^ 53))%Q.

(** The number of frame intervals that have passed at [time], in exact
    arithmetic. *)
Definition exactTicks (config : SpriteConfig) (time : Q) : Q :=
  (time * inject_Z (fps config) / 1000)%Q.

(** [time] lies in the [n]-th frame interval, away from its two ends by
    the fraction 2^-51 of the time. *)
Definition insideTick (config : SpriteConfig) (time : Q) (n : Z) : Prop :=
  (inject_Z n <= exactTicks config time * (1 - (1 # 2251799813685248)))%Q /\
  (exactTicks config time * (1 + (1 # 2251799813685248)) < inject_Z n + 1)%Q.

(** Fifteen frames at 30 frames per second. *)
Definition thirtyFps : SpriteConfig := mkConfig 4 4 15 30 1 true Row ∅ [].

(** A 10x10 sheet whose pixels hold 20 times their column, and its 3x3
    grid without auto-transparency. *)
Definition rampImage : Image :=
  mkImage 10 10 (fun u _ => mkPixel (20 * u) 0 0 255).

Definition smoothConfig : SpriteConfig := mkConfig 3 3 9 12 1 false Row ∅ [].

(** Scenario C: 12 fps, four frames, frame 1 excluded. *)
Definition scenarioC : SpriteConfig := mkConfig 2 2 4 12 1 true Row ∅ [1].

(** The group of Scenario D: a 2x2 sheet whose four frames are all excluded. *)
Definition scenarioD : NodeGroup.t :=
  NodeGroup.mk "0d1e2f3a-0000-4000-8000-000000000000" (Some "data:image/png;base64,AA")
    None (mkDims 4 4) (mkConfig 2 2 4 12 1 true Row ∅ [3; 0; 2; 1]) 0.

Definition browserEnv : App.ExportEnv :=
  App.mkExportEnv (Some whiteImage) (Some "blob:worker") true "blob:gif"
    "5a6b7c8d-0000-4000-8000-000000000000" 1700000000000.

Definition emptyApp : App.State := App.mkState ∅ None [] [].

(** The sentinel pixel: the key colour at full opacity. *)
Definition keyPixel : Pixel := mkPixel 255 0 255 255.

(** The loop's test on a whole pixel [p] against the reference pixel [bg]. *)
Definition keyed (bg p : Pixel) : bool :=
  GifBuilder.isBackground (red bg) (green bg) (blue bg)
                          (red p) (green p) (blue p) (alpha p).

(** Writing the key colour over the four bytes at [4 * j]. *)
Definition writeKey (j : nat) (data : list Z) : list Z :=
  <[(4 * j + 3)%nat := 255]>
    (<[(4 * j + 2)%nat := 255]>
       (<[(4 * j + 1)%nat := 0]>
          (<[(4 * j)%nat := 255]> data))).

(** Scenario E: a 16x16 sheet of 2x2 cells, frame 0 nudged right by 5, no
    auto-transparency; the image stores its own coordinates in red / green. *)
Definition scenarioE : SpriteConfig :=
  mkConfig 2 2 4 12 1 false Row {[ 0 := mkOffset 5 0 ]} [].

Definition gradientImage : Image :=
  mkImage 16 16 (fun u v => mkPixel u v 0 255).






(** The waits of the first [j] retries: delay, 2*delay, 4*delay, ... *)
Fixpoint backoff (j : nat) (delay : Z) : list Z :=
  match j with
  | O => []
  | S j' => delay :: backoff j' (delay * 2)
  end.

(** An operation that always fails with "503 overloaded". *)
Definition alwaysOverloaded : nat -> GeminiService.ApiError + unit :=
  fun _ => inl (GeminiService.mkApiError (Some 503) None
                  (Some "The model is overloaded. Please try again later.")).

(** An operation that fails once with a client error. *)
Definition badRequest : nat -> GeminiService.ApiError + unit :=
  fun _ => inl (GeminiService.mkApiError (Some 400) None (Some "Bad request")).

(** A group with a 4x4 sheet of 2x2 frames, its three canvas nodes, and the
    application state that holds it selected. *)
Definition spriteGroup : NodeGroup.t :=
  NodeGroup.mk "9f8e7d6c-0000-4000-8000-000000000000" (Some "data:image/png;base64,AA")
    None (mkDims 4 4) (mkConfig 2 2 4 12 1 true Row ∅ []) 0.

Definition spriteNodes : list CanvasNodeData.t :=
  [ CanvasNodeData.mk "raw-9f8e7d6c-0000-4000-8000-000000000000"
      (NodeGroup.id spriteGroup) CanvasNodeData.raw "Raw Source" (50, 100)%Q;
    CanvasNodeData.mk "editor-9f8e7d6c-0000-4000-8000-000000000000"
      (NodeGroup.id spriteGroup) CanvasNodeData.editor "Editor" (450, 100)%Q;
    CanvasNodeData.mk "preview-9f8e7d6c-0000-4000-8000-000000000000"
      (NodeGroup.id spriteGroup) CanvasNodeData.preview "Preview" (1100, 100)%Q ].

Definition loadedApp : App.State :=
  App.mkState {[ NodeGroup.id spriteGroup := spriteGroup ]}
    (Some (NodeGroup.id spriteGroup)) spriteNodes [].

(** The state after exporting the group's GIF. *)
Definition exportedApp : App.State :=
  fst (@App.generateGifAsset opaquePlatform browserEnv spriteGroup loadedApp).


(** ** Vocabulary of the further properties *)

(** The background of an exported frame before the image is drawn. *)
Definition backgroundOf (config : SpriteConfig) : Pixel :=
  if autoTransparent config then white else transparentBlack.

(** A frame buffer that holds nothing but the background. *)
Definition blankFrame (config : SpriteConfig) (dimensions : ImageDimensions)
  : Canvas :=
  mkCanvas (truncQ (GifBuilder.frameWidthOf config dimensions))
           (truncQ (GifBuilder.frameHeightOf config dimensions))
           (fun _ _ => backgroundOf config).

(** The pixel of a composited frame, written without the incoming canvas:
    the frame's source window drawn on a blank frame. *)
Definition compositedPixel `{Canvas2D} (image : Image) (config : SpriteConfig)
    (dimensions : ImageDimensions) (index px py : Z) : Pixel :=
  let frameWidth := GifBuilder.frameWidthOf config dimensions in
  let frameHeight := GifBuilder.frameHeightOf config dimensions in
  canvasPixel
    (drawImage true None image
       (fst (GifBuilder.sourceXY config dimensions index))
       (snd (GifBuilder.sourceXY config dimensions index))
       frameWidth frameHeight 0 0 frameWidth frameHeight
       (blankFrame config dimensions))
    px py.

(** The unit square at (u, v) of the source plane, which an unscaled
    destination pixel shows, has no point in the image. *)
Definition showsNothing (image : Image) (u v : Q) : Prop :=
  (u + 1 <= 0)%Q \/ (inject_Z (naturalWidth image) <= u)%Q \/
  (v + 1 <= 0)%Q \/ (inject_Z (naturalHeight image) <= v)%Q.

(** The pixel column [px] of the preview lies wholly to the left of the
    divider of the comparison overlay (anywhere, when the overlay is
    off). *)
Definition leftOfDivider (config : SpriteConfig) (dimensions : ImageDimensions)
    (overlay : PreviewPlayer.Comparison) (px : Z) : Prop :=
  match overlay with
  | PreviewPlayer.noComparison => True
  | PreviewPlayer.brokenComparison sliderPos
  | PreviewPlayer.comparison _ sliderPos =>
      (inject_Z px + 1 <=
         GifBuilder.frameWidthOf config dimensions * sliderPos / 100 - 1)%Q
  end.

(** The pixel of a rendered frame (composited, then keyed in auto-transparent
    mode), written without the incoming canvas. *)
Definition renderedPixel `{Canvas2D} (image : Image) (config : SpriteConfig)
    (dimensions : ImageDimensions) (index px py : Z) : Pixel :=
  let p := compositedPixel image config dimensions index px py in
  if autoTransparent config
  then if keyed (compositedPixel image config dimensions index 0 0) p
       then keyPixel else p
  else p.

(** The pixels (px, py) of the frame buffer. *)
Definition inFrame (config : SpriteConfig) (dimensions : ImageDimensions)
    (px py : Z) : Prop :=
  0 <= px < truncQ (GifBuilder.frameWidthOf config dimensions) /\
  0 <= py < truncQ (GifBuilder.frameHeightOf config dimensions).

(** The groups of a list that were created at time [t], in the order of the
    list. *)
Definition groupsCreatedAt (t : Z) (groups : list NodeGroup.t) : list NodeGroup.t :=
  List.filter (fun group => NodeGroup.createdAt group =? t) groups.

(** Scenario E in auto-transparent mode. *)
Definition shiftedAuto : SpriteConfig :=
  mkConfig 2 2 4 12 1 true Row {[ 0 := mkOffset 5 0 ]} [].


(** The rows of the layout, one list of three boxes per group: the boxes
    [layoutLoop] appends group after group. *)
Fixpoint layoutRows (sortedGroups : list NodeGroup.t) (currentY : Q)
  : list (list Layout.Box) :=
  match sortedGroups with
  | [] => []
  | group :: rest =>
      fst (Layout.groupRow group currentY) ::
      layoutRows rest
        (currentY + snd (Layout.groupRow group currentY) + Layout.GAP_Y)%Q
  end.

(** The three nodes a group owns on the canvas. *)
Definition nodeKinds (group : NodeGroup.t)
  : list (string * string * CanvasNodeData.NodeType) :=
  [ (("raw-" ++ NodeGroup.id group)%string, NodeGroup.id group, CanvasNodeData.raw);
    (("editor-" ++ NodeGroup.id group)%string, NodeGroup.id group,
     CanvasNodeData.editor);
    (("preview-" ++ NodeGroup.id group)%string, NodeGroup.id group,
     CanvasNodeData.preview) ].

Definition kindOf (b : Layout.Box) : string * string * CanvasNodeData.NodeType :=
  (CanvasNodeData.id (Layout.node b), CanvasNodeData.groupId (Layout.node b),
   CanvasNodeData.type (Layout.node b)).

(** A second group, created after [spriteGroup]. *)
Definition wideGroup : NodeGroup.t :=
  NodeGroup.mk "3c4d5e6f-0000-4000-8000-000000000000" (Some "data:image/png;base64,BB")
    None (mkDims 2048 512) (mkConfig 2 8 16 12 1 true Row ∅ []) 7.

(** The asset one export of [group] adds, if it adds one. *)
Definition exportedAsset `{Canvas2D} (env : App.ExportEnv) (group : NodeGroup.t)
  : option SavedAsset.t :=
  match App.generateGifAsset env group (App.mkState ∅ None [] []) with
  | (s', App.Ran run) =>
      match GifBuilder.rejected run with
      | None => head (App.savedAssets s')
      | Some _ => None
      end
  | _ => None
  end.

(** The assets a batch over [allGroups] adds, oldest first. *)
Fixpoint batchAssets `{Canvas2D} (envOf : nat -> App.ExportEnv) (done : nat)
    (allGroups : list NodeGroup.t) : list SavedAsset.t :=
  match allGroups with
  | [] => []
  | group :: rest =>
      match exportedAsset (envOf done) group with
      | Some asset => asset :: batchAssets envOf (S done) rest
      | None => batchAssets envOf (S done) rest
      end
  end.

(** A browser in which the k-th export gets its own id and blob URL. *)
Definition browserEnvOf (k : nat) : App.ExportEnv :=
  App.mkExportEnv (Some whiteImage) (Some "blob:worker") true
    (if (k =? 0)%nat then "blob:gif-0" else "blob:gif-1")
    (if (k =? 0)%nat then "aaaaaaaa-0000-4000-8000-000000000000"
     else "bbbbbbbb-0000-4000-8000-000000000000")
    (1700000000000 + Z.of_nat k).

(** The groups are filed under their own id, and the selection and the nodes
    refer to groups that exist. *)
Definition consistent (s : App.State) : Prop :=
  (forall id group, App.groups s !! id = Some group -> NodeGroup.id group = id) /\
  (forall id, App.selectedGroupId s = Some id -> is_Some (App.groups s !! id)) /\
  (forall n, n ∈ App.nodes s -> is_Some (App.groups s !! CanvasNodeData.groupId n)).

(** The configuration of the group [id], if there is one. *)
Definition configOf (s : App.State) (id : string) : option SpriteConfig :=
  NodeGroup.config <$> App.groups s !! id.

(** A 6x6 sheet whose pixels record their own position. *)
Definition positionImage : Image :=
  mkImage 6 6 (fun u v => mkPixel u v 0 255).

(** The pixel of cell [i] of a grid image cut by itself: the cell drawn on a
    fresh canvas of the cell's size. *)
Definition slicedPixel `{Canvas2D} (img : Image) (i px py : Z) : Pixel :=
  let cellW := (inject_Z (naturalWidth img) / inject_Z 3)%Q in
  let cellH := (inject_Z (naturalHeight img) / inject_Z 3)%Q in
  canvasPixel (App.sliceCell img cellW cellH (setCanvasSize cellW cellH) i) px py.

(** An edit of the grid shape. *)
Definition isGridEdit (edit : App.ConfigEdit) : bool :=
  match edit with
  | App.editRows _ | App.editCols _ => true
  | _ => false
  end.

(** A state whose selection names a group that is gone. *)
Definition danglingApp : App.State :=
  App.mkState ∅ (Some (NodeGroup.id spriteGroup)) [] [].

(** A data URL with the given image subtype and payload. *)
Definition dataUrl (subtype payload : string) : string :=
  ("data:image/" ++ subtype ++ ";base64," ++ payload)%string.

(** A non-empty run of characters of the class [[a-zA-Z+]]. *)
Definition isSubtype (subtype : string) : Prop :=
  subtype <> ""%string /\
  GeminiService.allChars GeminiService.isSubtypeChar subtype = true.

(** A non-empty text without line terminators. *)
Definition isOneLine (payload : string) : Prop :=
  payload <> ""%string /\
  GeminiService.allChars (fun c => negb (GeminiService.isLineTerminator c)) payload
    = true.

(** * Properties *)

(** ** Arithmetic helpers *)

Lemma jsFloorDiv_div (a b : Z) : jsFloorDiv a b = a / b.
Proof. unfold jsFloorDiv. symmetry. apply Zdiv_Qdiv. Qed.

Lemma jsRem_mod (a b : Z) : 0 <= a -> 0 < b -> jsRem a b = a mod b.
Proof. intros Ha Hb. unfold jsRem. apply Z.rem_mod_nonneg; lia. Qed.

Lemma includes_true (xs : list Z) (v : Z) : includes xs v = true <-> v ∈ xs.
Proof.
  unfold includes. rewrite existsb_exists. split.
  - intros (w & Hin & Heq). apply Z.eqb_eq in Heq. subst w.
    now apply list_elem_of_In.
  - intros Hin. exists v. split; [now apply list_elem_of_In | apply Z.eqb_refl].
Qed.

Lemma includes_false (xs : list Z) (v : Z) : includes xs v = false <-> v ∉ xs.
Proof.
  rewrite <- includes_true. destruct (includes xs v); split; congruence.
Qed.

Lemma Qleb_true (a b : Q) : Qleb a b = true <-> (a <= b)%Q.
Proof. apply Qle_bool_iff. Qed.

Lemma Qltb_true (a b : Q) : Qltb a b = true <-> (a < b)%Q.
Proof.
  unfold Qltb. rewrite negb_true_iff, <- not_true_iff_false, Qle_bool_iff.
  split; [apply Qnot_le_lt | apply Qlt_not_le].
Qed.

Lemma Qleb_false (a b : Q) : Qleb a b = false <-> (b < a)%Q.
Proof.
  rewrite <- not_true_iff_false, Qleb_true.
  split; [apply Qnot_le_lt | apply Qlt_not_le].
Qed.

Lemma Qltb_false (a b : Q) : Qltb a b = false <-> (b <= a)%Q.
Proof.
  rewrite <- not_true_iff_false, Qltb_true.
  split; [apply Qnot_lt_le | intros H1 H2; exact (Qlt_not_le _ _ H2 H1)].
Qed.

Lemma Qleb_comp (a a' b b' : Q) : a == a' -> b == b' -> Qleb a b = Qleb a' b'.
Proof.
  intros Ha Hb. apply eq_true_iff_eq. rewrite !Qleb_true, Ha, Hb. reflexivity.
Qed.

Lemma Qltb_comp (a a' b b' : Q) : a == a' -> b == b' -> Qltb a b = Qltb a' b'.
Proof.
  intros Ha Hb. apply eq_true_iff_eq. rewrite !Qltb_true, Ha, Hb. reflexivity.
Qed.

Lemma truncQ_quotient (a c : Z) :
  0 <= a -> 1 <= c -> truncQ (inject_Z a / inject_Z c) = a / c.
Proof.
  intros Ha Hc. unfold truncQ.
  assert (Hnn : (0 <= inject_Z a / inject_Z c)%Q).
  { apply Qle_shift_div_l.
    - change 0%Q with (inject_Z 0). rewrite <- Zlt_Qlt. lia.
    - rewrite Qmult_0_l. change 0%Q with (inject_Z 0). rewrite <- Zle_Qle. lia. }
  apply Qleb_true in Hnn. rewrite Hnn. symmetry. apply Zdiv_Qdiv.
Qed.

(** The truncated quotient is the exact quotient only for exact divisions. *)
Lemma quotient_exact (a c : Z) :
  1 <= c -> (inject_Z (a / c) == inject_Z a / inject_Z c <-> a mod c = 0).
Proof.
  intros Hc.
  assert (Hc0 : ~ inject_Z c == 0).
  { change 0%Q with (inject_Z 0). rewrite inject_Z_injective. lia. }
  split.
  - intros Heq.
    assert (Hm : inject_Z (a / c) * inject_Z c == inject_Z a).
    { rewrite Heq. field. exact Hc0. }
    rewrite <- inject_Z_mult, inject_Z_injective in Hm.
    pose proof (Z.div_mod a c ltac:(lia)). lia.
  - intros Hmod.
    assert (Ha : a = a / c * c).
    { pose proof (Z.div_mod a c ltac:(lia)). lia. }
    rewrite Ha at 2. rewrite inject_Z_mult. field. exact Hc0.
Qed.

(** ** Double precision *)

Lemma pow2_pos (z : Z) : (0 < pow2 z)%Q.
Proof. apply Qpower_0_lt. reflexivity. Qed.

Lemma pow2_add (a b : Z) : pow2 (a + b) == pow2 a * pow2 b.
Proof. apply Qpower_plus. discriminate. Qed.

Lemma pow2_Z (z : Z) : 0 <= z -> pow2 z == inject_Z (2 ^ z).
Proof. intros Hz. unfold pow2. rewrite Zpower_Qpower by exact Hz. reflexivity. Qed.

(** The rounded integer is within one half of the number. *)
Lemma roundHalfEven_near (v : Q) :
  (v - (1 # 2) <= inject_Z (roundHalfEven v))%Q /\
  (inject_Z (roundHalfEven v) <= v + (1 # 2))%Q.
Proof.
  unfold roundHalfEven.
  pose proof (Qfloor_le v) as Hlo. pose proof (Qlt_floor v) as Hhi.
  rewrite inject_Z_plus in Hhi. change (inject_Z 1) with 1%Q in Hhi.
  set (f := Qfloor v) in *.
  destruct (Qltb (v - inject_Z f) (1 # 2)) eqn:Hlt.
  - apply Qltb_true in Hlt. split; lra.
  - apply Qltb_false in Hlt.
    assert (Hup : (v - (1 # 2) <= inject_Z (f + 1))%Q /\
                  (inject_Z (f + 1) <= v + (1 # 2))%Q).
    { rewrite inject_Z_plus. change (inject_Z 1) with 1%Q. split; lra. }
    destruct (Qltb (1 # 2) (v - inject_Z f)) eqn:Hgt; [exact Hup |].
    apply Qltb_false in Hgt.
    destruct (Z.even f); [split; lra | exact Hup].
Qed.

Lemma pow2_sub (a b : Z) :
  0 <= a -> 0 <= b -> pow2 (a - b) == inject_Z (2 ^ a) / inject_Z (2 ^ b).
Proof.
  intros Ha Hb. replace (a - b) with (a + - b) by lia.
  rewrite pow2_add. unfold pow2 at 2. rewrite Qpower_opp. fold (pow2 b).
  rewrite !pow2_Z by assumption. reflexivity.
Qed.

Lemma frac_le (p r s t : Z) :
  0 < r -> 0 < t -> p * t <= s * r ->
  (inject_Z p / inject_Z r <= inject_Z s / inject_Z t)%Q.
Proof.
  intros Hr Ht Hle.
  assert (Hr' : (0 < inject_Z r)%Q) by (change 0%Q with (inject_Z 0); now rewrite <- Zlt_Qlt).
  assert (Ht' : (0 < inject_Z t)%Q) by (change 0%Q with (inject_Z 0); now rewrite <- Zlt_Qlt).
  apply Qle_shift_div_l; [exact Ht' |].
  setoid_replace (inject_Z p / inject_Z r * inject_Z t)%Q
    with (inject_Z p * inject_Z t / inject_Z r)%Q using relation Qeq
    by (field; intros H0; rewrite H0 in Hr'; now apply Qlt_irrefl in Hr').
  apply Qle_shift_div_r; [exact Hr' |].
  rewrite <- !inject_Z_mult, <- Zle_Qle. exact Hle.
Qed.

Lemma frac_lt (p r s t : Z) :
  0 < r -> 0 < t -> p * t < s * r ->
  (inject_Z p / inject_Z r < inject_Z s / inject_Z t)%Q.
Proof.
  intros Hr Ht Hlt.
  assert (Hr' : (0 < inject_Z r)%Q) by (change 0%Q with (inject_Z 0); now rewrite <- Zlt_Qlt).
  assert (Ht' : (0 < inject_Z t)%Q) by (change 0%Q with (inject_Z 0); now rewrite <- Zlt_Qlt).
  apply Qlt_shift_div_l; [exact Ht' |].
  setoid_replace (inject_Z p / inject_Z r * inject_Z t)%Q
    with (inject_Z p * inject_Z t / inject_Z r)%Q using relation Qeq
    by (field; intros H0; rewrite H0 in Hr'; now apply Qlt_irrefl in Hr').
  apply Qlt_shift_div_r; [exact Hr' |].
  rewrite <- !inject_Z_mult, <- Zlt_Qlt. exact Hlt.
Qed.

Lemma binade_spec (q : Q) :
  (0 < q)%Q -> (pow2 (binade q) <= q)%Q /\ (q < pow2 (binade q + 1))%Q.
Proof.
  intros Hq. destruct q as [n d]. unfold binade. cbn [Qnum Qden].
  assert (Hn : 0 < n) by (unfold Qlt in Hq; simpl in Hq; lia).
  set (a := Z.log2 n). set (b := Z.log2 (Z.pos d)).
  assert (Ha : 2 ^ a <= n < 2 ^ (a + 1)).
  { unfold a. pose proof (Z.log2_spec n Hn) as H.
    replace (Z.log2 n + 1) with (Z.succ (Z.log2 n)) by lia. exact H. }
  assert (Hb : 2 ^ b <= Z.pos d < 2 ^ (b + 1)).
  { unfold b. pose proof (Z.log2_spec (Z.pos d) ltac:(lia)) as H.
    replace (Z.log2 (Z.pos d) + 1) with (Z.succ (Z.log2 (Z.pos d))) by lia.
    exact H. }
  assert (Ha0 : 0 <= a) by apply Z.log2_nonneg.
  assert (Hb0 : 0 <= b) by apply Z.log2_nonneg.
  assert (HA : 0 < 2 ^ a) by (apply Z.pow_pos_nonneg; lia).
  assert (HB : 0 < 2 ^ b) by (apply Z.pow_pos_nonneg; lia).
  assert (Hq' : n # d == inject_Z n / inject_Z (Z.pos d)) by apply Qmake_Qdiv.
  assert (Hlow : (pow2 (a - b - 1) <= n # d)%Q).
  { replace (a - b - 1) with (a - (b + 1)) by lia.
    rewrite pow2_sub by lia. rewrite Hq'. apply frac_le; nia. }
  assert (Hhigh : (n # d < pow2 (a - b + 1))%Q).
  { replace (a - b + 1) with ((a + 1) - b) by lia.
    rewrite pow2_sub by lia. rewrite Hq'. apply frac_lt; nia. }
  destruct (Qltb (n # d) (pow2 (a - b))) eqn:Hcmp.
  - apply Qltb_true in Hcmp. split; [exact Hlow |].
    now replace (a - b - 1 + 1) with (a - b) by lia.
  - apply Qltb_false in Hcmp. split; [exact Hcmp | exact Hhigh].
Qed.

(** Rounding moves a positive number by at most the fraction 2^-53 of
    it. *)
Lemma roundDouble_error (q : Q) :
  (0 < q)%Q ->
  (q * (1 - unitRoundoff) <= roundDouble q)%Q /\
  (roundDouble q <= q * (1 + unitRoundoff))%Q.
Proof.
  intros Hq. unfold roundDouble.
  assert (Hne : Qeq_bool q 0 = false).
  { apply not_true_iff_false. rewrite Qeq_bool_iff. intros H0.
    rewrite H0 in Hq. now apply Qlt_irrefl in Hq. }
  assert (Hneg : Qltb q 0 = false) by (apply Qltb_false; now apply Qlt_le_weak).
  rewrite Hne, Hneg.
  assert (Habs : Qabs q == q) by (apply Qabs_pos; now apply Qlt_le_weak).
  destruct (binade_spec (Qabs q)) as [Hlo _]; [now rewrite Habs |].
  set (e := binade (Qabs q)) in *.
  pose proof (pow2_pos (52 - e)) as HP.
  assert (HPE : pow2 (52 - e) * pow2 e == 4503599627370496).
  { rewrite <- pow2_add. now replace (52 - e + e) with 52 by lia. }
  destruct (roundHalfEven_near (Qabs q * pow2 (52 - e))) as [Hm1 Hm2].
  set (m := inject_Z (roundHalfEven (Qabs q * pow2 (52 - e)))) in *.
  rewrite Habs in Hlo, Hm1, Hm2.
  assert (HqP : (4503599627370496 <= q * pow2 (52 - e))%Q).
  { rewrite <- HPE, (Qmult_comm (pow2 (52 - e)) (pow2 e)).
    apply Qmult_le_compat_r; [exact Hlo | now apply Qlt_le_weak]. }
  unfold unitRoundoff. split.
  - apply Qle_shift_div_l; [exact HP |].
    setoid_replace (q * (1 - (1 # 9007199254740992)) * pow2 (52 - e))%Q
      with (q * pow2 (52 - e) * (1 - (1 # 9007199254740992)))%Q
      using relation Qeq by ring.
    generalize dependent (q * pow2 (52 - e))%Q. clearbody m. intros X. intros.
    clear - Hm1 Hm2 HqP. lra.
  - apply Qle_shift_div_r; [exact HP |].
    setoid_replace (q * (1 + (1 # 9007199254740992)) * pow2 (52 - e))%Q
      with (q * pow2 (52 - e) * (1 + (1 # 9007199254740992)))%Q
      using relation Qeq by ring.
    generalize dependent (q * pow2 (52 - e))%Q. clearbody m. intros X. intros.
    clear - Hm1 Hm2 HqP. lra.
Qed.

Lemma roundDouble_pos (q : Q) : (0 < q)%Q -> (0 < roundDouble q)%Q.
Proof.
  intros Hq. destruct (roundDouble_error q Hq) as [Hlo _].
  apply Qlt_le_trans with (q * (1 - unitRoundoff))%Q; [| exact Hlo].
  apply Qlt_le_trans with (q * (1 # 2))%Q; [lra |].
  apply Qmult_le_l; [exact Hq | unfold unitRoundoff; lra].
Qed.

Lemma roundDouble_zero (q : Q) : q == 0 -> roundDouble q = 0%Q.
Proof.
  intros H0. unfold roundDouble.
  apply Qeq_bool_iff in H0. now rewrite H0.
Qed.

(** Sample quotients: 1000/30 rounds up to 33.333333333333336, and 500
    divided by that is 14.999999999999998. *)
Example roundDouble_samples :
  Qred (jsDiv 1000 30) = 4691249611844267 # 140737488355328 /\
  Qfloor (jsDiv 500 (jsDiv 1000 30)) = 14 /\
  Qfloor (jsDiv 1000 (jsDiv 1000 12)) = 12 /\
  jsDiv 1 3 == 6004799503160661 # 18014398509481984 /\
  jsDiv (-7) 2 == - (7 # 2).
Proof. repeat split; vm_compute; reflexivity. Qed.

(** ** Grid addressing *)

(** C1. For rows >= 1, cols >= 1 and an index in [0, rows*cols): row-major
    addressing gives col = index mod cols and row = floor(index / cols);
    column-major addressing gives row = index mod rows and
    col = floor(index / rows).  On a 2x2 column-major grid the indices
    0, 1, 2, 3 are the cells (0,0), (1,0), (0,1), (1,1), written (row, col). *)
Theorem indexToCell_formula (config : SpriteConfig) (index : Z) :
  1 <= rows config -> 1 <= cols config ->
  0 <= index < rows config * cols config ->
  (direction config = Row ->
     indexToCell config index = (index / cols config, index mod cols config)) /\
  (direction config = Column ->
     indexToCell config index = (index mod rows config, index / rows config)) /\
  (rows config = 2 -> cols config = 2 -> direction config = Column ->
     map (indexToCell config) [0; 1; 2; 3] = [(0, 0); (1, 0); (0, 1); (1, 1)]).
Proof.
  intros Hr Hc Hi. unfold indexToCell. repeat split.
  - intros ->. rewrite jsFloorDiv_div, jsRem_mod by lia. reflexivity.
  - intros ->. rewrite jsFloorDiv_div, jsRem_mod by lia. reflexivity.
  - intros Hr2 Hc2 ->. rewrite Hr2. reflexivity.
Qed.

Lemma indexToCell_formula_witness :
  map (indexToCell scenarioB) [0; 1; 2; 3] = [(0, 0); (1, 0); (0, 1); (1, 1)].
Proof.
  destruct (indexToCell_formula scenarioB 3) as (_ & _ & H).
  - simpl. lia.
  - simpl. lia.
  - simpl. lia.
  - apply H; reflexivity.
Defined.

(** ** Offset edits *)

Lemma withFrameOffsets_same (config : SpriteConfig) :
  withFrameOffsets config (frameOffsets config) = config.
Proof. destruct config; reflexivity. Qed.

Lemma offsetOf_withFrameOffsets (config : SpriteConfig) (m : gmap Z Offset) (i : Z) :
  offsetOf (withFrameOffsets config m) i =
  match m !! i with Some o => o | None => mkOffset 0 0 end.
Proof. reflexivity. Qed.

(** Rendering a frame reads the offset map only at that frame. *)
Lemma renderFrame_offset_local `{Canvas2D} (image : Image) (config : SpriteConfig)
    (m1 m2 : gmap Z Offset) (dimensions : ImageDimensions) (canvas : Canvas)
    (index : Z) :
  m1 !! index = m2 !! index ->
  GifBuilder.renderFrame image (withFrameOffsets config m1) dimensions canvas index =
  GifBuilder.renderFrame image (withFrameOffsets config m2) dimensions canvas index.
Proof.
  intros Hm.
  unfold GifBuilder.renderFrame, GifBuilder.compositeFrame, GifBuilder.sourceXY.
  rewrite !offsetOf_withFrameOffsets, Hm. reflexivity.
Qed.

Lemma draw_offset_local `{Canvas2D} (image : Image) (config : SpriteConfig)
    (m1 m2 : gmap Z Offset) (dimensions : ImageDimensions)
    (overlay : PreviewPlayer.Comparison) (index : Z) :
  m1 !! index = m2 !! index ->
  PreviewPlayer.draw image (withFrameOffsets config m1) dimensions overlay index =
  PreviewPlayer.draw image (withFrameOffsets config m2) dimensions overlay index.
Proof.
  intros Hm.
  unfold PreviewPlayer.draw, PreviewPlayer.sourceXY, PreviewPlayer.origSourceXY.
  rewrite !offsetOf_withFrameOffsets, Hm. reflexivity.
Qed.

(** C6. A nudge adds (dx, dy) to the frame's current offset, an absent entry
    counting as (0,0), so repeated nudges accumulate; a reset removes the
    entry.  Nudging a frame and then resetting it leaves the exported frame
    and the preview drawing exactly those of a frame without an offset
    entry, whatever the comparison overlay of the preview shows, and gives
    back the very configuration when the frame had none.  The modal
    editor's [updateFrameOffset] / [resetFrameOffset] are the same
    operations. *)
Theorem nudge_accumulates_reset_restores `{Canvas2D}
    (config : SpriteConfig) (index dx dy dx' dy' : Z)
    (image : Image) (dimensions : ImageDimensions) (canvas : Canvas)
    (overlay : PreviewPlayer.Comparison) :
  let nudged := SplitFrameEditor.handleNudge config index dx dy in
  let nudgedTwice := SplitFrameEditor.handleNudge nudged index dx' dy' in
  let restored := SplitFrameEditor.handleResetOffset nudged index in
  offsetOf nudged index =
    mkOffset (x (offsetOf config index) + dx) (y (offsetOf config index) + dy) /\
  (frameOffsets config !! index = None -> offsetOf nudged index = mkOffset dx dy) /\
  offsetOf nudgedTwice index =
    mkOffset (x (offsetOf config index) + dx + dx')
             (y (offsetOf config index) + dy + dy') /\
  frameOffsets restored !! index = None /\
  offsetOf restored index = mkOffset 0 0 /\
  (forall m0 : gmap Z Offset, m0 !! index = None ->
     GifBuilder.renderFrame image restored dimensions canvas index =
     GifBuilder.renderFrame image (withFrameOffsets config m0) dimensions canvas index /\
     PreviewPlayer.draw image restored dimensions overlay index =
     PreviewPlayer.draw image (withFrameOffsets config m0) dimensions overlay index) /\
  (frameOffsets config !! index = None -> restored = config) /\
  FrameEditorModal.updateFrameOffset config index dx dy = nudged /\
  FrameEditorModal.resetFrameOffset nudged index = restored.
Proof.
  intros nudged nudgedTwice restored.
  assert (Hn : offsetOf nudged index =
    mkOffset (x (offsetOf config index) + dx) (y (offsetOf config index) + dy)).
  { unfold nudged, SplitFrameEditor.handleNudge.
    rewrite offsetOf_withFrameOffsets, lookup_insert_eq. reflexivity. }
  assert (Hr : frameOffsets restored !! index = None).
  { unfold restored, SplitFrameEditor.handleResetOffset. simpl.
    apply lookup_delete_eq. }
  repeat split.
  - exact Hn.
  - intros Habs. rewrite Hn. unfold offsetOf. rewrite Habs. simpl.
    f_equal; lia.
  - unfold nudgedTwice, SplitFrameEditor.handleNudge at 1.
    rewrite offsetOf_withFrameOffsets, lookup_insert_eq, Hn. reflexivity.
  - exact Hr.
  - unfold offsetOf. rewrite Hr. reflexivity.
  - change restored with
      (withFrameOffsets config (delete index (frameOffsets nudged))).
    apply renderFrame_offset_local. rewrite H0. apply lookup_delete_eq.
  - change restored with
      (withFrameOffsets config (delete index (frameOffsets nudged))).
    apply draw_offset_local. rewrite H0. apply lookup_delete_eq.
  - intros Habs.
    change restored with
      (withFrameOffsets config
         (delete index (<[index := mkOffset (x (offsetOf config index) + dx)
                                            (y (offsetOf config index) + dy)]>
                          (frameOffsets config)))).
    rewrite delete_insert_eq, delete_id by exact Habs.
    apply withFrameOffsets_same.
Qed.

Lemma nudge_accumulates_reset_restores_witness :
  SplitFrameEditor.handleResetOffset
    (SplitFrameEditor.handleNudge INITIAL_CONFIG 0 5 0) 0 = INITIAL_CONFIG.
Proof.
  destruct (@nudge_accumulates_reset_restores opaquePlatform INITIAL_CONFIG
              0 5 0 1 1 whiteImage (mkDims 4 4) (setCanvasSize 1 1)
              PreviewPlayer.noComparison)
    as (_ & _ & _ & _ & _ & _ & Hrestore & _).
  apply Hrestore. reflexivity.
Defined.

(** ** Valid frames *)

Lemma validFramesLoop_filter (excluded : list Z) (n : nat) (i : Z) (frames : list Z) :
  validFramesLoop excluded n i frames =
  frames ++ filter (fun j => j ∉ excluded) (seqZ i (Z.of_nat n)).
Proof.
  revert i frames. induction n as [| n IH]; intros i frames.
  - simpl. rewrite seqZ_nil by lia. rewrite filter_nil. now rewrite app_nil_r.
  - cbn [validFramesLoop]. rewrite IH.
    rewrite (seqZ_cons i (Z.of_nat (S n))) by lia.
    replace (Z.pred (Z.of_nat (S n))) with (Z.of_nat n) by lia.
    replace (Z.succ i) with (i + 1) by lia.
    rewrite filter_cons.
    destruct (includes excluded i) eqn:Hinc.
    + apply includes_true in Hinc. rewrite decide_False by tauto. reflexivity.
    + apply includes_false in Hinc. rewrite decide_True by exact Hinc.
      now rewrite <- app_assoc.
Qed.

Lemma getValidFrames_filter (config : SpriteConfig) :
  getValidFrames config =
  filter (fun j => j ∉ excludedFrames config) (seqZ 0 (totalFrames config)).
Proof.
  unfold getValidFrames. rewrite validFramesLoop_filter. simpl.
  unfold seqZ. now rewrite Nat2Z.id.
Qed.

Lemma elem_of_getValidFrames (config : SpriteConfig) (i : Z) :
  i ∈ getValidFrames config <->
  0 <= i < totalFrames config /\ i ∉ excludedFrames config.
Proof.
  rewrite getValidFrames_filter, list_elem_of_filter, elem_of_seqZ.
  split; intros; (split; [tauto | lia]) || (split; [lia | tauto]).
Qed.

Lemma StronglySorted_seqZ (m n : Z) : StronglySorted Z.lt (seqZ m n).
Proof.
  destruct (Z.le_gt_cases n 0) as [Hn | Hn].
  { rewrite seqZ_nil by lia. constructor. }
  rewrite <- (Z2Nat.id n) by lia. generalize (Z.to_nat n) as k. clear Hn n.
  intros k. revert m. induction k as [| k IH]; intros m.
  - rewrite seqZ_nil by lia. constructor.
  - rewrite seqZ_cons by lia.
    replace (Z.pred (Z.of_nat (S k))) with (Z.of_nat k) by lia.
    constructor; [apply IH |].
    apply Forall_seqZ. intros; lia.
Qed.

Lemma StronglySorted_filter_lt (P : Z -> Prop) `{forall j, Decision (P j)}
    (l : list Z) :
  StronglySorted Z.lt l -> StronglySorted Z.lt (filter P l).
Proof.
  induction 1 as [| a l Hl IH Ha].
  - rewrite filter_nil. constructor.
  - rewrite filter_cons. destruct (decide (P a)); [| exact IH].
    constructor; [exact IH |].
    apply Forall_forall. intros b Hb.
    apply list_elem_of_filter in Hb.
    rewrite Forall_forall in Ha. apply Ha. tauto.
Qed.

Lemma getValidFrames_sorted (config : SpriteConfig) :
  StronglySorted Z.lt (getValidFrames config).
Proof.
  rewrite getValidFrames_filter.
  apply StronglySorted_filter_lt, StronglySorted_seqZ.
Qed.

(** All frames excluded exactly when no valid frame is left. *)
Lemma getValidFrames_nil (config : SpriteConfig) :
  getValidFrames config = [] <->
  (forall i, 0 <= i < totalFrames config -> i ∈ excludedFrames config).
Proof.
  split.
  - intros Hnil i Hi.
    destruct (decide (i ∈ excludedFrames config)) as [Hin | Hout]; [exact Hin |].
    assert (Hv : i ∈ getValidFrames config) by (apply elem_of_getValidFrames; tauto).
    rewrite Hnil in Hv. now apply not_elem_of_nil in Hv.
  - intros Hall. destruct (getValidFrames config) as [| a l] eqn:Hv; [reflexivity |].
    assert (Ha : a ∈ getValidFrames config) by (rewrite Hv; apply list_elem_of_here).
    apply elem_of_getValidFrames in Ha. destruct Ha as [Hr Hx].
    exfalso. apply Hx, Hall, Hr.
Qed.


(** ** Playback clock *)

Lemma Qfloor_add_Z (q : Q) (n : Z) : Qfloor (q + inject_Z n) = Qfloor q + n.
Proof.
  destruct q as [a d]. unfold Qfloor, Qplus, inject_Z. simpl.
  rewrite Pos.mul_1_r, Z.mul_1_r. apply Z.div_add. lia.
Qed.

Lemma Qfloor_unique (q : Q) (n : Z) :
  (inject_Z n <= q)%Q -> (q < inject_Z n + 1)%Q -> Qfloor q = n.
Proof.
  intros Hlo Hhi.
  assert (H1 : n <= Qfloor q).
  { rewrite <- (Qfloor_Z n). now apply Qfloor_resp_le. }
  assert (H2 : Qfloor q < n + 1).
  { rewrite Zlt_Qlt, inject_Z_plus. change (inject_Z 1) with 1%Q.
    apply Qle_lt_trans with q; [apply Qfloor_le | exact Hhi]. }
  lia.
Qed.

Lemma frameInterval_pos (f : Z) : 1 <= f -> (0 < jsDiv 1000 (inject_Z f))%Q.
Proof.
  intros Hf. apply roundDouble_pos. apply Qlt_shift_div_l.
  - change 0%Q with (inject_Z 0). rewrite <- Zlt_Qlt. lia.
  - rewrite Qmult_0_l. reflexivity.
Qed.

Lemma ticks_nonneg (f : Z) (time : Q) :
  1 <= f -> (0 <= time)%Q ->
  0 <= Qfloor (jsDiv time (jsDiv 1000 (inject_Z f))).
Proof.
  intros Hf Ht. pose proof (frameInterval_pos f Hf) as HI.
  set (I := jsDiv 1000 (inject_Z f)) in *.
  change 0 with (Qfloor 0). apply Qfloor_resp_le. unfold jsDiv.
  destruct (Qlt_le_dec 0 time) as [Hpos | Hzero].
  - apply Qlt_le_weak, roundDouble_pos. apply Qlt_shift_div_l; [exact HI |].
    now rewrite Qmult_0_l.
  - assert (H0 : time / I == 0).
    { assert (Ht0 : time == 0) by (apply Qle_antisym; assumption).
      rewrite Ht0. unfold Qdiv. apply Qmult_0_l. }
    rewrite (roundDouble_zero _ H0). apply Qle_refl.
Qed.

(** The computed quotient is the exact one up to the fraction 2^-51. *)
Lemma ticks_error (f : Z) (time : Q) :
  1 <= f -> (0 < time)%Q ->
  let exact := (time * inject_Z f / 1000)%Q in
  (exact * (1 - (1 # 2251799813685248))
     <= jsDiv time (jsDiv 1000 (inject_Z f)))%Q /\
  (jsDiv time (jsDiv 1000 (inject_Z f))
     <= exact * (1 + (1 # 2251799813685248)))%Q.
Proof.
  intros Hf Ht exact.
  assert (Hf' : (0 < inject_Z f)%Q).
  { change 0%Q with (inject_Z 0). rewrite <- Zlt_Qlt. lia. }
  assert (Hstar : (0 < 1000 / inject_Z f)%Q).
  { apply Qlt_shift_div_l; [exact Hf' | now rewrite Qmult_0_l]. }
  pose proof (frameInterval_pos f Hf) as HI.
  destruct (roundDouble_error (1000 / inject_Z f) Hstar) as [HI1 HI2].
  fold (jsDiv 1000 (inject_Z f)) in HI1, HI2.
  set (I := jsDiv 1000 (inject_Z f)) in *.
  assert (Hx : (0 < time / I)%Q).
  { apply Qlt_shift_div_l; [exact HI | now rewrite Qmult_0_l]. }
  destruct (roundDouble_error (time / I) Hx) as [Hq1 Hq2].
  fold (jsDiv time I) in Hq1, Hq2.
  assert (HI0 : ~ I == 0).
  { intros H0. rewrite H0 in HI. now apply Qlt_irrefl in HI. }
  assert (Hf0 : ~ inject_Z f == 0).
  { intros H0. rewrite H0 in Hf'. now apply Qlt_irrefl in Hf'. }
  (* the ratio of the rounded interval to the exact one *)
  set (r := (I * inject_Z f / 1000)%Q).
  assert (Hr1 : (1 - unitRoundoff <= r)%Q).
  { unfold r. apply Qle_shift_div_l; [reflexivity |].
    apply Qmult_le_r with (/ inject_Z f)%Q; [now apply Qinv_lt_0_compat |].
    setoid_replace (I * inject_Z f * / inject_Z f)%Q with I
      using relation Qeq by (field; exact Hf0).
    setoid_replace ((1 - unitRoundoff) * 1000 * / inject_Z f)%Q
      with (1000 / inject_Z f * (1 - unitRoundoff))%Q
      using relation Qeq by (field; exact Hf0).
    exact HI1. }
  assert (Hr2 : (r <= 1 + unitRoundoff)%Q).
  { unfold r. apply Qle_shift_div_r; [reflexivity |].
    apply Qmult_le_r with (/ inject_Z f)%Q; [now apply Qinv_lt_0_compat |].
    setoid_replace (I * inject_Z f * / inject_Z f)%Q with I
      using relation Qeq by (field; exact Hf0).
    setoid_replace ((1 + unitRoundoff) * 1000 * / inject_Z f)%Q
      with (1000 / inject_Z f * (1 + unitRoundoff))%Q
      using relation Qeq by (field; exact Hf0).
    exact HI2. }
  assert (Hxr : time / I * r == exact).
  { unfold r, exact. field. exact HI0. }
  assert (Hlo : (time / I * (1 - unitRoundoff) <= exact)%Q).
  { rewrite <- Hxr. apply Qmult_le_l; assumption. }
  assert (Hhi : (exact <= time / I * (1 + unitRoundoff))%Q).
  { rewrite <- Hxr. apply Qmult_le_l; assumption. }
  generalize dependent (jsDiv time I). generalize dependent (time / I)%Q.
  clearbody exact. clear. unfold unitRoundoff. intros x Hx Hlo Hhi q Hq1 Hq2.
  split; lra.
Qed.

(** The frame a tick selects, for a non-negative time. *)
Lemma animate_active (config : SpriteConfig) (time : Q) :
  1 <= fps config -> (0 <= time)%Q ->
  getValidFrames config <> [] ->
  exists active,
    getValidFrames config !!
      Z.to_nat (Qfloor (jsDiv time (jsDiv 1000 (inject_Z (fps config))))
                mod Z.of_nat (length (getValidFrames config))) = Some active /\
    PreviewPlayer.animate config time = PreviewPlayer.ActiveFrame active.
Proof.
  intros Hf Ht Hne. unfold PreviewPlayer.animate, PreviewPlayer.stepIndex.
  pose proof (ticks_nonneg (fps config) time Hf Ht) as Hk.
  set (validFrames := getValidFrames config) in *.
  set (k := Qfloor (jsDiv time (jsDiv 1000 (inject_Z (fps config))))) in *.
  assert (Hlen : (0 < length validFrames)%nat).
  { destruct validFrames; [congruence | simpl; lia]. }
  rewrite jsRem_mod by lia.
  destruct (Nat.eqb_spec (length validFrames) 0) as [H0 | _]; [lia |].
  pose proof (Z.mod_pos_bound k (Z.of_nat (length validFrames)) ltac:(lia)) as Hm.
  destruct (Z.ltb_spec (k mod Z.of_nat (length validFrames)) 0) as [Hneg | _]; [lia |].
  destruct (lookup_lt_is_Some_2 validFrames
              (Z.to_nat (k mod Z.of_nat (length validFrames)))) as [active Ha];
    [lia |].
  exists active. rewrite Ha. split; reflexivity.
Qed.

(** Away from the ends of a frame interval the computed tick count is the
    exact one. *)
Lemma ticks_inside (config : SpriteConfig) (time : Q) (n : Z) :
  1 <= fps config -> (0 <= time)%Q -> insideTick config time n ->
  Qfloor (jsDiv time (jsDiv 1000 (inject_Z (fps config)))) = n.
Proof.
  intros Hf Ht [Hlo Hhi]. unfold exactTicks in Hlo, Hhi.
  destruct (Qlt_le_dec 0 time) as [Hpos | Hzero].
  - destruct (ticks_error (fps config) time Hf Hpos) as [H1 H2].
    cbv zeta in H1, H2.
    apply Qfloor_unique.
    + eapply Qle_trans; [exact Hlo | exact H1].
    + eapply Qle_lt_trans; [exact H2 | exact Hhi].
  - assert (Ht0 : time == 0) by (apply Qle_antisym; assumption).
    assert (H0 : time / jsDiv 1000 (inject_Z (fps config)) == 0).
    { rewrite Ht0. unfold Qdiv. apply Qmult_0_l. }
    unfold jsDiv at 1. rewrite (roundDouble_zero _ H0).
    assert (He : time * inject_Z (fps config) / 1000 == 0).
    { rewrite Ht0. unfold Qdiv. ring. }
    rewrite He in Hlo, Hhi.
    apply Qfloor_unique; lra.
Qed.

(** A selected frame is always one of the valid frames. *)
Lemma animate_valid (config : SpriteConfig) (time : Q) (active : Z) :
  PreviewPlayer.animate config time = PreviewPlayer.ActiveFrame active ->
  active ∈ getValidFrames config.
Proof.
  unfold PreviewPlayer.animate.
  destruct (length (getValidFrames config) =? 0)%nat; [discriminate |].
  destruct (PreviewPlayer.stepIndex config time (getValidFrames config) <? 0);
    [discriminate |].
  destruct (getValidFrames config !! _) as [a |] eqn:Hl; [| discriminate].
  intros [= <-]. eapply list_elem_of_lookup_2. exact Hl.
Qed.

(** C3, as the program has it.  The playback clock lists the non-excluded
    indices below totalFrames in ascending order.  With no such index a tick
    renders nothing.  A frame a tick selects is always a non-excluded index
    below totalFrames.  In the clock's domain, with at least one valid
    frame, the active frame is
    validFrames[floor(t / (1000/fps)) mod validFrames.length] with both
    quotients rounded to doubles.  At every time that is away from the two
    ends of its frame interval by the fraction 2^-51 of the time, the tick
    count is the one of exact arithmetic, so that two such times whose tick
    counts differ by a multiple of validFrames.length show the same
    frame. *)
Theorem playback_active_frame (config : SpriteConfig) (time : Q) :
  let validFrames := getValidFrames config in
  let frameInterval := jsDiv 1000 (inject_Z (fps config)) in
  let ticks := Qfloor (jsDiv time frameInterval) in
  validFrames =
    filter (fun i => i ∉ excludedFrames config) (seqZ 0 (totalFrames config)) /\
  StronglySorted Z.lt validFrames /\
  (validFrames = [] ->
     PreviewPlayer.animate config time = PreviewPlayer.RenderNothing) /\
  (forall active,
     PreviewPlayer.animate config time = PreviewPlayer.ActiveFrame active ->
     (active ∉ excludedFrames config) /\ 0 <= active < totalFrames config) /\
  (clockDomain config time -> validFrames <> [] ->
     exists active,
       validFrames !! Z.to_nat (ticks mod Z.of_nat (length validFrames))
         = Some active /\
       PreviewPlayer.animate config time = PreviewPlayer.ActiveFrame active) /\
  (clockDomain config time ->
     forall n, insideTick config time n -> ticks = n) /\
  (clockDomain config time ->
     forall n time' k,
       insideTick config time n -> clockDomain config time' -> 0 <= k ->
       insideTick config time' (n + k * Z.of_nat (length validFrames)) ->
       PreviewPlayer.animate config time' = PreviewPlayer.animate config time).
Proof.
  intros validFrames frameInterval ticks.
  split; [apply getValidFrames_filter |].
  split; [apply getValidFrames_sorted |].
  split; [| split; [| split; [| split]]].
  - intros Hnil. unfold PreviewPlayer.animate. fold validFrames.
    rewrite Hnil. reflexivity.
  - intros active Ha. apply animate_valid, elem_of_getValidFrames in Ha. tauto.
  - intros ([Hf _] & Ht & _) Hne. apply animate_active; assumption.
  - intros ([Hf _] & Ht & _) n Hin. now apply ticks_inside.
  - intros ([Hf _] & Ht & _) n time' k Hin ([_ _] & Ht' & _) Hk Hin'.
    unfold PreviewPlayer.animate, PreviewPlayer.stepIndex. fold validFrames.
    destruct (Nat.eqb_spec (length validFrames) 0) as [H0 | Hlen]; [reflexivity |].
    rewrite (ticks_inside config time n Hf Ht Hin).
    rewrite (ticks_inside config time' _ Hf Ht' Hin').
    assert (Hn : 0 <= n).
    { rewrite <- (ticks_inside config time n Hf Ht Hin). now apply ticks_nonneg. }
    rewrite !jsRem_mod by nia.
    rewrite Z.mod_add by lia. reflexivity.
Qed.

Lemma playback_active_frame_witness :
  PreviewPlayer.animate scenarioC 84 = PreviewPlayer.ActiveFrame 2 /\
  Qfloor (jsDiv 84 (jsDiv 1000 (inject_Z (fps scenarioC)))) = 1 /\
  PreviewPlayer.animate scenarioC 334 = PreviewPlayer.animate scenarioC 84.
Proof.
  destruct (playback_active_frame scenarioC 84)
    as (_ & _ & _ & _ & Hact & Hticks & Hperiod).
  assert (Hdomain : forall t, (0 <= t)%Q -> (t <= 1000)%Q -> clockDomain scenarioC t).
  { intros t H0 H1. split; [simpl; lia |]. split; [exact H0 |].
    eapply Qle_trans; [exact H1 |]. unfold Qle. simpl. lia. }
  assert (H84 : clockDomain scenarioC 84)
    by (apply Hdomain; unfold Qle; simpl; lia).
  assert (Hin : insideTick scenarioC 84 1)
    by (split; vm_compute; [discriminate | reflexivity]).
  split; [| split].
  - destruct (Hact H84) as (active & Hl & Ha); [discriminate |].
    vm_compute in Hl. injection Hl as <-. exact Ha.
  - exact (Hticks H84 1 Hin).
  - apply (Hperiod H84 1 334%Q 1 Hin).
    + apply Hdomain; unfold Qle; simpl; lia.
    + lia.
    + split; vm_compute; [discriminate | reflexivity].
Defined.

(** C3 as stated fails at a tick boundary.  With fifteen frames at 30
    frames per second one period lasts 500 ms and floor(500 / (1000/30)) is
    15, so that the claim gives frame 0 at 500 ms as at 0 ms; the program
    divides doubles, 1000/30 is rounded up, 500 divided by it falls below
    15, and frame 14 is shown. *)
Lemma playback_not_periodic_at_boundary :
  (500 == 0 + inject_Z (Z.of_nat (length (getValidFrames thirtyFps))) *
              (1000 / inject_Z (fps thirtyFps)))%Q /\
  getValidFrames thirtyFps
    !! Z.to_nat (Qfloor (500 / (1000 / inject_Z (fps thirtyFps)))
                 mod Z.of_nat (length (getValidFrames thirtyFps))) = Some 0 /\
  PreviewPlayer.animate thirtyFps 0 = PreviewPlayer.ActiveFrame 0 /\
  PreviewPlayer.animate thirtyFps 500 = PreviewPlayer.ActiveFrame 14.
Proof. repeat split; vm_compute; reflexivity. Qed.

(** Scenario C: frame 0 at 0 ms, frame 2 just past one tick, frame 0 again
    after one second (12 ticks, 12 mod 3 = 0). *)
Example scenarioC_ticks :
  map (PreviewPlayer.animate scenarioC) [0; 84; 1000]%Q =
  [PreviewPlayer.ActiveFrame 0; PreviewPlayer.ActiveFrame 2;
   PreviewPlayer.ActiveFrame 0].
Proof. vm_compute. reflexivity. Qed.
(** ** GIF assembly *)

(** The frames a completed [forEach] has added: one per index, in order, each
    the rendering of its index and shown for 1000/fps milliseconds. *)
Lemma forEachFrame_frames `{Canvas2D} (image : Image) (config : SpriteConfig)
    (dimensions : ImageDimensions) (indices : list Z) (canvas : Canvas)
    (frames result : list GifBuilder.GifFrame) :
  GifBuilder.forEachFrame image config dimensions indices canvas frames =
    (result, None) ->
  exists added,
    result = frames ++ added /\
    Forall2 (fun index frame =>
               (exists c, GifBuilder.renderFrame image config dimensions c index =
                          Some (GifBuilder.framePixels frame)) /\
               GifBuilder.delay frame = (1000 / inject_Z (fps config))%Q)
            indices added.
Proof.
  revert canvas frames. induction indices as [| index rest IH]; intros canvas frames.
  - simpl. intros [= <-]. exists []. split; [now rewrite app_nil_r | constructor].
  - simpl.
    destruct (GifBuilder.renderFrame image config dimensions canvas index)
      as [canvas' |] eqn:Hr; [| discriminate].
    intros Hrest. destruct (IH _ _ Hrest) as (added & -> & Hall).
    exists (GifBuilder.mkGifFrame canvas' (1000 / inject_Z (fps config)) :: added).
    split; [now rewrite <- app_assoc |].
    constructor; [| exact Hall]. split; [exists canvas; exact Hr | reflexivity].
Qed.

(** Without a valid frame nothing reaches the encoder and the run is
    rejected. *)
Lemma generateGif_no_valid_frames `{Canvas2D} (workerUrl : option string)
    (ctxAvailable : bool) (image : Image) (config : SpriteConfig)
    (dimensions : ImageDimensions) :
  getValidFrames config = [] ->
  let run := GifBuilder.generateGif workerUrl ctxAvailable image config dimensions in
  GifBuilder.submitted run = [] /\
  GifBuilder.rejected run <> None /\
  (workerUrl <> None -> ctxAvailable = true ->
   GifBuilder.rejected run =
     Some (GifBuilder.ErrorMessage "No valid frames to render")).
Proof.
  intros Hnil. unfold GifBuilder.generateGif. rewrite Hnil.
  destruct workerUrl as [u |]; [| simpl; repeat split; congruence].
  destruct ctxAvailable; simpl; repeat split; congruence.
Qed.

(** C5. When every frame index below totalFrames is excluded, assembly is
    rejected with the no-frames error, hands no frame to the encoder and
    adds no asset (whatever the browser environment, no frame is submitted
    and no asset appears).  Otherwise the non-excluded indices are enumerated
    in ascending order, and a run that is not rejected has submitted exactly
    one frame per such index, in that order. *)
Theorem assemble_all_excluded `{Canvas2D} (env : App.ExportEnv)
    (group : NodeGroup.t) (s : App.State) (image : Image) (workerUrl : string) :
  let config := NodeGroup.config group in
  let dimensions := NodeGroup.dimensions group in
  let run := GifBuilder.generateGif (Some workerUrl) true image config dimensions in
  ((forall i, 0 <= i < totalFrames config -> i ∈ excludedFrames config) ->
     GifBuilder.rejected run =
       Some (GifBuilder.ErrorMessage "No valid frames to render") /\
     GifBuilder.submitted run = [] /\
     fst (App.generateGifAsset env group s) = s /\
     (forall r, snd (App.generateGifAsset env group s) = App.Ran r ->
                GifBuilder.submitted r = [] /\ GifBuilder.rejected r <> None)) /\
  ((exists i, 0 <= i < totalFrames config /\ i ∉ excludedFrames config) ->
     getValidFrames config <> [] /\
     getValidFrames config =
       filter (fun i => i ∉ excludedFrames config) (seqZ 0 (totalFrames config)) /\
     StronglySorted Z.lt (getValidFrames config) /\
     (GifBuilder.rejected run = None ->
      Forall2 (fun index frame =>
                 (exists c, GifBuilder.renderFrame image config dimensions c index =
                            Some (GifBuilder.framePixels frame)) /\
                 GifBuilder.delay frame = (1000 / inject_Z (fps config))%Q)
              (getValidFrames config) (GifBuilder.submitted run))).
Proof.
  intros config dimensions run. split.
  - intros Hall. apply getValidFrames_nil in Hall.
    destruct (generateGif_no_valid_frames (Some workerUrl) true image config
                dimensions Hall) as (Hsub & _ & Hrej).
    split; [apply Hrej; congruence |]. split; [exact Hsub |].
    unfold App.generateGifAsset.
    destruct (NodeGroup.imageUrl group); [| split; [reflexivity | discriminate]].
    destruct (App.decoded env) as [img |]; [| split; [reflexivity | discriminate]].
    destruct (generateGif_no_valid_frames (App.workerUrl env) (App.ctxAvailable env)
                img config dimensions Hall) as (Hsub' & Hrej' & _).
    fold config dimensions.
    destruct (GifBuilder.rejected (GifBuilder.generateGif (App.workerUrl env)
                (App.ctxAvailable env) img config dimensions)) eqn:Hr;
      [| congruence].
    split; [reflexivity |]. simpl. intros r [= <-]. split; [exact Hsub' | congruence].
  - intros (i & Hi & Hx).
    assert (Hne : getValidFrames config <> []).
    { intros Hnil. apply Hx. now apply (proj1 (getValidFrames_nil config)). }
    split; [exact Hne |]. split; [apply getValidFrames_filter |].
    split; [apply getValidFrames_sorted |].
    unfold run, GifBuilder.generateGif. simpl.
    destruct (Nat.eqb_spec (length (getValidFrames config)) 0) as [H0 | _].
    { destruct (getValidFrames config); [congruence | discriminate]. }
    destruct (GifBuilder.forEachFrame image config dimensions (getValidFrames config)
                (setCanvasSize (GifBuilder.frameWidthOf config dimensions)
                               (GifBuilder.frameHeightOf config dimensions)) [])
      as [frames err] eqn:Hfe.
    simpl. intros ->.
    destruct (forEachFrame_frames _ _ _ _ _ _ _ Hfe) as (added & -> & Hall).
    exact Hall.
Qed.

Lemma assemble_all_excluded_witness :
  GifBuilder.rejected
    (@GifBuilder.generateGif opaquePlatform (Some "blob:worker") true whiteImage
       (NodeGroup.config scenarioD) (NodeGroup.dimensions scenarioD)) =
    Some (GifBuilder.ErrorMessage "No valid frames to render") /\
  fst (@App.generateGifAsset opaquePlatform browserEnv scenarioD emptyApp) = emptyApp.
Proof.
  destruct (@assemble_all_excluded opaquePlatform browserEnv scenarioD emptyApp
              whiteImage "blob:worker") as [Hnone _].
  destruct Hnone as (Hrej & _ & Hasset & _).
  - intros i Hi. simpl in Hi.
    assert (Hcases : i = 0 \/ i = 1 \/ i = 2 \/ i = 3) by lia.
    simpl. rewrite !elem_of_cons. lia.
  - split; [exact Hrej | exact Hasset].
Defined.

(** ** Chroma key *)

Lemma get_insert_eq (data : list Z) (i : nat) (v : Z) :
  (i < length data)%nat -> get (<[i := v]> data) i = v.
Proof. intros Hi. unfold get. now rewrite list_lookup_insert_eq. Qed.

Lemma get_insert_ne (data : list Z) (i j : nat) (v : Z) :
  i <> j -> get (<[i := v]> data) j = get data j.
Proof. intros Hij. unfold get. now rewrite list_lookup_insert_ne. Qed.

Lemma length_writeKey (j : nat) (data : list Z) :
  length (writeKey j data) = length data.
Proof. unfold writeKey. now rewrite !length_insert. Qed.

Lemma pixelAt_writeKey_eq (j : nat) (data : list Z) :
  (4 * j + 3 < length data)%nat -> pixelAt (writeKey j data) j = keyPixel.
Proof.
  intros Hj. unfold pixelAt, writeKey, keyPixel. f_equal.
  - rewrite !get_insert_ne by lia. apply get_insert_eq. lia.
  - rewrite !get_insert_ne by lia. apply get_insert_eq.
    rewrite !length_insert. lia.
  - rewrite !get_insert_ne by lia. apply get_insert_eq.
    rewrite !length_insert. lia.
  - apply get_insert_eq. rewrite !length_insert. lia.
Qed.

Lemma pixelAt_writeKey_ne (j k : nat) (data : list Z) :
  k <> j -> pixelAt (writeKey j data) k = pixelAt data k.
Proof.
  intros Hk. unfold pixelAt, writeKey.
  f_equal; rewrite !get_insert_ne by lia; reflexivity.
Qed.

Lemma chromaKeyLoop_step (n j : nat) (rBg gBg bBg : Z) (data : list Z) :
  (4 * j < length data)%nat ->
  GifBuilder.chromaKeyLoop (S n) (4 * j) rBg gBg bBg data =
  GifBuilder.chromaKeyLoop n (4 * S j) rBg gBg bBg
    (if keyed (mkPixel rBg gBg bBg 0) (pixelAt data j)
     then writeKey j data else data).
Proof.
  intros Hj. cbn [GifBuilder.chromaKeyLoop].
  destruct (Nat.ltb_spec (4 * j) (length data)) as [_ | Hge]; [| lia].
  replace (4 * j + 4)%nat with (4 * S j)%nat by lia. reflexivity.
Qed.

(** Loop invariant: when the loop stands at pixel [j] with enough iterations
    left, pixels before [j] keep their value and every later pixel is
    replaced by the key pixel exactly when the test holds for it. *)
Lemma chromaKeyLoop_pixel (n : nat) (rBg gBg bBg : Z) :
  forall (j : nat) (data : list Z) (k : nat),
    (length data <= 4 * j + 4 * n)%nat ->
    (4 * k + 3 < length data)%nat ->
    pixelAt (GifBuilder.chromaKeyLoop n (4 * j) rBg gBg bBg data) k =
    if (k <? j)%nat then pixelAt data k
    else if keyed (mkPixel rBg gBg bBg 0) (pixelAt data k) then keyPixel
         else pixelAt data k.
Proof.
  induction n as [| n IH]; intros j data k Hlen Hk.
  - simpl. destruct (Nat.ltb_spec k j); [reflexivity | lia].
  - destruct (Nat.lt_ge_cases (4 * j) (length data)) as [Hj | Hj].
    + rewrite chromaKeyLoop_step by exact Hj.
      set (data' := if keyed (mkPixel rBg gBg bBg 0) (pixelAt data j)
                    then writeKey j data else data).
      assert (Hlen' : length data' = length data).
      { unfold data'. destruct (keyed _ _); [apply length_writeKey | reflexivity]. }
      rewrite IH by (rewrite Hlen'; lia).
      destruct (Nat.ltb_spec k (S j)) as [HkS | HkS];
        destruct (Nat.ltb_spec k j) as [Hkj | Hkj]; try lia.
      * unfold data'. destruct (keyed _ _); [| reflexivity].
        apply pixelAt_writeKey_ne. lia.
      * assert (k = j) by lia. subst k. unfold data'.
        destruct (keyed _ _); [| reflexivity].
        apply pixelAt_writeKey_eq. lia.
      * assert (Hsame : pixelAt data' k = pixelAt data k).
        { unfold data'. destruct (keyed _ (pixelAt data j)); [| reflexivity].
          apply pixelAt_writeKey_ne. lia. }
        rewrite Hsame. reflexivity.
    + cbn [GifBuilder.chromaKeyLoop].
      destruct (Nat.ltb_spec (4 * j) (length data)) as [Hlt | _]; [lia |].
      destruct (Nat.ltb_spec k j); [reflexivity | lia].
Qed.

Lemma length_chromaKeyLoop (n : nat) (rBg gBg bBg : Z) :
  forall (i : nat) (data : list Z),
    length (GifBuilder.chromaKeyLoop n i rBg gBg bBg data) = length data.
Proof.
  induction n as [| n IH]; intros i data; [reflexivity |].
  cbn [GifBuilder.chromaKeyLoop].
  destruct (i <? length data)%nat; [| reflexivity].
  rewrite IH. destruct (GifBuilder.isBackground _ _ _ _ _ _ _); [| reflexivity].
  now rewrite !length_insert.
Qed.

(** What [applyChromaKey] does to each pixel of the frame data. *)
Lemma chromaKeyData_pixel (data : list Z) (k : nat) :
  (4 * k + 3 < length data)%nat ->
  pixelAt (GifBuilder.chromaKeyData data) k =
  if keyed (pixelAt data 0) (pixelAt data k) then keyPixel else pixelAt data k.
Proof.
  intros Hk. unfold GifBuilder.chromaKeyData.
  pose proof (chromaKeyLoop_pixel (length data) (get data 0) (get data 1)
                (get data 2) 0 data k ltac:(lia) Hk) as Hloop.
  change (4 * 0)%nat with 0%nat in Hloop. rewrite Hloop.
  destruct (Nat.ltb_spec k 0) as [Hlt | _]; [lia |]. reflexivity.
Qed.

Lemma keyed_true (bg p : Pixel) :
  keyed bg p = true <->
  (Z.abs (red p - red bg) < 20 /\
   Z.abs (green p - green bg) < 20 /\
   Z.abs (blue p - blue bg) < 20) \/
  alpha p < 10.
Proof.
  unfold keyed, GifBuilder.isBackground, GifBuilder.tolerance.
  rewrite orb_true_iff, !andb_true_iff, !Z.ltb_lt. tauto.
Qed.

(** *** From the frame data back to the canvas *)

Lemma get_cons_S (a : Z) (data : list Z) (i : nat) :
  get (a :: data) (S i) = get data i.
Proof. reflexivity. Qed.

Lemma pixelAt_bytes_S (p : Pixel) (data : list Z) (k : nat) :
  pixelAt (pixelBytes p ++ data) (S k) = pixelAt data k.
Proof.
  unfold pixelAt, pixelBytes. simpl app.
  replace (4 * S k)%nat with (S (S (S (S (4 * k))))) by lia.
  cbn [Nat.add]. rewrite !get_cons_S. reflexivity.
Qed.

Lemma pixelAt_flat_map (f : Z -> Pixel) (l : list Z) (k : nat) (a : Z) :
  l !! k = Some a ->
  pixelAt (flat_map (fun i => pixelBytes (f i)) l) k = f a.
Proof.
  revert k. induction l as [| b l IH]; intros k Hk; [discriminate |].
  cbn [flat_map]. destruct k as [| k].
  - injection Hk as ->. destruct (f a). reflexivity.
  - rewrite pixelAt_bytes_S. apply IH. exact Hk.
Qed.

Lemma length_flat_map_bytes (f : Z -> Pixel) (l : list Z) :
  length (flat_map (fun i => pixelBytes (f i)) l) = (4 * length l)%nat.
Proof.
  induction l as [| b l IH]; [reflexivity |].
  cbn [flat_map]. rewrite length_app, IH. simpl. lia.
Qed.

Lemma cell_of_position (sw px py : Z) :
  0 <= px < sw -> 0 <= py ->
  (py * sw + px) mod sw = px /\ (py * sw + px) / sw = py.
Proof.
  intros Hx Hy. split.
  - rewrite Z.add_comm, Z.mod_add by lia. apply Z.mod_small. lia.
  - rewrite Z.add_comm, Z.div_add by lia. rewrite Z.div_small by lia. lia.
Qed.

Lemma getImageData_pixel (c : Canvas) (sw sh : Z) (data : list Z) (px py : Z) :
  getImageData c sw sh = Some data ->
  0 <= px < sw -> 0 <= py < sh ->
  length data = (4 * Z.to_nat (sw * sh))%nat /\
  pixelAt data (Z.to_nat (py * sw + px)) = readPixel c px py.
Proof.
  unfold getImageData. intros Hd Hx Hy.
  destruct ((sw <=? 0) || (sh <=? 0)); [discriminate |].
  injection Hd as <-. split.
  - now rewrite length_flat_map_bytes, length_seqZ.
  - assert (Hpos : py * sw + px < sw * sh) by nia.
    rewrite (pixelAt_flat_map (fun k => readPixel c (k mod sw) (k / sw)) _ _
               (py * sw + px)).
    + destruct (cell_of_position sw px py) as [-> ->]; [lia | lia | reflexivity].
    + rewrite lookup_seqZ_lt by (rewrite Z2Nat.id; nia).
      f_equal. rewrite Z2Nat.id by nia. lia.
Qed.

(** [applyChromaKey] on a canvas: inside the keyed rectangle a pixel becomes
    the key pixel exactly when the test holds for it against the canvas's
    top-left pixel, and is otherwise what it was. *)
Lemma applyChromaKey_pixel (c : Canvas) (w h : Q) (px py : Z) :
  0 <= px < truncQ w -> 0 <= py < truncQ h ->
  exists c',
    GifBuilder.applyChromaKey c w h = Some c' /\
    canvasPixel c' px py =
      if keyed (readPixel c 0 0) (readPixel c px py) then keyPixel
      else readPixel c px py.
Proof.
  intros Hx Hy. unfold GifBuilder.applyChromaKey.
  destruct (getImageData c (truncQ w) (truncQ h)) as [data |] eqn:Hd.
  - eexists. split; [reflexivity |].
    destruct (getImageData_pixel c _ _ data px py Hd Hx Hy) as [Hlen Hp].
    destruct (getImageData_pixel c _ _ data 0 0 Hd) as [_ H0]; [lia | lia |].
    change (Z.to_nat (0 * truncQ w + 0)) with 0%nat in H0.
    unfold putImageData. cbn [canvasPixel].
    destruct (Z.leb_spec 0 px); [| lia]. destruct (Z.ltb_spec px (truncQ w)); [| lia].
    destruct (Z.leb_spec 0 py); [| lia]. destruct (Z.ltb_spec py (truncQ h)); [| lia].
    cbn [andb]. rewrite chromaKeyData_pixel by (rewrite Hlen; nia).
    rewrite H0, Hp. reflexivity.
  - unfold getImageData in Hd.
    destruct (Z.leb_spec (truncQ w) 0); [lia |].
    destruct (Z.leb_spec (truncQ h) 0); [lia |]. discriminate.
Qed.

(** C4, as the program has it.  The reference colour is the frame data's
    first pixel, the top-left pixel of the canvas.  A pixel of the data
    becomes the key colour (255, 0, 255) at alpha 255 when each of its three
    colour channels is less than 20 away from the reference or its alpha is
    below 10, and keeps its value otherwise; in particular a pixel with some
    channel more than 20 away from the reference and alpha at least 10 is
    unchanged.  On the canvas, [applyChromaKey] does this to every pixel of
    the frame. *)
Theorem chromaKey_pixelwise (data : list Z) (k : nat) :
  (4 * k + 3 < length data)%nat ->
  let bg := pixelAt data 0 in
  let p := pixelAt data k in
  let p' := pixelAt (GifBuilder.chromaKeyData data) k in
  let matches :=
    (Z.abs (red p - red bg) < 20 /\
     Z.abs (green p - green bg) < 20 /\
     Z.abs (blue p - blue bg) < 20) \/
    alpha p < 10 in
  bg = mkPixel (get data 0) (get data 1) (get data 2) (get data 3) /\
  (matches -> p' = mkPixel 255 0 255 255) /\
  (~ matches -> p' = p) /\
  ((Z.abs (red p - red bg) > 20 \/
    Z.abs (green p - green bg) > 20 \/
    Z.abs (blue p - blue bg) > 20) /\ 10 <= alpha p -> p' = p) /\
  length (GifBuilder.chromaKeyData data) = length data /\
  (forall (c : Canvas) (w h : Q) (px py : Z),
     0 <= px < truncQ w -> 0 <= py < truncQ h ->
     exists c',
       GifBuilder.applyChromaKey c w h = Some c' /\
       canvasPixel c' px py =
         if keyed (readPixel c 0 0) (readPixel c px py) then keyPixel
         else readPixel c px py).
Proof.
  intros Hk bg p p' matches.
  assert (Hp' : p' = if keyed bg p then keyPixel else p)
    by (apply chromaKeyData_pixel; exact Hk).
  assert (Hyes : matches -> p' = mkPixel 255 0 255 255).
  { intros Hm. apply keyed_true in Hm. rewrite Hp', Hm. reflexivity. }
  assert (Hno : ~ matches -> p' = p).
  { intros Hm. rewrite Hp'. destruct (keyed bg p) eqn:Hkeyed; [| reflexivity].
    apply keyed_true in Hkeyed. contradiction. }
  split; [reflexivity |]. split; [exact Hyes |]. split; [exact Hno |].
  split; [| split].
  - intros [Hfar Ha]. apply Hno. unfold matches. lia.
  - unfold GifBuilder.chromaKeyData. apply length_chromaKeyLoop.
  - intros c w h px py Hx Hy. now apply applyChromaKey_pixel.
Qed.

Lemma chromaKey_pixelwise_witness :
  pixelAt (GifBuilder.chromaKeyData [10; 10; 10; 255; 200; 10; 10; 255]) 1 =
  mkPixel 200 10 10 255.
Proof.
  destruct (chromaKey_pixelwise [10; 10; 10; 255; 200; 10; 10; 255] 1)
    as (_ & _ & _ & Hfar & _ & _).
  - simpl. lia.
  - apply Hfar. split; [left |]; vm_compute; [reflexivity | discriminate].
Defined.

(** C4 as stated fails at a distance of exactly 20.  Against the reference
    (10, 10, 10) every channel of the opaque pixel (30, 10, 10) is within 20
    of the reference, and the pixel is not rewritten: the program's test is
    "less than 20". *)
Lemma chromaKey_distance_20_kept :
  Z.abs (red (pixelAt [10; 10; 10; 255; 30; 10; 10; 255] 1)
         - red (pixelAt [10; 10; 10; 255; 30; 10; 10; 255] 0)) <= 20 /\
  Z.abs (green (pixelAt [10; 10; 10; 255; 30; 10; 10; 255] 1)
         - green (pixelAt [10; 10; 10; 255; 30; 10; 10; 255] 0)) <= 20 /\
  Z.abs (blue (pixelAt [10; 10; 10; 255; 30; 10; 10; 255] 1)
         - blue (pixelAt [10; 10; 10; 255; 30; 10; 10; 255] 0)) <= 20 /\
  pixelAt (GifBuilder.chromaKeyData [10; 10; 10; 255; 30; 10; 10; 255]) 1
    = mkPixel 30 10 10 255 /\
  pixelAt (GifBuilder.chromaKeyData [10; 10; 10; 255; 30; 10; 10; 255]) 1
    <> mkPixel 255 0 255 255.
Proof.
  split; [vm_compute; discriminate |].
  split; [vm_compute; discriminate |].
  split; [vm_compute; discriminate |].
  split; [vm_compute; reflexivity | vm_compute; discriminate].
Qed.

(** C10. After chroma keying a non-empty frame, its top-left pixel is the key
    colour (255, 0, 255) at alpha 255, whatever it held: the reference colour
    is that very pixel.  The same holds for the pixel (0,0) of the canvas
    that [applyChromaKey] writes back. *)
Theorem chromaKey_top_left_is_key (data : list Z) (c : Canvas) (w h : Q) :
  (4 <= length data)%nat -> 0 < truncQ w -> 0 < truncQ h ->
  pixelAt (GifBuilder.chromaKeyData data) 0 = mkPixel 255 0 255 255 /\
  exists c', GifBuilder.applyChromaKey c w h = Some c' /\
             canvasPixel c' 0 0 = mkPixel 255 0 255 255.
Proof.
  intros Hlen Hw Hh.
  assert (Hself : forall p, keyed p p = true).
  { intros p. apply keyed_true. left. rewrite !Z.sub_diag. simpl. lia. }
  split.
  - rewrite chromaKeyData_pixel by lia. now rewrite Hself.
  - destruct (applyChromaKey_pixel c w h 0 0) as (c' & Hc' & Hpx); [lia | lia |].
    exists c'. split; [exact Hc' |]. now rewrite Hpx, Hself.
Qed.

Lemma chromaKey_top_left_is_key_witness :
  pixelAt (GifBuilder.chromaKeyData [12; 34; 56; 255; 200; 10; 10; 255]) 0 =
  mkPixel 255 0 255 255.
Proof.
  apply (chromaKey_top_left_is_key [12; 34; 56; 255; 200; 10; 10; 255]
           (setCanvasSize 2 1) 2 1).
  - simpl. lia.
  - reflexivity.
  - reflexivity.
Defined.

(** ** Compositing *)

Lemma inSource_comp (image : Image) (u u' v v' : Q) :
  u == u' -> v == v' -> inSource image u v = inSource image u' v'.
Proof.
  intros Hu Hv. unfold inSource.
  set (W := inject_Z (naturalWidth image)).
  set (Ht := inject_Z (naturalHeight image)).
  rewrite (Qleb_comp 0 0 u u'), (Qltb_comp u u' W W),
          (Qleb_comp 0 0 v v'), (Qltb_comp v v' Ht Ht);
    (reflexivity || assumption).
Qed.

Lemma offImage_comp (image : Image) (u u' v v' du du' dv dv' : Q) :
  u == u' -> v == v' -> du == du' -> dv == dv' ->
  offImage image u v du dv = offImage image u' v' du' dv'.
Proof.
  intros Hu Hv Hdu Hdv. unfold offImage.
  rewrite (Qleb_comp (u + du) (u' + du') 0 0),
          (Qleb_comp (inject_Z (naturalWidth image)) (inject_Z (naturalWidth image))
                     u u'),
          (Qleb_comp (v + dv) (v' + dv') 0 0),
          (Qleb_comp (inject_Z (naturalHeight image))
                     (inject_Z (naturalHeight image)) v v');
    try reflexivity; try assumption.
  - now rewrite Hv, Hdv.
  - now rewrite Hu, Hdu.
Qed.

Lemma inSource_true (image : Image) (u v : Q) :
  inSource image u v = true <->
  (0 <= u)%Q /\ (u < inject_Z (naturalWidth image))%Q /\
  (0 <= v)%Q /\ (v < inject_Z (naturalHeight image))%Q.
Proof.
  unfold inSource. rewrite !andb_true_iff, !Qleb_true, !Qltb_true. tauto.
Qed.

Lemma offImage_true (image : Image) (u v : Q) :
  offImage image u v 1 1 = true <-> showsNothing image u v.
Proof.
  unfold offImage, showsNothing. rewrite !orb_true_iff, !Qleb_true. tauto.
Qed.

(** A unit square whose corner lies in the image has a point in it. *)
Lemma offImage_inSource (image : Image) (u v : Q) :
  inSource image u v = true -> offImage image u v 1 1 = false.
Proof.
  intros Hin. apply inSource_true in Hin as (Hu0 & Hu1 & Hv0 & Hv1).
  apply not_true_iff_false. rewrite offImage_true.
  intros [Ho | [Ho | [Ho | Ho]]]; lra.
Qed.

Lemma lowEnd_forward (r len : Q) : (0 <= len)%Q -> lowEnd r len == r.
Proof. intros Hlen. unfold lowEnd. apply Q.min_l. lra. Qed.

Lemma highEnd_forward (r len : Q) : (0 <= len)%Q -> highEnd r len == r + len.
Proof. intros Hlen. unfold highEnd. apply Q.max_r. lra. Qed.

Lemma samplePoint_unscaled (s len : Q) (p : Z) :
  (0 < len)%Q -> samplePoint s len 0 len p == s + inject_Z p.
Proof.
  intros Hlen. unfold samplePoint.
  rewrite !lowEnd_forward, Qabs_pos by lra. field. lra.
Qed.

(** A pixel column of the truncated size lies wholly below the exact size. *)
Lemma truncQ_column (w : Q) (p : Z) :
  0 <= p < truncQ w -> (0 < w)%Q /\ (inject_Z p + 1 <= w)%Q.
Proof.
  intros Hp. unfold truncQ in Hp.
  destruct (Qleb 0 w) eqn:Hsign.
  - apply Qleb_true in Hsign.
    assert (Hstep : (inject_Z p + 1 <= w)%Q).
    { apply Qle_trans with (inject_Z (Qfloor w)); [| apply Qfloor_le].
      change 1%Q with (inject_Z 1). rewrite <- inject_Z_plus, <- Zle_Qle. lia. }
    split; [| exact Hstep].
    apply Qlt_le_trans with (inject_Z p + 1)%Q; [| exact Hstep].
    change 1%Q with (inject_Z 1). rewrite <- inject_Z_plus.
    change 0%Q with (inject_Z 0). rewrite <- Zlt_Qlt. lia.
  - exfalso. apply not_true_iff_false in Hsign. rewrite Qleb_true in Hsign.
    apply Qnot_le_lt in Hsign.
    assert (Hneg : (0 <= - w)%Q).
    { apply Qlt_le_weak in Hsign. apply Qopp_le_compat in Hsign. exact Hsign. }
    apply Qfloor_resp_le in Hneg. change (Qfloor 0) with 0 in Hneg.
    unfold Qceiling in Hp. lia.
Qed.

Lemma pixel_nonneg (p : Z) : 0 <= p -> (0 <= inject_Z p)%Q.
Proof. intros Hp. change 0%Q with (inject_Z 0). now rewrite <- Zle_Qle. Qed.

(** The pixels of a canvas of the truncated size lie inside the rectangle of
    the exact size, none is cut by its edge. *)
Lemma coveredBy_frame (w h : Q) (px py : Z) :
  0 <= px < truncQ w -> 0 <= py < truncQ h -> coveredBy 0 0 w h px py = true.
Proof.
  intros Hx Hy.
  destruct (truncQ_column w px Hx) as [_ Hcx].
  destruct (truncQ_column h py Hy) as [_ Hcy].
  pose proof (pixel_nonneg px ltac:(lia)). pose proof (pixel_nonneg py ltac:(lia)).
  destruct (truncQ_column w px Hx) as [Hw _].
  destruct (truncQ_column h py Hy) as [Hh _].
  unfold coveredBy.
  rewrite !andb_true_iff, !Qleb_true, !lowEnd_forward, !highEnd_forward,
          !Qplus_0_l by lra.
  repeat split; assumption.
Qed.

Lemma clearOf_frame (w h : Q) (px py : Z) :
  0 <= px < truncQ w -> 0 <= py < truncQ h -> clearOf 0 0 w h px py = false.
Proof.
  intros Hx Hy.
  destruct (truncQ_column w px Hx) as [_ Hcx].
  destruct (truncQ_column h py Hy) as [_ Hcy].
  pose proof (pixel_nonneg px ltac:(lia)). pose proof (pixel_nonneg py ltac:(lia)).
  destruct (truncQ_column w px Hx) as [Hw _].
  destruct (truncQ_column h py Hy) as [Hh _].
  apply not_true_iff_false. unfold clearOf.
  rewrite !orb_true_iff, !Qleb_true, !lowEnd_forward, !highEnd_forward by lra.
  intros [[[Ho | Ho] | Ho] | Ho]; lra.
Qed.

(** Clearing or filling the frame's rectangle reaches every pixel of the
    frame buffer. *)
Lemma paintRect_frame `{Canvas2D} (style : option Pixel) (paint : Pixel)
    (w h : Q) (c : Canvas) (px py : Z) :
  0 <= px < truncQ w -> 0 <= py < truncQ h ->
  canvasPixel (paintRect style paint 0 0 w h c) px py = paint.
Proof.
  intros Hx Hy. unfold paintRect. cbn [canvasPixel].
  now rewrite coveredBy_frame.
Qed.

Lemma isInteger_true (q : Q) (z : Z) : q == inject_Z z -> isInteger q = true.
Proof.
  intros Hq. unfold isInteger. apply Qeq_bool_iff.
  rewrite (Qfloor_comp _ _ Hq), Qfloor_Z. exact Hq.
Qed.

(** What [drawImage] leaves at a pixel of the frame when source and
    destination rectangles have the same size and the destination starts at
    the origin: the pixel shows the unit square of the source plane at
    (sx + px, sy + py). *)
Lemma drawImage_unscaled_pixel `{Canvas2D} (smoothing : bool) (clip : option Rect)
    (image : Image) (sx sy w h : Q) (c : Canvas) (px py : Z) :
  0 <= px < truncQ w -> 0 <= py < truncQ h ->
  canvasPixel (drawImage smoothing clip image sx sy w h 0 0 w h c) px py =
  if clippedAway clip px py ||
     offImage image (sx + inject_Z px) (sy + inject_Z py) 1 1
  then canvasPixel c px py
  else if insideClip clip px py && pixelAligned sx sy w h 0 0 w h &&
          inSource image (sx + inject_Z px) (sy + inject_Z py)
  then sourceOver (imagePixel image (Qfloor (sx + inject_Z px))
                                    (Qfloor (sy + inject_Z py)))
                  (canvasPixel c px py)
  else resampled smoothing clip image (sx, sy, w, h) (0, 0, w, h)%Q px py
                 (canvasPixel c px py).
Proof.
  intros Hx Hy. unfold drawImage. cbn [canvasPixel].
  destruct (truncQ_column w px Hx) as [Hw _].
  destruct (truncQ_column h py Hy) as [Hh _].
  assert (Hw0 : ~ w == 0).
  { intros H0. rewrite H0 in Hw. now apply Qlt_irrefl in Hw. }
  assert (Hh0 : ~ h == 0).
  { intros H0. rewrite H0 in Hh. now apply Qlt_irrefl in Hh. }
  assert (Ew : Qeq_bool w 0 = false)
    by (apply not_true_iff_false; now rewrite Qeq_bool_iff).
  assert (Eh : Qeq_bool h 0 = false)
    by (apply not_true_iff_false; now rewrite Qeq_bool_iff).
  rewrite Ew, Eh, clearOf_frame, coveredBy_frame by assumption.
  cbn [orb andb].
  assert (Hu : samplePoint sx w 0 w px == sx + inject_Z px)
    by now apply samplePoint_unscaled.
  assert (Hv : samplePoint sy h 0 h py == sy + inject_Z py)
    by now apply samplePoint_unscaled.
  assert (Hdu : Qabs w / Qabs w == 1)
    by (rewrite Qabs_pos by lra; field; exact Hw0).
  assert (Hdv : Qabs h / Qabs h == 1)
    by (rewrite Qabs_pos by lra; field; exact Hh0).
  rewrite (offImage_comp image _ _ _ _ _ _ _ _ Hu Hv Hdu Hdv).
  rewrite (inSource_comp image _ _ _ _ Hu Hv).
  rewrite (Qfloor_comp _ _ Hu), (Qfloor_comp _ _ Hv). reflexivity.
Qed.

(** A pixel that shows no point of the image keeps what it held. *)
Lemma drawImage_shows_nothing `{Canvas2D} (smoothing : bool) (clip : option Rect)
    (image : Image) (sx sy w h : Q) (c : Canvas) (px py : Z) :
  0 <= px < truncQ w -> 0 <= py < truncQ h ->
  showsNothing image (sx + inject_Z px) (sy + inject_Z py) ->
  canvasPixel (drawImage smoothing clip image sx sy w h 0 0 w h c) px py =
  canvasPixel c px py.
Proof.
  intros Hx Hy Hout. rewrite drawImage_unscaled_pixel by assumption.
  apply offImage_true in Hout. rewrite Hout, orb_true_r. reflexivity.
Qed.

(** A pixel outside the clipping region keeps what it held. *)
Lemma drawImage_clipped_away `{Canvas2D} (smoothing : bool) (clip : option Rect)
    (image : Image) (sx sy sw sh dx dy dw dh : Q) (c : Canvas) (px py : Z) :
  clippedAway clip px py = true ->
  canvasPixel (drawImage smoothing clip image sx sy sw sh dx dy dw dh c) px py =
  canvasPixel c px py.
Proof.
  intros Hclip. unfold drawImage. cbn [canvasPixel].
  rewrite Hclip, !orb_true_r. reflexivity.
Qed.

(** An unclipped draw whose rectangles have whole-number corners and sizes
    copies the image pixel under each frame pixel. *)
Lemma drawImage_aligned_pixel `{Canvas2D} (smoothing : bool) (image : Image)
    (sx sy w h : Q) (c : Canvas) (px py : Z) :
  0 <= px < truncQ w -> 0 <= py < truncQ h ->
  isInteger sx = true -> isInteger sy = true ->
  isInteger w = true -> isInteger h = true ->
  inSource image (sx + inject_Z px) (sy + inject_Z py) = true ->
  canvasPixel (drawImage smoothing None image sx sy w h 0 0 w h c) px py =
  sourceOver (imagePixel image (Qfloor (sx + inject_Z px))
                               (Qfloor (sy + inject_Z py)))
             (canvasPixel c px py).
Proof.
  intros Hx Hy Hsx Hsy Hw Hh Hin. rewrite drawImage_unscaled_pixel by assumption.
  rewrite (offImage_inSource image _ _ Hin), Hin. unfold pixelAligned.
  rewrite Hsx, Hsy, Hw, Hh.
  assert (Eqw : Qeq_bool w w = true) by (apply Qeq_bool_iff; reflexivity).
  assert (Eqh : Qeq_bool h h = true) by (apply Qeq_bool_iff; reflexivity).
  rewrite Eqw, Eqh. reflexivity.
Qed.

(** Before [drawImage], every pixel of the frame is transparent, or white in
    auto-transparent mode, whatever the canvas held: the frame is its source
    window drawn on a blank frame. *)
Lemma compositeFrame_pixel `{Canvas2D} (image : Image) (config : SpriteConfig)
    (dimensions : ImageDimensions) (canvas : Canvas) (index px py : Z) :
  0 <= px < truncQ (GifBuilder.frameWidthOf config dimensions) ->
  0 <= py < truncQ (GifBuilder.frameHeightOf config dimensions) ->
  canvasPixel (GifBuilder.compositeFrame image config dimensions canvas index) px py =
  compositedPixel image config dimensions index px py.
Proof.
  intros Hx Hy. unfold GifBuilder.compositeFrame, compositedPixel.
  destruct (GifBuilder.sourceXY config dimensions index) as [sourceX sourceY].
  cbn [fst snd]. rewrite !drawImage_unscaled_pixel by assumption.
  assert (Hbg :
    canvasPixel
      (if autoTransparent config
       then fillRect white 0 0 (GifBuilder.frameWidthOf config dimensions)
              (GifBuilder.frameHeightOf config dimensions)
              (clearRect 0 0 (GifBuilder.frameWidthOf config dimensions)
                 (GifBuilder.frameHeightOf config dimensions) canvas)
       else clearRect 0 0 (GifBuilder.frameWidthOf config dimensions)
              (GifBuilder.frameHeightOf config dimensions) canvas) px py =
    canvasPixel (blankFrame config dimensions) px py).
  { unfold blankFrame, backgroundOf, fillRect, clearRect. cbn [canvasPixel].
    destruct (autoTransparent config); now rewrite paintRect_frame. }
  rewrite Hbg. reflexivity.
Qed.

(** Left of the divider the comparison overlay changes nothing: the preview
    is the frame's source window drawn, without smoothing, on a cleared
    canvas. *)
Lemma previewDraw_pixel `{Canvas2D} (image : Image) (config : SpriteConfig)
    (dimensions : ImageDimensions) (overlay : PreviewPlayer.Comparison)
    (index px py : Z) :
  0 <= px < truncQ (GifBuilder.frameWidthOf config dimensions) ->
  0 <= py < truncQ (GifBuilder.frameHeightOf config dimensions) ->
  leftOfDivider config dimensions overlay px ->
  canvasPixel (PreviewPlayer.draw image config dimensions overlay index) px py =
  canvasPixel
    (drawImage false None image
       (fst (PreviewPlayer.sourceXY config dimensions index))
       (snd (PreviewPlayer.sourceXY config dimensions index))
       (GifBuilder.frameWidthOf config dimensions)
       (GifBuilder.frameHeightOf config dimensions) 0 0
       (GifBuilder.frameWidthOf config dimensions)
       (GifBuilder.frameHeightOf config dimensions)
       (setCanvasSize (GifBuilder.frameWidthOf config dimensions)
                      (GifBuilder.frameHeightOf config dimensions))) px py.
Proof.
  intros Hx Hy Hleft. unfold PreviewPlayer.draw.
  fold (GifBuilder.frameWidthOf config dimensions).
  fold (GifBuilder.frameHeightOf config dimensions).
  set (fw := GifBuilder.frameWidthOf config dimensions) in *.
  set (fh := GifBuilder.frameHeightOf config dimensions) in *.
  destruct (PreviewPlayer.sourceXY config dimensions index) as [sourceX sourceY].
  cbn [fst snd].
  assert (Hdrawn :
    canvasPixel
      (drawImage false None image sourceX sourceY fw fh 0 0 fw fh
         (clearRect 0 0 (inject_Z (canvasWidth (setCanvasSize fw fh)))
            (inject_Z (canvasHeight (setCanvasSize fw fh)))
            (setCanvasSize fw fh))) px py =
    canvasPixel
      (drawImage false None image sourceX sourceY fw fh 0 0 fw fh
         (setCanvasSize fw fh)) px py).
  { rewrite !drawImage_unscaled_pixel by assumption.
    assert (Hclear :
      canvasPixel
        (clearRect 0 0 (inject_Z (canvasWidth (setCanvasSize fw fh)))
           (inject_Z (canvasHeight (setCanvasSize fw fh)))
           (setCanvasSize fw fh)) px py = transparentBlack).
    { assert (Hc : coveredBy 0 0 (inject_Z (truncQ fw)) (inject_Z (truncQ fh))
                     px py = true).
      { pose proof (pixel_nonneg px ltac:(lia)).
        pose proof (pixel_nonneg py ltac:(lia)).
        pose proof (pixel_nonneg (truncQ fw) ltac:(lia)).
        pose proof (pixel_nonneg (truncQ fh) ltac:(lia)).
        unfold coveredBy.
        rewrite !andb_true_iff, !Qleb_true, !lowEnd_forward, !highEnd_forward,
                !Qplus_0_l by assumption.
        repeat split; try assumption;
          change 1%Q with (inject_Z 1); rewrite <- inject_Z_plus, <- Zle_Qle; lia. }
      unfold clearRect, paintRect.
      cbn [canvasPixel setCanvasSize canvasWidth canvasHeight].
      now rewrite Hc. }
    rewrite Hclear. reflexivity. }
  destruct overlay as [| sliderPos | compareImg sliderPos]; cbn [leftOfDivider] in Hleft.
  - exact Hdrawn.
  - fold fw in Hleft. rewrite <- Hdrawn.
    unfold fillRect, paintRect. cbn [canvasPixel].
    assert (Hcov : coveredBy (fw * sliderPos / 100 - 1) 0 2 fh px py = false).
    { apply not_true_iff_false. unfold coveredBy.
      rewrite !andb_true_iff, !Qleb_true, (lowEnd_forward _ 2) by lra.
      intros [[[Hc _] _] _]. lra. }
    assert (Hoff : clearOf (fw * sliderPos / 100 - 1) 0 2 fh px py = true).
    { unfold clearOf.
      rewrite !orb_true_iff, !Qleb_true, (lowEnd_forward _ 2) by lra.
      left. left. left. exact Hleft. }
    now rewrite Hcov, Hoff.
  - fold fw in Hleft.
    destruct (PreviewPlayer.origSourceXY config dimensions index)
      as [origSourceX origSourceY].
    rewrite drawImage_clipped_away.
    + rewrite <- Hdrawn. unfold fillRect, paintRect. cbn [canvasPixel].
      assert (Hcov : coveredBy (fw * sliderPos / 100 - 1) 0 2 fh px py = false).
      { apply not_true_iff_false. unfold coveredBy.
        rewrite !andb_true_iff, !Qleb_true, (lowEnd_forward _ 2) by lra.
        intros [[[Hc _] _] _]. lra. }
      assert (Hoff : clearOf (fw * sliderPos / 100 - 1) 0 2 fh px py = true).
      { unfold clearOf.
        rewrite !orb_true_iff, !Qleb_true, (lowEnd_forward _ 2) by lra.
        left. left. left. exact Hleft. }
      now rewrite Hcov, Hoff.
    + destruct (truncQ_column fw px Hx) as [_ Hcolumn].
      cbn [clippedAway]. unfold clearOf. rewrite !orb_true_iff, !Qleb_true.
      left. left. left. unfold lowEnd. apply Q.min_glb; lra.
Qed.

Lemma sourceXY_origin (config : SpriteConfig) (dimensions : ImageDimensions)
    (index : Z) :
  let cell := indexToCell config index in
  let offset := offsetOf config index in
  GifBuilder.sourceXY config dimensions index =
    ((inject_Z (snd cell) * GifBuilder.frameWidthOf config dimensions
      - inject_Z (x offset))%Q,
     (inject_Z (fst cell) * GifBuilder.frameHeightOf config dimensions
      - inject_Z (y offset))%Q) /\
  PreviewPlayer.sourceXY config dimensions index =
    GifBuilder.sourceXY config dimensions index.
Proof.
  unfold GifBuilder.sourceXY, PreviewPlayer.sourceXY.
  destruct (indexToCell config index) as [r c]. split; reflexivity.
Qed.

(** The source origin of a frame on a sheet of whole-pixel cells is a point
    of the pixel grid. *)
Lemma sourceXY_integer (config : SpriteConfig) (dimensions : ImageDimensions)
    (index : Z) :
  1 <= rows config -> 1 <= cols config ->
  width dimensions mod cols config = 0 -> height dimensions mod rows config = 0 ->
  let cell := indexToCell config index in
  let offset := offsetOf config index in
  GifBuilder.frameWidthOf config dimensions
    == inject_Z (width dimensions / cols config) /\
  GifBuilder.frameHeightOf config dimensions
    == inject_Z (height dimensions / rows config) /\
  fst (GifBuilder.sourceXY config dimensions index)
    == inject_Z (snd cell * (width dimensions / cols config) - x offset) /\
  snd (GifBuilder.sourceXY config dimensions index)
    == inject_Z (fst cell * (height dimensions / rows config) - y offset).
Proof.
  intros Hr Hc Hw Hh cell offset.
  assert (Ew : GifBuilder.frameWidthOf config dimensions
               == inject_Z (width dimensions / cols config)).
  { unfold GifBuilder.frameWidthOf. symmetry. now apply quotient_exact. }
  assert (Eh : GifBuilder.frameHeightOf config dimensions
               == inject_Z (height dimensions / rows config)).
  { unfold GifBuilder.frameHeightOf. symmetry. now apply quotient_exact. }
  split; [exact Ew |]. split; [exact Eh |].
  destruct (sourceXY_origin config dimensions index) as [-> _].
  fold cell offset. cbn [fst snd].
  rewrite Ew, Eh. unfold Z.sub.
  rewrite !inject_Z_plus, !inject_Z_mult, !inject_Z_opp. split; reflexivity.
Qed.

(** C2. For a frame with resolved cell (row, col) and stored offset (dx, dy),
    the exporter and the preview both pass to [drawImage] the source window
    whose origin is (col*cellW - dx, row*cellH - dy) and whose size is
    cellW x cellH: every pixel of the frame is what the platform draws of
    that window, over the background (in the preview: left of the divider
    when the comparison overlay is on), so that pixel (px, py) shows the unit
    square of the source at origin + (px, py).  A pixel whose square lies
    outside [0, sourceWidth) x [0, sourceHeight) is the background itself:
    fully transparent, or white in the exporter's auto-transparent mode.  On
    a sheet of whole-pixel cells a pixel whose square lies in the image is
    the image pixel there, drawn over the background. *)
Theorem composite_samples_offset_window `{Canvas2D} (image : Image)
    (config : SpriteConfig) (dimensions : ImageDimensions) (canvas : Canvas)
    (overlay : PreviewPlayer.Comparison) (index px py : Z) :
  let cellW := GifBuilder.frameWidthOf config dimensions in
  let cellH := GifBuilder.frameHeightOf config dimensions in
  let cell := indexToCell config index in
  let offset := offsetOf config index in
  let originX := (inject_Z (snd cell) * cellW - inject_Z (x offset))%Q in
  let originY := (inject_Z (fst cell) * cellH - inject_Z (y offset))%Q in
  let u := (originX + inject_Z px)%Q in
  let v := (originY + inject_Z py)%Q in
  let backgroundPixel :=
    if autoTransparent config then white else transparentBlack in
  let exported :=
    canvasPixel (GifBuilder.compositeFrame image config dimensions canvas index)
                px py in
  let previewed :=
    canvasPixel (PreviewPlayer.draw image config dimensions overlay index) px py in
  0 <= px < truncQ cellW -> 0 <= py < truncQ cellH ->
  GifBuilder.sourceXY config dimensions index = (originX, originY) /\
  PreviewPlayer.sourceXY config dimensions index = (originX, originY) /\
  exported =
    canvasPixel
      (drawImage true None image originX originY cellW cellH 0 0 cellW cellH
         (mkCanvas (truncQ cellW) (truncQ cellH) (fun _ _ => backgroundPixel)))
      px py /\
  (leftOfDivider config dimensions overlay px ->
   previewed =
     canvasPixel
       (drawImage false None image originX originY cellW cellH 0 0 cellW cellH
          (setCanvasSize cellW cellH))
       px py) /\
  (showsNothing image u v ->
   exported = backgroundPixel /\
   (leftOfDivider config dimensions overlay px -> previewed = transparentBlack)) /\
  (1 <= rows config -> 1 <= cols config ->
   width dimensions mod cols config = 0 ->
   height dimensions mod rows config = 0 ->
   (0 <= u)%Q /\ (u < inject_Z (naturalWidth image))%Q /\
   (0 <= v)%Q /\ (v < inject_Z (naturalHeight image))%Q ->
   Qfloor u = snd cell * (width dimensions / cols config) - x offset + px /\
   Qfloor v = fst cell * (height dimensions / rows config) - y offset + py /\
   exported = sourceOver (imagePixel image (Qfloor u) (Qfloor v)) backgroundPixel /\
   (leftOfDivider config dimensions overlay px ->
    previewed = sourceOver (imagePixel image (Qfloor u) (Qfloor v))
                           transparentBlack)).
Proof.
  intros cellW cellH cell offset originX originY u v backgroundPixel
         exported previewed Hx Hy.
  destruct (sourceXY_origin config dimensions index) as [Hgif Hprev].
  fold cell offset cellW cellH originX originY in Hgif.
  pose proof (compositeFrame_pixel image config dimensions canvas index px py
                Hx Hy) as Hexp.
  unfold compositedPixel, blankFrame, backgroundOf in Hexp.
  rewrite Hgif in Hexp. cbn [fst snd] in Hexp.
  fold cellW cellH backgroundPixel exported in Hexp.
  assert (Hpre : leftOfDivider config dimensions overlay px ->
                 previewed =
                   canvasPixel
                     (drawImage false None image originX originY cellW cellH
                        0 0 cellW cellH (setCanvasSize cellW cellH)) px py).
  { intros Hleft.
    pose proof (previewDraw_pixel image config dimensions overlay index px py
                  Hx Hy Hleft) as Hp.
    rewrite Hprev, Hgif in Hp. cbn [fst snd] in Hp. exact Hp. }
  split; [exact Hgif |]. split; [now rewrite Hprev |].
  split; [exact Hexp |]. split; [exact Hpre |]. split.
  - intros Hout. split.
    + rewrite Hexp. now rewrite drawImage_shows_nothing.
    + intros Hleft. rewrite (Hpre Hleft). now rewrite drawImage_shows_nothing.
  - intros Hr Hc Hw Hh Hin.
    destruct (sourceXY_integer config dimensions index Hr Hc Hw Hh)
      as (Ew & Eh & Ex & Ey).
    rewrite Hgif in Ex, Ey. cbn [fst snd] in Ex, Ey. fold cell offset in Ex, Ey.
    fold cellW in Ew. fold cellH in Eh.
    assert (Eu : u == inject_Z (snd cell * (width dimensions / cols config)
                                - x offset + px)).
    { unfold u. rewrite Ex, <- inject_Z_plus. reflexivity. }
    assert (Ev : v == inject_Z (fst cell * (height dimensions / rows config)
                                - y offset + py)).
    { unfold v. rewrite Ey, <- inject_Z_plus. reflexivity. }
    split; [rewrite (Qfloor_comp _ _ Eu); apply Qfloor_Z |].
    split; [rewrite (Qfloor_comp _ _ Ev); apply Qfloor_Z |].
    apply inSource_true in Hin.
    assert (Hdraw : forall smoothing c,
              canvasPixel (drawImage smoothing None image originX originY
                             cellW cellH 0 0 cellW cellH c) px py =
              sourceOver (imagePixel image (Qfloor u) (Qfloor v))
                         (canvasPixel c px py)).
    { intros smoothing c. apply drawImage_aligned_pixel; try assumption.
      - exact (isInteger_true _ _ Ex).
      - exact (isInteger_true _ _ Ey).
      - exact (isInteger_true _ _ Ew).
      - exact (isInteger_true _ _ Eh). }
    split.
    + rewrite Hexp, Hdraw. reflexivity.
    + intros Hleft. rewrite (Hpre Hleft), Hdraw. reflexivity.
Qed.

Lemma composite_samples_offset_window_witness :
  canvasPixel (@GifBuilder.compositeFrame opaquePlatform gradientImage scenarioE
                 (mkDims 16 16) (setCanvasSize 8 8) 0) 2 0 = transparentBlack /\
  canvasPixel (@PreviewPlayer.draw opaquePlatform gradientImage scenarioE
                 (mkDims 16 16) (PreviewPlayer.comparison whiteImage 50) 0) 2 0
    = transparentBlack /\
  canvasPixel (@GifBuilder.compositeFrame smoothingPlatform gradientImage scenarioE
                 (mkDims 16 16) (setCanvasSize 8 8) 0) 6 3 = mkPixel 1 3 0 255.
Proof.
  destruct (@composite_samples_offset_window opaquePlatform gradientImage scenarioE
              (mkDims 16 16) (setCanvasSize 8 8)
              (PreviewPlayer.comparison whiteImage 50) 0 2 0)
    as (_ & _ & _ & _ & Hout & _).
  - change (0 <= 2 < 8). lia.
  - change (0 <= 0 < 8). lia.
  - destruct Hout as [Hexported Hpreviewed]; [left; vm_compute; discriminate |].
    split; [exact Hexported |]. split.
    + apply Hpreviewed. vm_compute. discriminate.
    + destruct (@composite_samples_offset_window smoothingPlatform gradientImage
                  scenarioE (mkDims 16 16) (setCanvasSize 8 8)
                  PreviewPlayer.noComparison 0 6 3)
        as (_ & _ & _ & _ & _ & Hinside).
      * change (0 <= 6 < 8). lia.
      * change (0 <= 3 < 8). lia.
      * destruct Hinside as (_ & _ & Hpixel & _);
          [simpl; lia | simpl; lia | reflexivity | reflexivity | |].
        -- repeat split; vm_compute; (discriminate || reflexivity).
        -- exact Hpixel.
Defined.

(** Scenario E, inside the image: the content appears five pixels to the
    right, column 6 of the frame showing column 1 of the sheet. *)
Example scenarioE_shifted_right :
  canvasPixel (@GifBuilder.compositeFrame opaquePlatform gradientImage scenarioE
                 (mkDims 16 16) (setCanvasSize 8 8) 0) 6 3 = mkPixel 1 3 0 255 /\
  canvasPixel (@GifBuilder.compositeFrame opaquePlatform gradientImage scenarioE
                 (mkDims 16 16) (setCanvasSize 8 8) 0) 4 3 = transparentBlack.
Proof. split; vm_compute; reflexivity. Qed.

(** On a sheet whose cells are not whole pixels the frame is left to the
    platform's resampling.  The 10x10 sheet whose pixels hold 20 times their
    column, in 3x3 cells: the exporter, which leaves image smoothing on,
    gets the blends 67, 87, 107 in the second cell and 133 at the start of
    the third; the preview, which switches smoothing off, shows the image
    pixels under the pixel centres, 60, 80, 100 and 140. *)
Example fractional_cell_is_resampled :
  map (fun px =>
         red (canvasPixel (@GifBuilder.compositeFrame smoothingPlatform rampImage
                             smoothConfig (mkDims 10 10) (setCanvasSize 3 3) 1) px 0))
      [0; 1; 2] = [67; 87; 107] /\
  red (canvasPixel (@GifBuilder.compositeFrame smoothingPlatform rampImage
                      smoothConfig (mkDims 10 10) (setCanvasSize 3 3) 2) 0 0) = 133 /\
  map (fun px =>
         red (canvasPixel (@PreviewPlayer.draw smoothingPlatform rampImage
                             smoothConfig (mkDims 10 10) PreviewPlayer.noComparison 1)
                          px 0))
      [0; 1; 2] = [60; 80; 100] /\
  red (canvasPixel (@PreviewPlayer.draw smoothingPlatform rampImage
                      smoothConfig (mkDims 10 10) PreviewPlayer.noComparison 2) 0 0)
    = 140.
Proof. repeat split; vm_compute; reflexivity. Qed.
(** ** Frame buffer dimensions *)

Lemma renderFrame_size `{Canvas2D} (image : Image) (config : SpriteConfig)
    (dimensions : ImageDimensions) (canvas canvas' : Canvas) (index : Z) :
  GifBuilder.renderFrame image config dimensions canvas index = Some canvas' ->
  canvasWidth canvas' = canvasWidth canvas /\
  canvasHeight canvas' = canvasHeight canvas.
Proof.
  unfold GifBuilder.renderFrame, GifBuilder.compositeFrame,
    GifBuilder.applyChromaKey.
  destruct (GifBuilder.sourceXY config dimensions index) as [sx sy].
  destruct (autoTransparent config).
  - destruct (getImageData _ _ _); [| discriminate].
    intros [= <-]. split; reflexivity.
  - intros [= <-]. split; reflexivity.
Qed.









(** ** Retrying the generative-image service *)

(** A run of [retryOperation] makes [j + 1] attempts for some [j <= retries]:
    the first [j] fail with transient errors and are each followed by a wait,
    the waits doubling from [delay]; the outcome is that of the last attempt,
    which, unless the retries are used up, is a success or a non-transient
    error. *)
Lemma retryOperation_spec {T : Type} (operation : nat -> GeminiService.ApiError + T)
    (retries : nat) :
  forall (delay : Z) (log : GeminiService.RetryLog),
  exists j : nat,
    (j <= retries)%nat /\
    GeminiService.retryOperation operation retries delay log =
      (operation (GeminiService.attempts log + j)%nat,
       GeminiService.mkRetryLog (GeminiService.attempts log + j + 1)
         (GeminiService.sleeps log ++ backoff j delay)) /\
    (forall i, (i < j)%nat ->
       exists e, operation (GeminiService.attempts log + i)%nat = inl e /\
                 GeminiService.isTransient e = true) /\
    ((j < retries)%nat ->
       forall e, operation (GeminiService.attempts log + j)%nat = inl e ->
                 GeminiService.isTransient e = false).
Proof.
  induction retries as [| retries IH]; intros delay log.
  - exists 0%nat. split; [lia |]. split; [| split; [intros; lia | intros; lia]].
    simpl. rewrite !Nat.add_0_r, app_nil_r.
    replace (GeminiService.attempts log + 1)%nat
      with (S (GeminiService.attempts log)) by lia.
    destruct (operation (GeminiService.attempts log)); reflexivity.
  - cbn [GeminiService.retryOperation].
    destruct (operation (GeminiService.attempts log)) as [error | value] eqn:Hop.
    + destruct (GeminiService.isTransient error) eqn:Htr.
      * destruct (IH (delay * 2)
                    (GeminiService.mkRetryLog (S (GeminiService.attempts log))
                       (GeminiService.sleeps log ++ [delay])))
          as (j & Hj & Hrun & Hbefore & Hlast).
        cbn [GeminiService.attempts GeminiService.sleeps] in *.
        exists (S j). split; [lia |]. split; [| split].
        -- rewrite Hrun. simpl backoff. rewrite <- app_assoc. simpl.
           repeat f_equal; lia.
        -- intros i Hi. destruct i as [| i].
           ++ exists error. rewrite Nat.add_0_r. auto.
           ++ destruct (Hbefore i ltac:(lia)) as (e & He & Het).
              exists e. split; [| exact Het]. rewrite <- He. f_equal. lia.
        -- intros Hlt e He. apply (Hlast ltac:(lia) e). rewrite <- He.
           f_equal. lia.
      * exists 0%nat. split; [lia |]. split; [| split; [intros; lia |]].
        -- simpl. rewrite !Nat.add_0_r, app_nil_r, Hop.
           repeat f_equal; lia.
        -- intros _ e He. rewrite Nat.add_0_r, Hop in He. congruence.
    + exists 0%nat. split; [lia |]. split; [| split; [intros; lia |]].
      * simpl. rewrite !Nat.add_0_r, app_nil_r, Hop. repeat f_equal; lia.
      * intros _ e He. rewrite Nat.add_0_r, Hop in He. discriminate.
Qed.

(** C8, as the program has it.  A call that fails with a transient error
    (status or code 503 or 500, or a message containing "overloaded") is
    retried after a wait that starts at 1 second and doubles each time, up to
    3 retries, that is 4 attempts in total with waits of 1, 2 and 4 seconds;
    the first success or non-transient error ends the call at once, and a
    non-transient error on the first attempt propagates without any retry
    or wait. *)
Theorem retry_backoff_three_retries {T : Type}
    (operation : nat -> GeminiService.ApiError + T) :
  let run := GeminiService.retryDefault operation in
  (exists j : nat,
     (j <= 3)%nat /\
     GeminiService.attempts (snd run) = (j + 1)%nat /\
     GeminiService.sleeps (snd run) = firstn j [1000; 2000; 4000] /\
     fst run = operation j /\
     (forall i, (i < j)%nat ->
        exists e, operation i = inl e /\ GeminiService.isTransient e = true) /\
     ((j < 3)%nat ->
        forall e, operation j = inl e -> GeminiService.isTransient e = false)) /\
  (forall e, operation 0%nat = inl e -> GeminiService.isTransient e = false ->
     run = (inl e, GeminiService.mkRetryLog 1 [])) /\
  ((forall i, exists e, operation i = inl e /\ GeminiService.isTransient e = true) ->
     GeminiService.attempts (snd run) = 4%nat /\
     GeminiService.sleeps (snd run) = [1000; 2000; 4000] /\
     fst run = operation 3%nat).
Proof.
  intros run. unfold run, GeminiService.retryDefault.
  destruct (retryOperation_spec operation 3 1000 GeminiService.noLog)
    as (j & Hj & Hrun & Hbefore & Hlast).
  cbn [GeminiService.noLog GeminiService.attempts GeminiService.sleeps] in *.
  assert (Hback : backoff j 1000 = firstn j [1000; 2000; 4000]).
  { destruct j as [| [| [| [| j]]]]; try reflexivity. lia. }
  split; [| split].
  - exists j. rewrite Hrun. cbn [fst snd GeminiService.attempts GeminiService.sleeps].
    rewrite app_nil_l. repeat split; auto.
  - intros e He Hnt. destruct j as [| j].
    + rewrite Hrun. simpl. rewrite He. reflexivity.
    + destruct (Hbefore 0%nat ltac:(lia)) as (e' & He' & Het).
      simpl in He'. congruence.
  - intros Hall. destruct (Nat.eq_dec j 3%nat) as [-> | Hne].
    + rewrite Hrun. repeat split.
    + destruct (Hall j) as (e & He & Het).
      rewrite (Hlast ltac:(lia) e He) in Het. discriminate.
Qed.

Lemma retry_backoff_three_retries_witness :
  GeminiService.retryDefault badRequest =
    (badRequest 0%nat, GeminiService.mkRetryLog 1 []) /\
  GeminiService.sleeps (snd (GeminiService.retryDefault alwaysOverloaded)) =
    [1000; 2000; 4000].
Proof.
  split.
  - destruct (retry_backoff_three_retries badRequest) as (_ & Hfirst & _).
    apply Hfirst; reflexivity.
  - destruct (retry_backoff_three_retries alwaysOverloaded) as (_ & _ & Hall).
    apply Hall. intros i. eexists. split; reflexivity.
Defined.

(** C8 as stated fails: a service that stays overloaded is called four
    times, not three. *)
Lemma overloaded_service_called_four_times :
  GeminiService.attempts (snd (GeminiService.retryDefault alwaysOverloaded)) = 4%nat /\
  ~ (GeminiService.attempts (snd (GeminiService.retryDefault alwaysOverloaded)) <= 3)%nat.
Proof. split; [reflexivity | vm_compute; lia]. Qed.

(** ** Deleting a group *)

(** C9, as the program has it.  Deleting a group removes the group record
    and every canvas node of that group, leaves the other groups and nodes
    alone, and clears the selection when the deleted group was selected; the
    list of exported assets is left exactly as it was. *)
Theorem deleteGroup_keeps_assets (groupId : string) (s : App.State) :
  let s' := App.deleteGroup groupId s in
  App.groups s' !! groupId = None /\
  (forall other, other <> groupId -> App.groups s' !! other = App.groups s !! other) /\
  (forall n, n ∈ App.nodes s' <->
             n ∈ App.nodes s /\ CanvasNodeData.groupId n <> groupId) /\
  (App.selectedGroupId s = Some groupId -> App.selectedGroupId s' = None) /\
  (App.selectedGroupId s <> Some groupId ->
   App.selectedGroupId s' = App.selectedGroupId s) /\
  App.savedAssets s' = App.savedAssets s.
Proof.
  intros s'. unfold s', App.deleteGroup. cbn [App.groups App.nodes
    App.selectedGroupId App.savedAssets].
  split; [apply lookup_delete_eq |].
  split; [intros other Hne; now apply lookup_delete_ne |].
  split; [intros n; rewrite list_elem_of_filter; tauto |].
  split; [| split; [| reflexivity]].
  - intros Hsel. now rewrite decide_True.
  - intros Hsel. now rewrite decide_False.
Qed.

Lemma deleteGroup_keeps_assets_witness :
  App.selectedGroupId (App.deleteGroup (NodeGroup.id spriteGroup) exportedApp) = None /\
  App.savedAssets (App.deleteGroup (NodeGroup.id spriteGroup) exportedApp) =
    App.savedAssets exportedApp.
Proof.
  destruct (deleteGroup_keeps_assets (NodeGroup.id spriteGroup) exportedApp)
    as (_ & _ & _ & Hsel & _ & Hassets).
  split; [apply Hsel; reflexivity | exact Hassets].
Defined.

(** C9 as stated fails: after exporting a group's GIF and deleting the group,
    the group and its nodes are gone but the exported asset, with its blob
    URL, is still in the asset list. *)
Lemma deleted_group_asset_remains :
  App.groups (App.deleteGroup (NodeGroup.id spriteGroup) exportedApp)
    !! NodeGroup.id spriteGroup = None /\
  App.nodes (App.deleteGroup (NodeGroup.id spriteGroup) exportedApp) = [] /\
  map SavedAsset.url
    (App.savedAssets (App.deleteGroup (NodeGroup.id spriteGroup) exportedApp)) =
    ["blob:gif"] /\
  existsb (App.exportedFrom (NodeGroup.id spriteGroup))
    (App.savedAssets (App.deleteGroup (NodeGroup.id spriteGroup) exportedApp)) = true.
Proof.
  split; [apply lookup_delete_eq |].
  split; [vm_compute; reflexivity |].
  split; vm_compute; reflexivity.
Qed.


(** * Further properties of the modelled code *)

(** ** Grid addressing is a bijection *)

Lemma indexToCell_inverse (config : SpriteConfig) (index : Z) :
  1 <= rows config -> 1 <= cols config ->
  0 <= index < rows config * cols config ->
  0 <= fst (indexToCell config index) < rows config /\
  0 <= snd (indexToCell config index) < cols config /\
  index =
    match direction config with
    | Row => fst (indexToCell config index) * cols config
             + snd (indexToCell config index)
    | Column => snd (indexToCell config index) * rows config
                + fst (indexToCell config index)
    end.
Proof.
  intros Hr Hc Hi. unfold indexToCell.
  destruct (direction config); cbn [fst snd];
    rewrite jsFloorDiv_div, jsRem_mod by lia.
  - pose proof (Z.mod_pos_bound index (cols config) ltac:(lia)).
    pose proof (Z.div_mod index (cols config) ltac:(lia)).
    assert (0 <= index / cols config) by (apply Z.div_pos; lia).
    assert (index / cols config < rows config)
      by (apply Z.div_lt_upper_bound; lia).
    repeat split; lia.
  - pose proof (Z.mod_pos_bound index (rows config) ltac:(lia)).
    pose proof (Z.div_mod index (rows config) ltac:(lia)).
    assert (0 <= index / rows config) by (apply Z.div_pos; lia).
    assert (index / rows config < cols config)
      by (apply Z.div_lt_upper_bound; lia).
    repeat split; lia.
Qed.

(** X1. On a grid with rows, cols >= 1 the addressing is a bijection between
    the indices 0 .. rows*cols-1 and the cells of the grid: an index in range
    resolves to a cell inside the grid, two indices in range with the same
    cell are equal, and every cell of the grid is the cell of an index in
    range. *)
Theorem indexToCell_bijection (config : SpriteConfig) :
  1 <= rows config -> 1 <= cols config ->
  (forall index, 0 <= index < rows config * cols config ->
     0 <= fst (indexToCell config index) < rows config /\
     0 <= snd (indexToCell config index) < cols config) /\
  (forall i j, 0 <= i < rows config * cols config ->
     0 <= j < rows config * cols config ->
     indexToCell config i = indexToCell config j -> i = j) /\
  (forall r c, 0 <= r < rows config -> 0 <= c < cols config ->
     exists index, 0 <= index < rows config * cols config /\
                   indexToCell config index = (r, c)).
Proof.
  intros Hr Hc. split; [| split].
  - intros index Hi.
    destruct (indexToCell_inverse config index Hr Hc Hi) as (H1 & H2 & _). tauto.
  - intros i j Hi Hj Heq.
    destruct (indexToCell_inverse config i Hr Hc Hi) as (_ & _ & Ei).
    destruct (indexToCell_inverse config j Hr Hc Hj) as (_ & _ & Ej).
    rewrite Heq in Ei. exact (eq_trans Ei (eq_sym Ej)).
  - intros r c Hrr Hcc. unfold indexToCell.
    destruct (direction config).
    + exists (r * cols config + c). split; [nia |].
      rewrite jsFloorDiv_div, jsRem_mod by nia.
      f_equal.
      * rewrite Z.div_add_l by lia. rewrite Z.div_small by lia. lia.
      * rewrite Z.add_comm, Z.mod_add by lia. apply Z.mod_small. lia.
    + exists (c * rows config + r). split; [nia |].
      rewrite jsFloorDiv_div, jsRem_mod by nia.
      f_equal.
      * rewrite Z.add_comm, Z.mod_add by lia. apply Z.mod_small. lia.
      * rewrite Z.div_add_l by lia. rewrite Z.div_small by lia. lia.
Qed.

Lemma indexToCell_bijection_witness :
  exists index, 0 <= index < 16 /\ indexToCell INITIAL_CONFIG index = (2, 3).
Proof.
  destruct (indexToCell_bijection INITIAL_CONFIG) as (_ & _ & Hsurj).
  - simpl. lia.
  - simpl. lia.
  - apply (Hsurj 2 3); simpl; lia.
Defined.

(** ** Excluding and restoring frames *)

Lemma includes_decide (xs : list Z) (v : Z) :
  includes xs v = bool_decide (v ∈ xs).
Proof.
  destruct (includes xs v) eqn:Hinc.
  - apply includes_true in Hinc. now rewrite bool_decide_eq_true_2.
  - apply includes_false in Hinc. now rewrite bool_decide_eq_false_2.
Qed.

Lemma elem_of_toggled (config : SpriteConfig) (index j : Z) :
  j ∈ excludedFrames (SplitFrameEditor.toggleExclusion config index) <->
  (j <> index /\ j ∈ excludedFrames config) \/
  (j = index /\ index ∉ excludedFrames config).
Proof.
  unfold SplitFrameEditor.toggleExclusion. cbn [excludedFrames withExcludedFrames].
  destruct (includes (excludedFrames config) index) eqn:Hinc.
  - apply includes_true in Hinc. rewrite list_elem_of_filter. tauto.
  - apply includes_false in Hinc. rewrite elem_of_app, list_elem_of_singleton.
    destruct (decide (j = index)) as [-> | Hne]; tauto.
Qed.

(** The valid frames depend on the excluded array only through membership. *)
Lemma getValidFrames_membership (config1 config2 : SpriteConfig) :
  totalFrames config1 = totalFrames config2 ->
  (forall j, j ∈ excludedFrames config1 <-> j ∈ excludedFrames config2) ->
  getValidFrames config1 = getValidFrames config2.
Proof.
  intros Ht Hmem. rewrite !getValidFrames_filter, Ht.
  apply list_filter_iff. intros j. rewrite Hmem. reflexivity.
Qed.

Lemma animate_validFrames (config1 config2 : SpriteConfig) (time : Q) :
  fps config1 = fps config2 ->
  getValidFrames config1 = getValidFrames config2 ->
  PreviewPlayer.animate config1 time = PreviewPlayer.animate config2 time.
Proof.
  intros Hf Hv. unfold PreviewPlayer.animate, PreviewPlayer.stepIndex.
  rewrite Hf, Hv. reflexivity.
Qed.

(** X2. Toggling the exclusion of a frame flips whether that frame is
    excluded and changes it for no other frame; it touches no other field of
    the configuration, keeps an array without duplicates free of duplicates,
    and restoring a frame removes every occurrence of it.  The modal
    editor's toggle is the same operation. *)
Theorem toggleExclusion_flips (config : SpriteConfig) (index : Z) :
  let toggled := SplitFrameEditor.toggleExclusion config index in
  (forall j, includes (excludedFrames toggled) j =
             if j =? index then negb (includes (excludedFrames config) index)
             else includes (excludedFrames config) j) /\
  (NoDup (excludedFrames config) -> NoDup (excludedFrames toggled)) /\
  (index ∈ excludedFrames config ->
     excludedFrames toggled = filter (fun i => i <> index) (excludedFrames config) /\
     index ∉ excludedFrames toggled) /\
  (index ∉ excludedFrames config ->
     excludedFrames toggled = excludedFrames config ++ [index]) /\
  withExcludedFrames toggled (excludedFrames config) = config /\
  FrameEditorModal.toggleFrameExclusion config index = toggled.
Proof.
  intros toggled. split; [| split; [| split; [| split; [| split]]]].
  - intros j. rewrite !includes_decide.
    destruct (Z.eqb_spec j index) as [-> | Hne].
    + destruct (decide (index ∈ excludedFrames config)) as [Hin | Hout].
      * rewrite (bool_decide_eq_true_2 _ Hin). apply bool_decide_eq_false_2.
        unfold toggled. rewrite elem_of_toggled. tauto.
      * rewrite (bool_decide_eq_false_2 _ Hout). apply bool_decide_eq_true_2.
        unfold toggled. rewrite elem_of_toggled. tauto.
    + apply bool_decide_ext. unfold toggled. rewrite elem_of_toggled. tauto.
  - intros Hnd. unfold toggled, SplitFrameEditor.toggleExclusion.
    cbn [excludedFrames withExcludedFrames].
    destruct (includes (excludedFrames config) index) eqn:Hinc.
    + now apply NoDup_filter.
    + apply includes_false in Hinc. apply NoDup_app. split; [exact Hnd |].
      split; [| apply NoDup_singleton].
      intros j Hj Hj'. apply list_elem_of_singleton in Hj'. now subst j.
  - intros Hin. apply includes_true in Hin.
    unfold toggled, SplitFrameEditor.toggleExclusion.
    cbn [excludedFrames withExcludedFrames]. rewrite Hin.
    split; [reflexivity |]. rewrite list_elem_of_filter. tauto.
  - intros Hout. apply includes_false in Hout.
    unfold toggled, SplitFrameEditor.toggleExclusion.
    cbn [excludedFrames withExcludedFrames]. now rewrite Hout.
  - destruct config. reflexivity.
  - reflexivity.
Qed.

Lemma toggleExclusion_flips_witness :
  excludedFrames (SplitFrameEditor.toggleExclusion scenarioC 1) = [] /\
  excludedFrames (SplitFrameEditor.toggleExclusion scenarioC 3) = [1; 3].
Proof.
  split.
  - destruct (toggleExclusion_flips scenarioC 1) as (_ & _ & Hin & _).
    destruct Hin as [-> _]; [| reflexivity].
    simpl. rewrite list_elem_of_singleton. reflexivity.
  - destruct (toggleExclusion_flips scenarioC 3) as (_ & _ & _ & Hout & _).
    apply Hout. simpl. rewrite list_elem_of_singleton. lia.
Defined.

Lemma filter_ne_absent (l : list Z) (index : Z) :
  index ∉ l -> filter (fun i => i <> index) l = l.
Proof.
  induction l as [| a l IH]; intros Hout; [reflexivity |].
  rewrite filter_cons_True by (intros ->; apply Hout; left).
  f_equal. apply IH. intros Hl. apply Hout. now right.
Qed.

(** X3. Toggling the same frame twice restores which frames are excluded,
    hence the list of valid frames and what the preview plays at every time,
    even when the excluded array itself comes back in another order. *)
Theorem toggleExclusion_twice (config : SpriteConfig) (index : Z) :
  let twice :=
    SplitFrameEditor.toggleExclusion
      (SplitFrameEditor.toggleExclusion config index) index in
  (forall j, j ∈ excludedFrames twice <-> j ∈ excludedFrames config) /\
  getValidFrames twice = getValidFrames config /\
  (forall time, PreviewPlayer.animate twice time =
                PreviewPlayer.animate config time) /\
  (index ∉ excludedFrames config -> excludedFrames twice = excludedFrames config).
Proof.
  intros twice.
  assert (Hmem : forall j, j ∈ excludedFrames twice <-> j ∈ excludedFrames config).
  { intros j. unfold twice. rewrite !elem_of_toggled.
    destruct (decide (j = index)) as [-> | Hne];
      destruct (decide (index ∈ excludedFrames config)); tauto. }
  assert (Hvalid : getValidFrames twice = getValidFrames config)
    by (apply getValidFrames_membership; [reflexivity | exact Hmem]).
  split; [exact Hmem |]. split; [exact Hvalid |]. split.
  - intros time. apply animate_validFrames; [reflexivity | exact Hvalid].
  - intros Hout. unfold twice, SplitFrameEditor.toggleExclusion at 1.
    cbn [excludedFrames withExcludedFrames].
    assert (Hnow : index ∈ excludedFrames
                     (SplitFrameEditor.toggleExclusion config index))
      by (rewrite elem_of_toggled; tauto).
    apply includes_true in Hnow. rewrite Hnow.
    unfold SplitFrameEditor.toggleExclusion.
    cbn [excludedFrames withExcludedFrames].
    apply includes_false in Hout. rewrite Hout.
    rewrite filter_app, filter_cons_False, filter_nil, app_nil_r by tauto.
    apply includes_false in Hout. now apply filter_ne_absent.
Qed.

Lemma toggleExclusion_twice_witness :
  excludedFrames
    (SplitFrameEditor.toggleExclusion
       (SplitFrameEditor.toggleExclusion scenarioC 3) 3) = [1].
Proof.
  destruct (toggleExclusion_twice scenarioC 3) as (_ & _ & _ & Hsame).
  apply Hsame. simpl. rewrite list_elem_of_singleton. lia.
Defined.

(** The excluded array after two toggles of an excluded frame: the frame
    moves to the end and its duplicates are gone. *)
Example toggle_twice_reorders :
  excludedFrames
    (SplitFrameEditor.toggleExclusion
       (SplitFrameEditor.toggleExclusion (withExcludedFrames scenarioC [1; 2; 1]) 1)
       1) = [2; 1].
Proof. reflexivity. Qed.

Lemma getValidFrames_NoDup (config : SpriteConfig) : NoDup (getValidFrames config).
Proof.
  rewrite getValidFrames_filter. apply NoDup_filter, NoDup_seqZ.
Qed.

Lemma length_filter_ne (l : list Z) (index : Z) :
  NoDup l -> index ∈ l ->
  (length (filter (fun i => i <> index) l) + 1)%nat = length l.
Proof.
  induction 1 as [| a l Ha Hnd IH]; intros Hin.
  - now apply not_elem_of_nil in Hin.
  - destruct (decide (a = index)) as [-> | Hne].
    + rewrite filter_cons_False by tauto.
      rewrite filter_ne_absent by exact Ha. simpl. lia.
    + rewrite filter_cons_True by exact Hne. simpl.
      apply elem_of_cons in Hin. destruct Hin as [-> | Hin]; [congruence |].
      rewrite <- (IH Hin). lia.
Qed.

Lemma getValidFrames_toggled (config : SpriteConfig) (index : Z) :
  filter (fun i => i <> index)
         (getValidFrames (SplitFrameEditor.toggleExclusion config index)) =
  filter (fun i => i <> index) (getValidFrames config).
Proof.
  rewrite !getValidFrames_filter, !list_filter_filter.
  apply list_filter_iff. intros j.
  change (totalFrames (SplitFrameEditor.toggleExclusion config index))
    with (totalFrames config).
  rewrite elem_of_toggled. tauto.
Qed.

(** X4. Excluding a frame takes exactly that frame out of the list of valid
    frames, and restoring it puts exactly that frame back: for an index below
    totalFrames the list shrinks or grows by one and agrees with the old list
    on all other frames.  Toggling an index outside [0, totalFrames) leaves
    the valid frames as they are. *)
Theorem toggleExclusion_valid_frames (config : SpriteConfig) (index : Z) :
  let toggled := SplitFrameEditor.toggleExclusion config index in
  filter (fun i => i <> index) (getValidFrames toggled) =
    filter (fun i => i <> index) (getValidFrames config) /\
  (index ∉ excludedFrames config -> 0 <= index < totalFrames config ->
     (index ∈ getValidFrames config) /\ (index ∉ getValidFrames toggled) /\
     (length (getValidFrames toggled) + 1)%nat = length (getValidFrames config)) /\
  (index ∈ excludedFrames config -> 0 <= index < totalFrames config ->
     (index ∉ getValidFrames config) /\ (index ∈ getValidFrames toggled) /\
     length (getValidFrames toggled) = (length (getValidFrames config) + 1)%nat) /\
  (~ 0 <= index < totalFrames config ->
     getValidFrames toggled = getValidFrames config).
Proof.
  intros toggled.
  pose proof (getValidFrames_toggled config index) as Hrest. fold toggled in Hrest.
  assert (Hflip : index ∈ excludedFrames toggled <-> index ∉ excludedFrames config).
  { unfold toggled. rewrite elem_of_toggled. tauto. }
  split; [exact Hrest |]. split; [| split].
  - intros Hout Hrange.
    assert (Hin : index ∈ getValidFrames config)
      by (apply elem_of_getValidFrames; tauto).
    assert (Hgone : index ∉ getValidFrames toggled).
    { rewrite elem_of_getValidFrames. tauto. }
    split; [exact Hin |]. split; [exact Hgone |].
    rewrite <- (length_filter_ne _ index (getValidFrames_NoDup config) Hin).
    rewrite <- Hrest, filter_ne_absent by exact Hgone. reflexivity.
  - intros Hin Hrange.
    assert (Hgone : index ∉ getValidFrames config).
    { rewrite elem_of_getValidFrames. tauto. }
    assert (Hback : index ∈ getValidFrames toggled).
    { apply elem_of_getValidFrames. split; [exact Hrange | tauto]. }
    split; [exact Hgone |]. split; [exact Hback |].
    rewrite <- (length_filter_ne _ index (getValidFrames_NoDup toggled) Hback).
    rewrite Hrest, filter_ne_absent by exact Hgone. reflexivity.
  - intros Hrange.
    assert (H1 : index ∉ getValidFrames config).
    { rewrite elem_of_getValidFrames. tauto. }
    assert (H2 : index ∉ getValidFrames toggled).
    { rewrite elem_of_getValidFrames.
      change (totalFrames toggled) with (totalFrames config). tauto. }
    rewrite <- (filter_ne_absent _ index H2), Hrest.
    now apply filter_ne_absent.
Qed.

Lemma toggleExclusion_valid_frames_witness :
  length (getValidFrames (SplitFrameEditor.toggleExclusion scenarioC 1)) =
  (length (getValidFrames scenarioC) + 1)%nat.
Proof.
  destruct (toggleExclusion_valid_frames scenarioC 1) as (_ & _ & Hrestore & _).
  apply Hrestore.
  - simpl. rewrite list_elem_of_singleton. reflexivity.
  - simpl. lia.
Defined.

(** ** Nudges on several frames *)

(** Rendering a frame reads the offsets only through the frame's own offset. *)
Lemma renderFrame_offsetOf `{Canvas2D} (image : Image) (config : SpriteConfig)
    (m1 m2 : gmap Z Offset) (dimensions : ImageDimensions) (canvas : Canvas)
    (index : Z) :
  offsetOf (withFrameOffsets config m1) index =
  offsetOf (withFrameOffsets config m2) index ->
  GifBuilder.renderFrame image (withFrameOffsets config m1) dimensions canvas index =
  GifBuilder.renderFrame image (withFrameOffsets config m2) dimensions canvas index.
Proof.
  intros Ho.
  unfold GifBuilder.renderFrame, GifBuilder.compositeFrame, GifBuilder.sourceXY.
  rewrite Ho. reflexivity.
Qed.

Lemma offsetOf_nudge (config : SpriteConfig) (index dx dy j : Z) :
  offsetOf (SplitFrameEditor.handleNudge config index dx dy) j =
  if decide (j = index)
  then mkOffset (x (offsetOf config index) + dx) (y (offsetOf config index) + dy)
  else offsetOf config j.
Proof.
  unfold SplitFrameEditor.handleNudge. rewrite offsetOf_withFrameOffsets.
  destruct (decide (j = index)) as [-> | Hne].
  - now rewrite lookup_insert_eq.
  - rewrite lookup_insert_ne by congruence. reflexivity.
Qed.

(** X5. A nudge moves only the nudged frame: the offset of every other frame,
    the excluded frames and the grid are unchanged; nudges of two different
    frames can be applied in either order; and a nudge followed by the
    opposite nudge gives the frame its old offset, so that every frame is
    exported as before, although an entry for the frame now exists. *)
Theorem nudge_is_local `{Canvas2D} (config : SpriteConfig)
    (i j dx dy dx' dy' : Z) (image : Image) (dimensions : ImageDimensions)
    (canvas : Canvas) :
  let nudged := SplitFrameEditor.handleNudge config i dx dy in
  let undone := SplitFrameEditor.handleNudge nudged i (- dx) (- dy) in
  (j <> i -> offsetOf nudged j = offsetOf config j) /\
  withFrameOffsets nudged (frameOffsets config) = config /\
  (i <> j ->
     SplitFrameEditor.handleNudge nudged j dx' dy' =
     SplitFrameEditor.handleNudge
       (SplitFrameEditor.handleNudge config j dx' dy') i dx dy) /\
  (forall k, offsetOf undone k = offsetOf config k) /\
  (forall k, GifBuilder.renderFrame image undone dimensions canvas k =
             GifBuilder.renderFrame image config dimensions canvas k) /\
  is_Some (frameOffsets undone !! i).
Proof.
  intros nudged undone.
  assert (Hundo : forall k, offsetOf undone k = offsetOf config k).
  { intros k. unfold undone. rewrite offsetOf_nudge.
    destruct (decide (k = i)) as [-> | Hne].
    - unfold nudged. rewrite offsetOf_nudge, decide_True by reflexivity.
      cbn [x y]. destruct (offsetOf config i) as [x0 y0]. cbn [x y].
      f_equal; lia.
    - unfold nudged. rewrite offsetOf_nudge, decide_False by exact Hne.
      reflexivity. }
  split; [| split; [| split; [| split; [| split]]]].
  - intros Hne. unfold nudged. rewrite offsetOf_nudge.
    now rewrite decide_False.
  - unfold nudged, SplitFrameEditor.handleNudge. destruct config. reflexivity.
  - intros Hne. unfold nudged, SplitFrameEditor.handleNudge.
    rewrite !offsetOf_withFrameOffsets.
    rewrite !lookup_insert_ne by congruence.
    cbn [frameOffsets withFrameOffsets]. unfold offsetOf.
    change (withFrameOffsets (withFrameOffsets config ?m) ?m')
      with (withFrameOffsets config m').
    f_equal. apply insert_insert_ne. congruence.
  - exact Hundo.
  - intros k.
    change undone with (withFrameOffsets config (frameOffsets undone)).
    rewrite <- (withFrameOffsets_same config) at 2.
    apply renderFrame_offsetOf.
    change (withFrameOffsets config (frameOffsets undone)) with undone.
    rewrite withFrameOffsets_same. apply Hundo.
  - unfold undone, SplitFrameEditor.handleNudge. cbn [frameOffsets withFrameOffsets].
    rewrite lookup_insert_eq. eauto.
Qed.

Lemma nudge_is_local_witness :
  SplitFrameEditor.handleNudge (SplitFrameEditor.handleNudge INITIAL_CONFIG 0 5 0) 3 1 1 =
  SplitFrameEditor.handleNudge (SplitFrameEditor.handleNudge INITIAL_CONFIG 3 1 1) 0 5 0.
Proof.
  destruct (@nudge_is_local opaquePlatform INITIAL_CONFIG 0 3 5 0 1 1 whiteImage
              (mkDims 4 4) (setCanvasSize 1 1)) as (_ & _ & Hcomm & _).
  apply Hcomm. lia.
Defined.

(** ** Grid updates and group life cycle *)

(** X6. Changing the grid of a group sets its rows and columns, makes
    totalFrames their product, and keeps the group's image, frame rate,
    direction, offsets and excluded frames; other groups, the selection, the
    nodes and the assets are untouched, and for an unknown group nothing
    changes.  With rows, cols >= 1 every valid frame of the updated group
    resolves to a cell inside the new grid. *)
Theorem handleGridUpdate_total_frames (groupId : string) (newRows newCols : Z)
    (s : App.State) :
  let s' := App.handleGridUpdate groupId newRows newCols s in
  (App.groups s !! groupId = None -> s' = s) /\
  (forall group, App.groups s !! groupId = Some group ->
     exists group',
       App.groups s' !! groupId = Some group' /\
       rows (NodeGroup.config group') = newRows /\
       cols (NodeGroup.config group') = newCols /\
       totalFrames (NodeGroup.config group') = newRows * newCols /\
       withConfigGrid group' group = group /\
       (1 <= newRows -> 1 <= newCols ->
        forall index, index ∈ getValidFrames (NodeGroup.config group') ->
          0 <= fst (indexToCell (NodeGroup.config group') index) < newRows /\
          0 <= snd (indexToCell (NodeGroup.config group') index) < newCols)) /\
  (forall other, other <> groupId ->
     App.groups s' !! other = App.groups s !! other) /\
  App.selectedGroupId s' = App.selectedGroupId s /\
  App.nodes s' = App.nodes s /\
  App.savedAssets s' = App.savedAssets s.
Proof.
  intros s'. unfold s', App.handleGridUpdate.
  destruct (App.groups s !! groupId) as [group |] eqn:Hg.
  - split; [discriminate |]. split; [| split; [| repeat split]].
    + intros g [= <-]. eexists. split.
      * unfold App.updateGroupConfig, App.withGroups. cbn [App.groups].
        apply lookup_insert_eq.
      * split; [reflexivity |]. split; [reflexivity |]. split; [reflexivity |].
        split; [destruct group as [? ? ? ? [] ?]; reflexivity |].
        intros Hr Hc index Hin.
        apply elem_of_getValidFrames in Hin. cbn in Hin.
        match goal with
        | |- context [indexToCell ?c index] =>
            destruct (indexToCell_inverse c index) as (H1 & H2 & _)
        end; cbn; try lia. tauto.
    + intros other Hne. unfold App.updateGroupConfig, App.withGroups.
      cbn [App.groups]. apply lookup_insert_ne. congruence.
  - split; [reflexivity |]. split; [discriminate |]. repeat split.
Qed.

Lemma handleGridUpdate_total_frames_witness :
  exists group',
    App.groups (App.handleGridUpdate (NodeGroup.id spriteGroup) 3 5 loadedApp)
      !! NodeGroup.id spriteGroup = Some group' /\
    totalFrames (NodeGroup.config group') = 15.
Proof.
  destruct (handleGridUpdate_total_frames (NodeGroup.id spriteGroup) 3 5 loadedApp)
    as (_ & Hpresent & _).
  destruct (Hpresent spriteGroup) as (group' & Hl & _ & _ & Ht & _).
  - apply lookup_singleton_eq.
  - exists group'. split; [exact Hl | exact Ht].
Defined.

(** X7. Creating a group stores it under its fresh id with the given image,
    dimensions, configuration and reference, selects it and leaves the other
    groups and the assets alone.  Deleting a group right after creating it
    under an unused id gives back the previous groups, but not the previous
    selection: nothing is selected. *)
Theorem createGroup_then_delete (groupId : string) (now : Z) (imageUrl : string)
    (dimensions : ImageDimensions) (config : SpriteConfig)
    (originalSourceUrl : option string) (s : App.State) :
  let created :=
    App.createGroup groupId now imageUrl dimensions config originalSourceUrl s in
  App.groups created !! groupId =
    Some (NodeGroup.mk groupId (Some imageUrl) originalSourceUrl dimensions
            config now) /\
  App.selectedGroupId created = Some groupId /\
  (forall other, other <> groupId ->
     App.groups created !! other = App.groups s !! other) /\
  App.savedAssets created = App.savedAssets s /\
  (App.groups s !! groupId = None ->
     App.groups (App.deleteGroup groupId created) = App.groups s) /\
  App.selectedGroupId (App.deleteGroup groupId created) = None.
Proof.
  intros created. unfold created, App.createGroup, App.deleteGroup.
  cbn [App.groups App.selectedGroupId App.savedAssets App.nodes].
  split; [apply lookup_insert_eq |]. split; [reflexivity |].
  split; [intros other Hne; apply lookup_insert_ne; congruence |].
  split; [reflexivity |]. split.
  - intros Hfresh. rewrite delete_insert_eq. now apply delete_id.
  - now rewrite decide_True.
Qed.

Lemma createGroup_then_delete_witness :
  App.groups
    (App.deleteGroup "11111111-0000-4000-8000-000000000000"
       (App.createGroup "11111111-0000-4000-8000-000000000000" 5
          "data:image/png;base64,AA" (mkDims 4 4) INITIAL_CONFIG None loadedApp)) =
  App.groups loadedApp.
Proof.
  destruct (createGroup_then_delete "11111111-0000-4000-8000-000000000000" 5
              "data:image/png;base64,AA" (mkDims 4 4) INITIAL_CONFIG None loadedApp)
    as (_ & _ & _ & _ & Hback & _).
  apply Hback. apply lookup_singleton_ne. discriminate.
Defined.

(** ** The editors and the exporter register the sheet alike *)

Lemma quotient_nonzero (a c : Z) :
  0 < a -> 1 <= c -> ~ inject_Z a / inject_Z c == 0.
Proof.
  intros Ha Hc H0.
  assert (Hpos : (0 < inject_Z a / inject_Z c)%Q).
  { apply Qlt_shift_div_l.
    - change 0%Q with (inject_Z 0). rewrite <- Zlt_Qlt. lia.
    - rewrite Qmult_0_l. change 0%Q with (inject_Z 0). rewrite <- Zlt_Qlt. lia. }
  rewrite H0 in Hpos. now apply Qlt_irrefl in Hpos.
Qed.

(** X8. For a sheet of positive size and rows, cols >= 1, both editors place
    the sheet so that the exporter's source origin of the frame lies on the
    top-left corner of the frame's box: the modal editor puts the sheet's
    corner at minus the source origin, in source pixels, and the grid editor
    at the same point expressed in percent of the cell. *)
Theorem editors_register_like_exporter (config : SpriteConfig)
    (dimensions : ImageDimensions) (index : Z) :
  1 <= rows config -> 1 <= cols config ->
  0 < width dimensions -> 0 < height dimensions ->
  let source := GifBuilder.sourceXY config dimensions index in
  let modal := FrameEditorModal.sheetPosition config dimensions index in
  let grid := SplitFrameEditor.imagePlacement config dimensions index in
  fst modal == - fst source /\
  snd modal == - snd source /\
  fst grid * GifBuilder.frameWidthOf config dimensions / 100 == - fst source /\
  snd grid * GifBuilder.frameHeightOf config dimensions / 100 == - snd source.
Proof.
  intros Hr Hc Hw Hh source modal grid.
  pose proof (quotient_nonzero _ _ Hw Hc) as HfW.
  pose proof (quotient_nonzero _ _ Hh Hr) as HfH.
  unfold source, modal, grid, GifBuilder.sourceXY, FrameEditorModal.sheetPosition,
    SplitFrameEditor.imagePlacement, GifBuilder.frameWidthOf,
    GifBuilder.frameHeightOf in *.
  destruct (indexToCell config index) as [r c]. cbn [fst snd].
  set (fw := (inject_Z (width dimensions) / inject_Z (cols config))%Q) in *.
  set (fh := (inject_Z (height dimensions) / inject_Z (rows config))%Q) in *.
  repeat split; try ring; field; assumption.
Qed.

Lemma editors_register_like_exporter_witness :
  fst (FrameEditorModal.sheetPosition scenarioE (mkDims 16 16) 0) ==
  - fst (GifBuilder.sourceXY scenarioE (mkDims 16 16) 0).
Proof.
  apply (editors_register_like_exporter scenarioE (mkDims 16 16) 0);
    simpl; lia.
Defined.

(** ** Rendering of one exported frame *)

Lemma readPixel_inside (c : Canvas) (px py : Z) :
  0 <= px < canvasWidth c -> 0 <= py < canvasHeight c ->
  readPixel c px py = canvasPixel c px py.
Proof.
  intros Hx Hy. unfold readPixel.
  destruct (Z.leb_spec 0 px); [| lia].
  destruct (Z.ltb_spec px (canvasWidth c)); [| lia].
  destruct (Z.leb_spec 0 py); [| lia].
  destruct (Z.ltb_spec py (canvasHeight c)); [| lia].
  reflexivity.
Qed.

Lemma compositeFrame_compositedPixel `{Canvas2D} (image : Image)
    (config : SpriteConfig) (dimensions : ImageDimensions) (canvas : Canvas)
    (index px py : Z) :
  inFrame config dimensions px py ->
  canvasPixel (GifBuilder.compositeFrame image config dimensions canvas index) px py =
  compositedPixel image config dimensions index px py.
Proof.
  intros [Hx Hy]. now apply compositeFrame_pixel.
Qed.

Lemma compositeFrame_size `{Canvas2D} (image : Image) (config : SpriteConfig)
    (dimensions : ImageDimensions) (canvas : Canvas) (index : Z) :
  canvasWidth (GifBuilder.compositeFrame image config dimensions canvas index) =
    canvasWidth canvas /\
  canvasHeight (GifBuilder.compositeFrame image config dimensions canvas index) =
    canvasHeight canvas.
Proof.
  unfold GifBuilder.compositeFrame.
  destruct (GifBuilder.sourceXY config dimensions index) as [sx sy].
  destruct (autoTransparent config); split; reflexivity.
Qed.

(** Rendering on a canvas of the frame's size: the result exists and its
    pixels are given by [renderedPixel], whatever the canvas held before. *)
Lemma renderFrame_renderedPixel `{Canvas2D} (image : Image) (config : SpriteConfig)
    (dimensions : ImageDimensions) (canvas : Canvas) (index px py : Z) :
  canvasWidth canvas = truncQ (GifBuilder.frameWidthOf config dimensions) ->
  canvasHeight canvas = truncQ (GifBuilder.frameHeightOf config dimensions) ->
  inFrame config dimensions px py ->
  exists rendered,
    GifBuilder.renderFrame image config dimensions canvas index = Some rendered /\
    canvasPixel rendered px py = renderedPixel image config dimensions index px py.
Proof.
  intros Hcw Hch Hin. pose proof Hin as [Hx Hy].
  unfold GifBuilder.renderFrame, renderedPixel.
  destruct (autoTransparent config) eqn:Hauto.
  - set (drawn := GifBuilder.compositeFrame image config dimensions canvas index).
    destruct (applyChromaKey_pixel drawn _ _ px py Hx Hy) as (c' & Hc' & Hp).
    exists c'. split; [exact Hc' |]. rewrite Hp.
    destruct (compositeFrame_size image config dimensions canvas index)
      as [Hdw Hdh]. fold drawn in Hdw, Hdh.
    rewrite !readPixel_inside by (rewrite ?Hdw, ?Hdh, ?Hcw, ?Hch; lia).
    unfold drawn. rewrite !compositeFrame_compositedPixel
      by (exact Hin || (split; lia)).
    reflexivity.
  - eexists. split; [reflexivity |].
    now apply compositeFrame_compositedPixel.
Qed.

Lemma forEachFrame_renderedPixel `{Canvas2D} (image : Image) (config : SpriteConfig)
    (dimensions : ImageDimensions) (indices : list Z) :
  forall (canvas : Canvas) (frames result : list GifBuilder.GifFrame),
    canvasWidth canvas = truncQ (GifBuilder.frameWidthOf config dimensions) ->
    canvasHeight canvas = truncQ (GifBuilder.frameHeightOf config dimensions) ->
    GifBuilder.forEachFrame image config dimensions indices canvas frames =
      (result, None) ->
    exists added,
      result = frames ++ added /\
      Forall2 (fun index frame =>
                 forall px py, inFrame config dimensions px py ->
                   canvasPixel (GifBuilder.framePixels frame) px py =
                   renderedPixel image config dimensions index px py)
              indices added.
Proof.
  induction indices as [| index rest IH]; intros canvas frames result Hcw Hch.
  - simpl. intros [= <-]. exists []. split; [now rewrite app_nil_r | constructor].
  - simpl.
    destruct (GifBuilder.renderFrame image config dimensions canvas index)
      as [canvas' |] eqn:Hr; [| discriminate].
    destruct (renderFrame_size _ _ _ _ _ _ Hr) as [Hw' Hh'].
    intros Hrest.
    destruct (IH canvas' _ _ ltac:(congruence) ltac:(congruence) Hrest)
      as (added & -> & Hall).
    exists (GifBuilder.mkGifFrame canvas' (1000 / inject_Z (fps config)) :: added).
    split; [now rewrite <- app_assoc |].
    constructor; [| exact Hall].
    intros px py Hin. cbn [GifBuilder.framePixels].
    destruct (renderFrame_renderedPixel image config dimensions canvas index px py
                Hcw Hch Hin) as (r & Hr' & Hp).
    congruence.
Qed.

(** X9. The exporter reuses one canvas for all frames, yet no frame shows
    anything of the frame drawn before it: in a run that is not rejected, the
    frames handed to the encoder correspond, in order, to the valid frame
    indices, and every pixel of each frame is determined by the image, the
    configuration and the frame's own index alone: it is the pixel of the
    frame's source window drawn by itself on a blank frame (transparent, or
    white in auto-transparent mode), keyed against that frame's own top-left
    pixel in auto-transparent mode.  This holds on every platform, however
    it resamples and blends. *)
Theorem exported_frames_do_not_bleed `{Canvas2D} (workerUrl : option string)
    (ctxAvailable : bool) (image : Image) (config : SpriteConfig)
    (dimensions : ImageDimensions) :
  let run := GifBuilder.generateGif workerUrl ctxAvailable image config dimensions in
  GifBuilder.rejected run = None ->
  Forall2 (fun index frame =>
             forall px py, inFrame config dimensions px py ->
               canvasPixel (GifBuilder.framePixels frame) px py =
               renderedPixel image config dimensions index px py)
          (getValidFrames config) (GifBuilder.submitted run).
Proof.
  intros run. unfold run, GifBuilder.generateGif.
  destruct workerUrl; [| discriminate].
  destruct ctxAvailable; [| discriminate]. simpl.
  destruct (length (getValidFrames config) =? 0)%nat; [discriminate |].
  destruct (GifBuilder.forEachFrame _ _ _ _ _ _) as [frames err] eqn:Hfe.
  simpl. intros ->.
  apply forEachFrame_renderedPixel in Hfe; [| reflexivity | reflexivity].
  destruct Hfe as (added & -> & Hall). exact Hall.
Qed.

Lemma exported_frames_do_not_bleed_witness :
  Forall2 (fun index frame =>
             forall px py, inFrame (NodeGroup.config spriteGroup) (mkDims 4 4) px py ->
               canvasPixel (GifBuilder.framePixels frame) px py =
               @renderedPixel opaquePlatform whiteImage
                 (NodeGroup.config spriteGroup) (mkDims 4 4) index px py)
          (getValidFrames (NodeGroup.config spriteGroup))
          (GifBuilder.submitted
             (@GifBuilder.generateGif opaquePlatform (Some "blob:worker") true
                whiteImage (NodeGroup.config spriteGroup) (mkDims 4 4))).
Proof.
  apply (@exported_frames_do_not_bleed opaquePlatform (Some "blob:worker") true
           whiteImage (NodeGroup.config spriteGroup) (mkDims 4 4)).
  vm_compute. reflexivity.
Defined.

(** X10. After chroma keying, every pixel of the frame data is either the key
    pixel or exactly what it was, and no pixel with alpha below 10 is left:
    a pixel that keeps its value has alpha at least 10 and some colour
    channel at least 20 away from the reference colour. *)
Theorem chromaKey_output_pixels (data : list Z) (k : nat) :
  (4 * k + 3 < length data)%nat ->
  let bg := pixelAt data 0 in
  let p := pixelAt data k in
  let p' := pixelAt (GifBuilder.chromaKeyData data) k in
  (p' = mkPixel 255 0 255 255 \/
   (p' = p /\ 10 <= alpha p /\
    (20 <= Z.abs (red p - red bg) \/ 20 <= Z.abs (green p - green bg) \/
     20 <= Z.abs (blue p - blue bg)))) /\
  10 <= alpha p'.
Proof.
  intros Hk bg p p'.
  assert (Hp' : p' = if keyed bg p then keyPixel else p)
    by (apply chromaKeyData_pixel; exact Hk).
  destruct (keyed bg p) eqn:Hkeyed.
  - rewrite Hp'. split; [left; reflexivity | simpl; lia].
  - assert (Hno : ~ ((Z.abs (red p - red bg) < 20 /\
                      Z.abs (green p - green bg) < 20 /\
                      Z.abs (blue p - blue bg) < 20) \/ alpha p < 10)).
    { rewrite <- keyed_true. congruence. }
    rewrite Hp'. split; [right; split; [reflexivity |] |]; lia.
Qed.

Lemma chromaKey_output_pixels_witness :
  10 <= alpha (pixelAt (GifBuilder.chromaKeyData [10; 10; 10; 255; 200; 10; 10; 3]) 1).
Proof.
  apply (chromaKey_output_pixels [10; 10; 10; 255; 200; 10; 10; 3] 1).
  simpl. lia.
Defined.

(** X11. In auto-transparent mode the part of a frame shifted out of the
    image (every pixel whose unit square of the source plane has no point in
    the image) is filled with white before keying, on every platform.  So in
    the frame handed to the encoder such a pixel is the key colour exactly
    when the frame's own top-left pixel is within the tolerance of white,
    and stays opaque white otherwise.  In particular it is the key colour
    whenever the top-left pixel of the frame is itself shifted out of the
    image. *)
Theorem shifted_gap_keyed `{Canvas2D} (workerUrl : option string)
    (ctxAvailable : bool) (image : Image) (config : SpriteConfig)
    (dimensions : ImageDimensions) :
  let run := GifBuilder.generateGif workerUrl ctxAvailable image config dimensions in
  autoTransparent config = true ->
  GifBuilder.rejected run = None ->
  Forall2 (fun index frame =>
             let origin := GifBuilder.sourceXY config dimensions index in
             let outside px py :=
               showsNothing image (fst origin + inject_Z px)
                                  (snd origin + inject_Z py) in
             forall px py, inFrame config dimensions px py -> outside px py ->
               canvasPixel (GifBuilder.framePixels frame) px py =
                 (if keyed (compositedPixel image config dimensions index 0 0) white
                  then keyPixel else white) /\
               (outside 0 0 ->
                canvasPixel (GifBuilder.framePixels frame) px py = keyPixel))
          (getValidFrames config) (GifBuilder.submitted run).
Proof.
  intros run Hauto. unfold run, GifBuilder.generateGif.
  destruct workerUrl; [| discriminate].
  destruct ctxAvailable; [| discriminate]. simpl.
  destruct (length (getValidFrames config) =? 0)%nat; [discriminate |].
  destruct (GifBuilder.forEachFrame _ _ _ _ _ _) as [frames err] eqn:Hfe.
  simpl. intros ->.
  apply forEachFrame_renderedPixel in Hfe; [| reflexivity | reflexivity].
  destruct Hfe as (added & -> & Hall). simpl.
  eapply Forall2_impl; [exact Hall |].
  intros index frame Hpix px py Hin Hout. cbv zeta in Hout.
  assert (Hgap : forall qx qy, inFrame config dimensions qx qy ->
            showsNothing image
              (fst (GifBuilder.sourceXY config dimensions index) + inject_Z qx)
              (snd (GifBuilder.sourceXY config dimensions index) + inject_Z qy) ->
            compositedPixel image config dimensions index qx qy = white).
  { intros qx qy [Hqx Hqy] Hq. unfold compositedPixel.
    rewrite drawImage_shows_nothing by assumption.
    unfold blankFrame, backgroundOf. cbn [canvasPixel]. rewrite Hauto.
    reflexivity. }
  rewrite (Hpix px py Hin). unfold renderedPixel. rewrite Hauto.
  rewrite (Hgap px py Hin Hout). split; [reflexivity |].
  intros Hout0.
  assert (Hin0 : inFrame config dimensions 0 0) by (destruct Hin; split; lia).
  rewrite (Hgap 0 0 Hin0 Hout0). reflexivity.
Qed.

Lemma shifted_gap_keyed_witness :
  Forall2 (fun index frame =>
             let origin := GifBuilder.sourceXY shiftedAuto (mkDims 16 16) index in
             let outside px py :=
               showsNothing gradientImage (fst origin + inject_Z px)
                            (snd origin + inject_Z py) in
             forall px py, inFrame shiftedAuto (mkDims 16 16) px py -> outside px py ->
               canvasPixel (GifBuilder.framePixels frame) px py =
                 (if keyed (@compositedPixel opaquePlatform gradientImage shiftedAuto
                              (mkDims 16 16) index 0 0) white
                  then keyPixel else white) /\
               (outside 0 0 ->
                canvasPixel (GifBuilder.framePixels frame) px py = keyPixel))
          (getValidFrames shiftedAuto)
          (GifBuilder.submitted
             (@GifBuilder.generateGif opaquePlatform (Some "blob:worker") true
                gradientImage shiftedAuto (mkDims 16 16))).
Proof.
  apply (@shifted_gap_keyed opaquePlatform (Some "blob:worker") true gradientImage
           shiftedAuto (mkDims 16 16)).
  - reflexivity.
  - vm_compute. reflexivity.
Defined.

(** The two cases on the shifted sheet: frame 0 starts outside the image and
    its gap is keyed; frame 1 starts on a dark pixel and a gap would stay
    white. *)
Example shifted_gap_cases :
  keyed (@compositedPixel opaquePlatform gradientImage shiftedAuto (mkDims 16 16) 0 0 0)
        white = true /\
  keyed (@compositedPixel opaquePlatform gradientImage shiftedAuto (mkDims 16 16) 1 0 0)
        white = false.
Proof. split; vm_compute; reflexivity. Qed.

(** ** Retries: the general schedule *)




(** ** Stitching a GIF into a sheet *)

Lemma jsCeilDiv_bounds (a b : Z) :
  0 < b -> (jsCeilDiv a b - 1) * b < a <= jsCeilDiv a b * b.
Proof.
  intros Hb. unfold jsCeilDiv, Qceiling.
  assert (Hq : Qfloor (- (inject_Z a / inject_Z b)) = (- a) / b).
  { rewrite Zdiv_Qdiv. apply Qfloor_comp. rewrite inject_Z_opp.
    field. change 0%Q with (inject_Z 0). rewrite inject_Z_injective. lia. }
  rewrite Hq.
  pose proof (Z.div_mod (- a) b ltac:(lia)).
  pose proof (Z.mod_pos_bound (- a) b Hb). nia.
Qed.

Lemma jsCeilSqrt_bounds (n : Z) :
  1 <= n -> 1 <= jsCeilSqrt n /\
            (jsCeilSqrt n - 1) * (jsCeilSqrt n - 1) < n <= jsCeilSqrt n * jsCeilSqrt n.
Proof.
  intros Hn. unfold jsCeilSqrt.
  pose proof (Z.sqrt_up_spec n ltac:(lia)) as Hs.
  assert (Hpos : 0 < Z.sqrt_up n) by (apply Z.sqrt_up_pos; lia).
  replace (Z.sqrt_up n - 1) with (Z.pred (Z.sqrt_up n)) by lia.
  split; [lia | exact Hs].
Qed.

Lemma jsRoundDiv_div (a b : Z) : 0 < b -> jsRoundDiv a b = (2 * a + b) / (2 * b).
Proof.
  intros Hb. unfold jsRoundDiv. rewrite Zdiv_Qdiv. apply Qfloor_comp.
  rewrite inject_Z_plus, !inject_Z_mult.
  assert (Hb0 : ~ inject_Z b == 0).
  { change 0%Q with (inject_Z 0). rewrite inject_Z_injective. lia. }
  field. exact Hb0.
Qed.


(** X13. The grid chosen for a GIF of n >= 1 frames holds all of them and
    wastes no row: cols = ceil(sqrt n) and rows = ceil(n / cols) satisfy
    n <= rows*cols, (rows - 1)*cols < n and cols - 1 <= rows <= cols; the
    configuration records totalFrames = n and the row direction, and one
    placement is made per frame.  A GIF that reports no frame count, or 0, is
    treated as one frame: totalFrames = 1 on a 1x1 grid. *)
Theorem stitched_grid_fits (reportedCount : option Z) (frameW frameH : Z)
    (duration : option Z) :
  (forall n, reportedCount = Some n -> 0 <= n) ->
  let sheet := App.processGifToSpriteSheet reportedCount frameW frameH duration in
  let config := App.configToUse sheet in
  1 <= totalFrames config /\
  (forall n, reportedCount = Some n -> 1 <= n -> totalFrames config = n) /\
  (reportedCount = None \/ reportedCount = Some 0 ->
   totalFrames config = 1 /\ rows config = 1 /\ cols config = 1) /\
  1 <= rows config <= cols config /\ cols config - 1 <= rows config /\
  (rows config - 1) * cols config < totalFrames config <= rows config * cols config /\
  direction config = Row /\
  Z.of_nat (length (App.placements sheet)) = totalFrames config /\
  width (App.sheetDimensions sheet) = cols config * frameW /\
  height (App.sheetDimensions sheet) = rows config * frameH.
Proof.
  intros Hcount sheet config. unfold config, sheet, App.processGifToSpriteSheet.
  cbn [App.configToUse App.placements App.sheetDimensions totalFrames rows cols
       direction width height].
  set (n := match reportedCount with
            | Some n => if n =? 0 then 1 else n
            | None => 1
            end).
  assert (Hn : 1 <= n).
  { unfold n. destruct reportedCount as [m |]; [| lia].
    specialize (Hcount m eq_refl). destruct (Z.eqb_spec m 0); lia. }
  destruct (jsCeilSqrt_bounds n Hn) as (Hc1 & Hc2).
  pose proof (jsCeilDiv_bounds n (jsCeilSqrt n) ltac:(lia)) as Hr.
  set (c := jsCeilSqrt n) in *. set (r := jsCeilDiv n c) in *.
  split; [exact Hn |]. split.
  { intros m -> Hm. unfold n. destruct (Z.eqb_spec m 0); lia. }
  split.
  { intros [-> | ->]; vm_compute; repeat split; reflexivity. }
  split; [nia |]. split; [nia |]. split; [lia |]. split; [reflexivity |].
  split; [| split; reflexivity].
  cbn [length]. rewrite length_map, length_seqZ. lia.
Qed.

Lemma stitched_grid_fits_witness :
  totalFrames (App.configToUse (App.processGifToSpriteSheet (Some 10) 32 32 (Some 83333)))
  <= rows (App.configToUse (App.processGifToSpriteSheet (Some 10) 32 32 (Some 83333)))
     * cols (App.configToUse (App.processGifToSpriteSheet (Some 10) 32 32 (Some 83333))).
Proof.
  destruct (stitched_grid_fits (Some 10) 32 32 (Some 83333))
    as (_ & _ & _ & _ & _ & Hfit & _).
  - intros n [= <-]. lia.
  - apply Hfit.
Defined.

(** Ten frames go on a 4-column, 3-row sheet. *)
Example stitched_ten_frames :
  let config := App.configToUse (App.processGifToSpriteSheet (Some 10) 32 32 (Some 83333)) in
  (rows config, cols config, totalFrames config, fps config) = (3, 4, 10, 12).
Proof. reflexivity. Qed.

(** A GIF without a frame count is a sheet of one frame. *)
Example stitched_no_count :
  let config := App.configToUse (App.processGifToSpriteSheet None 32 32 None) in
  (rows config, cols config, totalFrames config, fps config) = (1, 1, 1, 12).
Proof. reflexivity. Qed.





(** Frame 6 of the ten-frame sheet was placed at (64, 32).  With a generated
    image of the sheet's size the overlay reads it there; with one of twice
    the size it reads the original from (128, 64), outside frame 6. *)
Example stitched_overlay_origin :
  let sheet := App.processGifToSpriteSheet (Some 10) 32 32 (Some 83333) in
  App.sheetDimensions sheet = mkDims 128 96 /\
  App.placements sheet !! 6%nat = Some (64, 32) /\
  fst (PreviewPlayer.origSourceXY (App.configToUse sheet) (mkDims 128 96) 6) == 64 /\
  snd (PreviewPlayer.origSourceXY (App.configToUse sheet) (mkDims 128 96) 6) == 32 /\
  fst (PreviewPlayer.origSourceXY (App.configToUse sheet) (mkDims 256 192) 6) == 128 /\
  snd (PreviewPlayer.origSourceXY (App.configToUse sheet) (mkDims 256 192) 6) == 64.
Proof. repeat split; vm_compute; reflexivity. Qed.

(** X15. The frame rate taken from a GIF is 12 when the first frame has no
    duration (or duration 0); otherwise it is 1000000 / duration rounded to
    the nearest integer (halves up), which is at least 1 exactly when the
    first frame lasts at most two seconds and is 0 for a longer first
    frame. *)
Theorem stitched_frame_rate (reportedCount : option Z) (frameW frameH : Z)
    (duration : option Z) :
  let rate :=
    fps (App.configToUse
           (App.processGifToSpriteSheet reportedCount frameW frameH duration)) in
  (duration = None \/ duration = Some 0 -> rate = 12) /\
  (forall d, duration = Some d -> 0 < d ->
     2 * rate * d <= 2 * 1000000 + d < 2 * (rate + 1) * d /\
     (1 <= rate <-> d <= 2000000) /\
     (rate = 0 <-> 2000000 < d)).
Proof.
  intros rate. unfold rate, App.processGifToSpriteSheet.
  cbn [App.configToUse fps]. split.
  - intros [-> | ->]; reflexivity.
  - intros d -> Hd. destruct (Z.eqb_spec d 0) as [-> | _]; [lia |].
    rewrite jsRoundDiv_div by lia.
    pose proof (Z.div_mod (2 * 1000000 + d) (2 * d) ltac:(lia)) as Hdm.
    pose proof (Z.mod_pos_bound (2 * 1000000 + d) (2 * d) ltac:(lia)) as Hmb.
    set (q := (2 * 1000000 + d) / (2 * d)) in *.
    assert (Hq : 0 <= q) by (apply Z.div_pos; lia).
    split; [nia |]. split; split; intros; nia.
Qed.

Lemma stitched_frame_rate_witness :
  fps (App.configToUse (App.processGifToSpriteSheet (Some 10) 32 32 (Some 2500000))) = 0.
Proof.
  destruct (stitched_frame_rate (Some 10) 32 32 (Some 2500000)) as (_ & Hrate).
  destruct (Hrate 2500000 eq_refl ltac:(lia)) as (_ & _ & Hzero).
  apply Hzero. lia.
Defined.

(** ** Choosing the aspect ratio *)

Lemma closestLoop_nearest (ratio : Q) (rest : list GeminiService.AspectOption) :
  forall (closest : GeminiService.AspectOption) (minDiff : Q)
         (seen : list GeminiService.AspectOption),
    minDiff == Qabs (ratio - GeminiService.value closest) ->
    closest ∈ seen ->
    (forall o, o ∈ seen -> (minDiff <= Qabs (ratio - GeminiService.value o))%Q) ->
    let chosen := GeminiService.closestLoop ratio rest closest minDiff in
    chosen ∈ seen ++ rest /\
    forall o, o ∈ seen ++ rest ->
      (Qabs (ratio - GeminiService.value chosen)
       <= Qabs (ratio - GeminiService.value o))%Q.
Proof.
  induction rest as [| option rest IH]; intros closest minDiff seen Hmin Hin Hall.
  - simpl. rewrite app_nil_r. split; [exact Hin |].
    intros o Ho. rewrite <- Hmin. now apply Hall.
  - cbn [GeminiService.closestLoop].
    replace (seen ++ option :: rest) with ((seen ++ [option]) ++ rest)
      by (now rewrite <- app_assoc).
    destruct (Qltb (Qabs (ratio - GeminiService.value option)) minDiff) eqn:Hlt.
    + apply Qltb_true in Hlt. apply IH.
      * reflexivity.
      * apply elem_of_app. right. apply list_elem_of_singleton. reflexivity.
      * intros o Ho. apply elem_of_app in Ho. destruct Ho as [Ho | Ho].
        -- apply Qle_trans with minDiff; [now apply Qlt_le_weak | now apply Hall].
        -- apply list_elem_of_singleton in Ho. subst o. apply Qle_refl.
    + apply not_true_iff_false in Hlt. rewrite Qltb_true in Hlt.
      apply Qnot_lt_le in Hlt. apply IH.
      * exact Hmin.
      * apply elem_of_app. now left.
      * intros o Ho. apply elem_of_app in Ho. destruct Ho as [Ho | Ho].
        -- now apply Hall.
        -- apply list_elem_of_singleton in Ho. subst o. exact Hlt.
Qed.

Lemma closestLoop_comp (r1 r2 : Q) (rest : list GeminiService.AspectOption) :
  r1 == r2 ->
  forall (closest : GeminiService.AspectOption) (m1 m2 : Q),
    m1 == m2 ->
    GeminiService.closestLoop r1 rest closest m1 =
    GeminiService.closestLoop r2 rest closest m2.
Proof.
  intros Hr. induction rest as [| option rest IH]; intros closest m1 m2 Hm.
  - reflexivity.
  - cbn [GeminiService.closestLoop].
    assert (Hd : Qabs (r1 - GeminiService.value option) ==
                 Qabs (r2 - GeminiService.value option)) by now rewrite Hr.
    rewrite (Qltb_comp _ _ _ _ Hd Hm).
    destruct (Qltb _ m2); apply IH; assumption.
Qed.

Lemma aspect_of_exact_ratio (w h a b : Z) :
  0 < h -> 0 < b -> w * b = h * a ->
  GeminiService.determineAspectRatio (Some (w, h)) =
  GeminiService.determineAspectRatio (Some (a, b)).
Proof.
  intros Hh Hb Heq. unfold GeminiService.determineAspectRatio.
  cbn [GeminiService.supported].
  assert (Hr : inject_Z w / inject_Z h == inject_Z a / inject_Z b).
  { assert (Hm : inject_Z w * inject_Z b == inject_Z h * inject_Z a)
      by (rewrite <- !inject_Z_mult, Heq; reflexivity).
    assert (Hh0 : ~ inject_Z h == 0).
    { change 0%Q with (inject_Z 0). rewrite inject_Z_injective. lia. }
    assert (Hb0 : ~ inject_Z b == 0).
    { change 0%Q with (inject_Z 0). rewrite inject_Z_injective. lia. }
    transitivity ((inject_Z w * inject_Z b) / (inject_Z h * inject_Z b))%Q;
      [field; split; assumption |].
    rewrite Hm. field. split; assumption. }
  f_equal. apply closestLoop_comp; [exact Hr |]. now rewrite Hr.
Qed.

(** X16. For an image that loads with positive height, the aspect ratio sent
    to the image service is one of the five supported labels and none of the
    five is nearer to the image's width/height ratio.  An image whose ratio
    is exactly 1:1, 3:4, 4:3, 9:16 or 16:9 gets that very label, and an image
    that fails to load gets "1:1". *)
Theorem determineAspectRatio_nearest (w h : Z) :
  0 < h ->
  let ratio := (inject_Z w / inject_Z h)%Q in
  (exists chosen,
     chosen ∈ GeminiService.supported /\
     GeminiService.determineAspectRatio (Some (w, h)) = GeminiService.label chosen /\
     forall o, o ∈ GeminiService.supported ->
       (Qabs (ratio - GeminiService.value chosen)
        <= Qabs (ratio - GeminiService.value o))%Q) /\
  (w = h -> GeminiService.determineAspectRatio (Some (w, h)) = "1:1") /\
  (w * 4 = h * 3 -> GeminiService.determineAspectRatio (Some (w, h)) = "3:4") /\
  (w * 3 = h * 4 -> GeminiService.determineAspectRatio (Some (w, h)) = "4:3") /\
  (w * 16 = h * 9 -> GeminiService.determineAspectRatio (Some (w, h)) = "9:16") /\
  (w * 9 = h * 16 -> GeminiService.determineAspectRatio (Some (w, h)) = "16:9") /\
  GeminiService.determineAspectRatio None = "1:1".
Proof.
  intros Hh ratio. split.
  - unfold GeminiService.determineAspectRatio. cbn [GeminiService.supported].
    fold ratio.
    set (first := GeminiService.mkAspectOption "1:1" 1).
    set (rest := [GeminiService.mkAspectOption "3:4" (75 # 100);
                  GeminiService.mkAspectOption "4:3" (13333 # 10000);
                  GeminiService.mkAspectOption "9:16" (5625 # 10000);
                  GeminiService.mkAspectOption "16:9" (17778 # 10000)]).
    destruct (closestLoop_nearest ratio rest first
                (Qabs (ratio - GeminiService.value first)) [first])
      as [Hin Hbest].
    + reflexivity.
    + apply list_elem_of_singleton. reflexivity.
    + intros o Ho. apply list_elem_of_singleton in Ho. subst o. apply Qle_refl.
    + eexists. split; [exact Hin |]. split; [reflexivity | exact Hbest].
  - split; [| split; [| split; [| split; [| split]]]].
    + intros Heq. rewrite (aspect_of_exact_ratio w h 1 1) by lia. reflexivity.
    + intros Heq. rewrite (aspect_of_exact_ratio w h 3 4) by lia. reflexivity.
    + intros Heq. rewrite (aspect_of_exact_ratio w h 4 3) by lia. reflexivity.
    + intros Heq. rewrite (aspect_of_exact_ratio w h 9 16) by lia. reflexivity.
    + intros Heq. rewrite (aspect_of_exact_ratio w h 16 9) by lia. reflexivity.
    + reflexivity.
Qed.

Lemma determineAspectRatio_nearest_witness :
  GeminiService.determineAspectRatio (Some (1920, 1080)) = "16:9".
Proof.
  destruct (determineAspectRatio_nearest 1920 1080) as (_ & _ & _ & _ & _ & H169 & _).
  - lia.
  - apply H169. lia.
Defined.

(** ** Layout of the canvas nodes *)

Lemma insertByCreatedAt_perm (group : NodeGroup.t) (sorted : list NodeGroup.t) :
  Layout.insertByCreatedAt group sorted ≡ₚ group :: sorted.
Proof.
  induction sorted as [| first rest IH]; [reflexivity |].
  cbn [Layout.insertByCreatedAt].
  destruct (NodeGroup.createdAt group <? NodeGroup.createdAt first); [reflexivity |].
  rewrite IH. apply Permutation_swap.
Qed.

Lemma insertByCreatedAt_sorted (group : NodeGroup.t) (sorted : list NodeGroup.t) :
  StronglySorted (fun a b => NodeGroup.createdAt a <= NodeGroup.createdAt b) sorted ->
  StronglySorted (fun a b => NodeGroup.createdAt a <= NodeGroup.createdAt b)
    (Layout.insertByCreatedAt group sorted).
Proof.
  induction 1 as [| first rest Hrest IH Hfirst].
  - constructor; constructor.
  - cbn [Layout.insertByCreatedAt].
    destruct (Z.ltb_spec (NodeGroup.createdAt group) (NodeGroup.createdAt first))
      as [Hlt | Hge].
    + constructor; [constructor; assumption |].
      constructor; [lia |].
      eapply Forall_impl; [exact Hfirst |]. cbn. intros; lia.
    + constructor; [exact IH |].
      rewrite insertByCreatedAt_perm. constructor; [exact Hge | exact Hfirst].
Qed.

Lemma sortByCreatedAt_spec (values : list NodeGroup.t) :
  Layout.sortByCreatedAt values ≡ₚ values /\
  StronglySorted (fun a b => NodeGroup.createdAt a <= NodeGroup.createdAt b)
    (Layout.sortByCreatedAt values).
Proof.
  unfold Layout.sortByCreatedAt.
  assert (Hgen : forall acc,
    StronglySorted (fun a b => NodeGroup.createdAt a <= NodeGroup.createdAt b) acc ->
    fold_left (fun sorted group => Layout.insertByCreatedAt group sorted) values acc
      ≡ₚ acc ++ values /\
    StronglySorted (fun a b => NodeGroup.createdAt a <= NodeGroup.createdAt b)
      (fold_left (fun sorted group => Layout.insertByCreatedAt group sorted)
         values acc)).
  { induction values as [| g values IH]; intros acc Hacc.
    - simpl. now rewrite app_nil_r.
    - simpl. destruct (IH (Layout.insertByCreatedAt g acc)
                         (insertByCreatedAt_sorted g acc Hacc)) as [Hp Hs].
      split; [| exact Hs]. rewrite Hp, insertByCreatedAt_perm.
      simpl. apply Permutation_middle. }
  apply (Hgen []). constructor.
Qed.

Lemma groupsCreatedAt_cons (t : Z) (group : NodeGroup.t) (groups : list NodeGroup.t) :
  groupsCreatedAt t (group :: groups) =
  if NodeGroup.createdAt group =? t then group :: groupsCreatedAt t groups
  else groupsCreatedAt t groups.
Proof. reflexivity. Qed.

Lemma groupsCreatedAt_later (t : Z) (groups : list NodeGroup.t) :
  Forall (fun group => t < NodeGroup.createdAt group) groups ->
  groupsCreatedAt t groups = [].
Proof.
  induction 1 as [| first rest Hfirst _ IH]; [reflexivity |].
  rewrite groupsCreatedAt_cons.
  destruct (Z.eqb_spec (NodeGroup.createdAt first) t); [lia | exact IH].
Qed.

(** Insertion puts a group after the groups of its own creation time and
    does not touch the order of the others. *)
Lemma insertByCreatedAt_stable (t : Z) (group : NodeGroup.t)
    (sorted : list NodeGroup.t) :
  StronglySorted (fun a b => NodeGroup.createdAt a <= NodeGroup.createdAt b) sorted ->
  groupsCreatedAt t (Layout.insertByCreatedAt group sorted) =
  groupsCreatedAt t sorted ++ groupsCreatedAt t [group].
Proof.
  induction 1 as [| first rest Hrest IH Hfirst].
  - cbn [Layout.insertByCreatedAt]. reflexivity.
  - cbn [Layout.insertByCreatedAt].
    destruct (Z.ltb_spec (NodeGroup.createdAt group) (NodeGroup.createdAt first))
      as [Hlt | Hge].
    + rewrite (groupsCreatedAt_cons t group (first :: rest)).
      rewrite (groupsCreatedAt_cons t group []).
      destruct (Z.eqb_spec (NodeGroup.createdAt group) t) as [Heq | Hne].
      * rewrite groupsCreatedAt_later; [reflexivity |].
        constructor; [lia |].
        eapply Forall_impl; [exact Hfirst |]. cbn. intros; lia.
      * now rewrite app_nil_r.
    + rewrite !(groupsCreatedAt_cons t first), IH.
      destruct (NodeGroup.createdAt first =? t); reflexivity.
Qed.

Lemma groupsCreatedAt_app (t : Z) (l1 l2 : list NodeGroup.t) :
  groupsCreatedAt t (l1 ++ l2) = groupsCreatedAt t l1 ++ groupsCreatedAt t l2.
Proof. unfold groupsCreatedAt. apply List.filter_app. Qed.

Lemma sortByCreatedAt_stable (t : Z) (values : list NodeGroup.t) :
  groupsCreatedAt t (Layout.sortByCreatedAt values) = groupsCreatedAt t values.
Proof.
  unfold Layout.sortByCreatedAt.
  assert (Hgen : forall acc,
    StronglySorted (fun a b => NodeGroup.createdAt a <= NodeGroup.createdAt b) acc ->
    groupsCreatedAt t
      (fold_left (fun sorted group => Layout.insertByCreatedAt group sorted)
         values acc) =
    groupsCreatedAt t acc ++ groupsCreatedAt t values).
  { induction values as [| g values IH]; intros acc Hacc.
    - simpl. now rewrite app_nil_r.
    - cbn [fold_left].
      rewrite (IH _ (insertByCreatedAt_sorted g acc Hacc)).
      rewrite (insertByCreatedAt_stable t g acc Hacc), <- app_assoc.
      f_equal. change (g :: values) with ([g] ++ values).
      now rewrite groupsCreatedAt_app. }
  apply (Hgen []). constructor.
Qed.

Lemma layoutLoop_rows (sortedGroups : list NodeGroup.t) :
  forall (currentY : Q) (newNodes : list Layout.Box),
    Layout.layoutLoop sortedGroups currentY newNodes =
    newNodes ++ concat (layoutRows sortedGroups currentY).
Proof.
  induction sortedGroups as [| group rest IH]; intros currentY newNodes.
  - simpl. now rewrite app_nil_r.
  - cbn [Layout.layoutLoop layoutRows concat].
    destruct (Layout.groupRow group currentY) as [boxes rowHeight] eqn:Hrow.
    cbn [fst snd]. rewrite IH. now rewrite <- app_assoc.
Qed.

Lemma layoutRows_kinds (sortedGroups : list NodeGroup.t) (currentY : Q) :
  map kindOf (concat (layoutRows sortedGroups currentY)) =
  flat_map nodeKinds sortedGroups.
Proof.
  revert currentY. induction sortedGroups as [| group rest IH]; intros currentY.
  - reflexivity.
  - cbn [layoutRows concat flat_map]. rewrite map_app, IH. reflexivity.
Qed.

(** X17. The layout gives every group exactly three nodes, a raw, an editor
    and a preview node named after the group, and no other nodes; the groups
    appear in order of creation, and the sort is stable: for every time t,
    the groups created at t stand in the sorted list in the order they had
    among the values. *)
Theorem layout_three_nodes_per_group (values : list NodeGroup.t) :
  let boxes := Layout.recalculateLayout values in
  let sorted := Layout.sortByCreatedAt values in
  map kindOf boxes = flat_map nodeKinds sorted /\
  length boxes = (3 * length values)%nat /\
  sorted ≡ₚ values /\
  StronglySorted (fun a b => NodeGroup.createdAt a <= NodeGroup.createdAt b) sorted /\
  (forall t, groupsCreatedAt t sorted = groupsCreatedAt t values) /\
  (forall b, b ∈ boxes ->
     exists group, group ∈ values /\
                   CanvasNodeData.groupId (Layout.node b) = NodeGroup.id group).
Proof.
  intros boxes sorted.
  destruct (sortByCreatedAt_spec values) as [Hperm Hsorted].
  fold sorted in Hperm, Hsorted.
  assert (Hkinds : map kindOf boxes = flat_map nodeKinds sorted).
  { unfold boxes, Layout.recalculateLayout. rewrite layoutLoop_rows, app_nil_l.
    apply layoutRows_kinds. }
  assert (Hlen : forall l, length (flat_map nodeKinds l) = (3 * length l)%nat).
  { induction l as [| g l IH]; [reflexivity |]. cbn [flat_map].
    rewrite length_app, IH. simpl. lia. }
  split; [exact Hkinds |]. split.
  { rewrite <- (length_map kindOf), Hkinds, Hlen. now rewrite Hperm. }
  split; [exact Hperm |]. split; [exact Hsorted |].
  split; [intros t; apply sortByCreatedAt_stable |].
  intros b Hb.
  assert (Hk : kindOf b ∈ flat_map nodeKinds sorted).
  { rewrite <- Hkinds. apply list_elem_of_In, in_map, list_elem_of_In, Hb. }
  apply list_elem_of_In, in_flat_map in Hk. destruct Hk as (group & Hg & Hkind).
  exists group. split; [rewrite <- Hperm; now apply list_elem_of_In |].
  unfold nodeKinds in Hkind. cbn [In] in Hkind. unfold kindOf in Hkind.
  destruct Hkind as [Hk | [Hk | [Hk | []]]]; congruence.
Qed.

Lemma layout_three_nodes_per_group_witness :
  length (Layout.recalculateLayout [wideGroup; spriteGroup]) = 6%nat /\
  (forall b, b ∈ Layout.recalculateLayout [wideGroup; spriteGroup] ->
     exists group, group ∈ [wideGroup; spriteGroup] /\
                   CanvasNodeData.groupId (Layout.node b) = NodeGroup.id group).
Proof.
  destruct (layout_three_nodes_per_group [wideGroup; spriteGroup])
    as (_ & Hlen & _ & _ & _ & Hgroups).
  split; [exact Hlen | exact Hgroups].
Defined.









(** The two sample groups: the older 4x4 sheet comes first, its editor node
    is 500 wide; the wide sheet is clamped to 1200 and starts at y = 846. *)
Example layout_of_two_groups :
  map (fun b => (CanvasNodeData.id (Layout.node b),
                 Qred (Layout.left b), Qred (Layout.top b), Qred (Layout.boxWidth b)))
      (Layout.recalculateLayout [wideGroup; spriteGroup]) =
  [ ("raw-9f8e7d6c-0000-4000-8000-000000000000", 50, 100, 250);
    ("editor-9f8e7d6c-0000-4000-8000-000000000000", 450, 100, 500);
    ("preview-9f8e7d6c-0000-4000-8000-000000000000", 1100, 100, 300);
    ("raw-3c4d5e6f-0000-4000-8000-000000000000", 50, 846, 250);
    ("editor-3c4d5e6f-0000-4000-8000-000000000000", 450, 846, 1200);
    ("preview-3c4d5e6f-0000-4000-8000-000000000000", 1800, 846, 300) ]%Q.
Proof. vm_compute. reflexivity. Qed.

(** ** Exporting one group and exporting all groups *)

Lemma generateGifAsset_state `{Canvas2D} (env : App.ExportEnv) (group : NodeGroup.t)
    (s : App.State) :
  fst (App.generateGifAsset env group s) =
    App.mkState (App.groups s) (App.selectedGroupId s) (App.nodes s)
      (option_list (exportedAsset env group) ++ App.savedAssets s) /\
  (App.threw (snd (App.generateGifAsset env group s)) = true ->
   exportedAsset env group = None) /\
  (forall asset, exportedAsset env group = Some asset ->
     asset = SavedAsset.mk (App.uuid env) SavedAsset.gif (App.objectUrl env)
               (App.gifFileName (NodeGroup.id group)) (App.now env)
               (NodeGroup.dimensions group)) /\
  (NodeGroup.imageUrl group = None ->
   exportedAsset env group = None /\
   App.threw (snd (App.generateGifAsset env group s)) = false).
Proof.
  unfold exportedAsset, App.generateGifAsset.
  destruct (NodeGroup.imageUrl group) as [url |].
  - destruct (App.decoded env) as [img |].
    + destruct (GifBuilder.rejected (GifBuilder.generateGif _ _ img _ _)) eqn:Hrej.
      * cbn [fst snd App.threw]. rewrite Hrej.
        split; [destruct s; reflexivity |].
        split; [reflexivity |]. split; [discriminate | discriminate].
      * cbn [fst snd App.threw App.savedAssets head]. rewrite Hrej.
        split; [reflexivity |]. split; [discriminate |].
        split; [intros asset [= <-]; reflexivity | discriminate].
    + cbn. split; [destruct s; reflexivity |].
      split; [reflexivity |]. split; discriminate.
  - cbn. split; [destruct s; reflexivity |].
    split; [reflexivity |]. split; [discriminate |]. intros _. split; reflexivity.
Qed.

#[local] Ltac unchanged :=
  repeat match goal with
         | |- _ /\ _ => split; [solve [intros; reflexivity] |]
         end.

Lemma generateGifAsset_failed `{Canvas2D} (env : App.ExportEnv) (group : NodeGroup.t)
    (s : App.State) :
  NodeGroup.imageUrl group <> None ->
  (exportedAsset env group = None ->
   App.threw (snd (App.generateGifAsset env group s)) = true) /\
  (App.decoded env = None -> exportedAsset env group = None) /\
  (forall img reason,
     App.decoded env = Some img ->
     GifBuilder.rejected
       (GifBuilder.generateGif (App.workerUrl env) (App.ctxAvailable env) img
          (NodeGroup.config group) (NodeGroup.dimensions group)) = Some reason ->
     exportedAsset env group = None).
Proof.
  intros Himg. unfold exportedAsset, App.generateGifAsset.
  destruct (NodeGroup.imageUrl group) as [url |]; [| contradiction].
  destruct (App.decoded env) as [img |].
  - destruct (GifBuilder.rejected (GifBuilder.generateGif _ _ img _ _)) eqn:Hrej.
    + cbn [fst snd App.threw]. rewrite Hrej.
      split; [reflexivity |]. split; [reflexivity |]. reflexivity.
    + cbn [fst snd App.threw App.savedAssets head]. rewrite Hrej.
      split; [discriminate |]. split; [discriminate |].
      intros img' reason [= <-]. congruence.
  - cbn. split; [reflexivity |]. split; [reflexivity |]. discriminate.
Qed.

(** X19. Exporting one group never changes the groups, the nodes or the
    selection.  For a known group it adds at most one asset, in front of the
    list: when the export succeeds, a GIF asset named after the group, with
    the blob URL and the group's dimensions, and the state is completed at
    100; when it fails, nothing is added and the state is idle with the
    error "Failed".  An export of a group with an image fails exactly when
    it adds no asset: when the image cannot be decoded, and when the encoder
    run is rejected.  A group without an image is reported completed
    although nothing is added.  Without a target, or for an unknown group,
    nothing changes at all. *)
Theorem handleExportGif_result `{Canvas2D} (env : App.ExportEnv)
    (groupId : option string) (s : App.State) (ps : App.ProcessingState) :
  let result := App.handleExportGif env groupId s ps in
  let target := if App.truthy groupId then groupId else App.selectedGroupId s in
  App.groups (fst result) = App.groups s /\
  App.nodes (fst result) = App.nodes s /\
  App.selectedGroupId (fst result) = App.selectedGroupId s /\
  (App.truthy target = false -> result = (s, ps)) /\
  (forall id, target = Some id -> App.groups s !! id = None -> result = (s, ps)) /\
  (forall id group,
     target = Some id -> App.truthy target = true ->
     App.groups s !! id = Some group ->
     App.savedAssets (fst result) =
       option_list (exportedAsset env group) ++ App.savedAssets s /\
     (forall asset, exportedAsset env group = Some asset ->
        snd result = App.mkProcessingState App.completed 100 None /\
        SavedAsset.name asset = App.gifFileName (NodeGroup.id group) /\
        SavedAsset.type asset = SavedAsset.gif /\
        SavedAsset.url asset = App.objectUrl env /\
        SavedAsset.dimensions asset = NodeGroup.dimensions group) /\
     (snd result = App.mkProcessingState App.idle 0 (Some "Failed") \/
      snd result = App.mkProcessingState App.completed 100 None) /\
     (snd result = App.mkProcessingState App.idle 0 (Some "Failed") ->
      App.savedAssets (fst result) = App.savedAssets s) /\
     (NodeGroup.imageUrl group <> None -> exportedAsset env group = None ->
      snd result = App.mkProcessingState App.idle 0 (Some "Failed") /\
      App.savedAssets (fst result) = App.savedAssets s) /\
     (NodeGroup.imageUrl group <> None -> App.decoded env = None ->
      snd result = App.mkProcessingState App.idle 0 (Some "Failed")) /\
     (forall img reason,
        NodeGroup.imageUrl group <> None -> App.decoded env = Some img ->
        GifBuilder.rejected
          (GifBuilder.generateGif (App.workerUrl env) (App.ctxAvailable env) img
             (NodeGroup.config group) (NodeGroup.dimensions group)) = Some reason ->
        snd result = App.mkProcessingState App.idle 0 (Some "Failed")) /\
     (NodeGroup.imageUrl group = None ->
      snd result = App.mkProcessingState App.completed 100 None /\
      App.savedAssets (fst result) = App.savedAssets s)).
Proof.
  intros result target. unfold result, App.handleExportGif. fold target.
  destruct target as [id |] eqn:Htarget.
  - destruct (App.truthy (Some id)) eqn:Htruthy; cbn [negb].
    + destruct (App.groups s !! id) as [group |] eqn:Hg.
      * destruct (generateGifAsset_state env group s) as (Hs & Hthrew & Hasset & Hnone).
        pose proof (generateGifAsset_failed env group s) as Hfailed.
        destruct (App.generateGifAsset env group s) as [s' outcome].
        cbn [fst snd] in *. subst s'.
        assert (Hfst : forall b : bool, fst (if b
                  then (App.mkState (App.groups s) (App.selectedGroupId s) (App.nodes s)
                          (option_list (exportedAsset env group) ++ App.savedAssets s),
                        App.mkProcessingState App.idle 0 (Some "Failed"))
                  else (App.mkState (App.groups s) (App.selectedGroupId s) (App.nodes s)
                          (option_list (exportedAsset env group) ++ App.savedAssets s),
                        App.mkProcessingState App.completed 100 None)) =
                App.mkState (App.groups s) (App.selectedGroupId s) (App.nodes s)
                  (option_list (exportedAsset env group) ++ App.savedAssets s))
          by (intros []; reflexivity).
        rewrite Hfst. cbn [App.groups App.nodes App.selectedGroupId App.savedAssets].
        split; [reflexivity |]. split; [reflexivity |]. split; [reflexivity |].
        split; [discriminate |]. split; [intros id' [= <-]; congruence |].
        intros id' group' [= <-] _ Hg'. assert (group' = group) by congruence.
        subst group'. split; [reflexivity |].
        assert (Hfails : NodeGroup.imageUrl group <> None ->
                         exportedAsset env group = None ->
                         snd (if App.threw outcome
                              then (App.mkState (App.groups s) (App.selectedGroupId s)
                                      (App.nodes s)
                                      (option_list (exportedAsset env group) ++
                                       App.savedAssets s),
                                    App.mkProcessingState App.idle 0 (Some "Failed"))
                              else (App.mkState (App.groups s) (App.selectedGroupId s)
                                      (App.nodes s)
                                      (option_list (exportedAsset env group) ++
                                       App.savedAssets s),
                                    App.mkProcessingState App.completed 100 None)) =
                         App.mkProcessingState App.idle 0 (Some "Failed")).
        { intros Himg Hnothing. destruct (Hfailed Himg) as (Hth & _).
          rewrite (Hth Hnothing). reflexivity. }
        split; [| split; [| split; [| split; [| split; [| split]]]]].
        -- intros asset Ha. destruct (App.threw outcome) eqn:Hth.
           ++ rewrite (Hthrew eq_refl) in Ha. discriminate.
           ++ rewrite (Hasset asset Ha). cbn. repeat split.
        -- destruct (App.threw outcome); [left | right]; reflexivity.
        -- destruct (App.threw outcome) eqn:Hth; [| discriminate].
           intros _. now rewrite (Hthrew eq_refl).
        -- intros Himg Hnothing. split; [now apply Hfails |].
           now rewrite Hnothing.
        -- intros Himg Hdec. apply Hfails; [exact Himg |].
           destruct (Hfailed Himg) as (_ & Hd & _). now apply Hd.
        -- intros img reason Himg Hdec Hrej. apply Hfails; [exact Himg |].
           destruct (Hfailed Himg) as (_ & _ & Hr). now apply (Hr img reason).
        -- intros Himg. destruct (Hnone Himg) as [Hno Hth].
           rewrite Hth, Hno. split; reflexivity.
      * unchanged. intros id' group' [= <-] _ Hg'. congruence.
    + unchanged. intros id' group' _ Ht. discriminate.
  - unchanged. discriminate.
Qed.

Lemma handleExportGif_result_witness :
  App.savedAssets
    (fst (@App.handleExportGif opaquePlatform browserEnv None loadedApp
            (App.mkProcessingState App.idle 0 None))) =
  option_list (@exportedAsset opaquePlatform browserEnv spriteGroup).
Proof.
  destruct (@handleExportGif_result opaquePlatform browserEnv None loadedApp
              (App.mkProcessingState App.idle 0 None))
    as (_ & _ & _ & _ & _ & Hknown).
  destruct (Hknown (NodeGroup.id spriteGroup) spriteGroup) as (Hassets & _).
  - reflexivity.
  - reflexivity.
  - apply lookup_singleton_eq.
  - rewrite Hassets. apply app_nil_r.
Defined.

(** An image that cannot be decoded: the export ends idle with "Failed" and
    the library is as it was; so does an export without a worker script. *)
Example handleExportGif_failures :
  @App.handleExportGif opaquePlatform
    (App.mkExportEnv None (Some "blob:worker") true "blob:gif-0"
       "aaaaaaaa-0000-4000-8000-000000000000" 1700000000000)
    None loadedApp (App.mkProcessingState App.idle 0 None) =
  (loadedApp, App.mkProcessingState App.idle 0 (Some "Failed")) /\
  @App.handleExportGif opaquePlatform
    (App.mkExportEnv (Some whiteImage) None true "blob:gif-0"
       "aaaaaaaa-0000-4000-8000-000000000000" 1700000000000)
    None loadedApp (App.mkProcessingState App.idle 0 None) =
  (loadedApp, App.mkProcessingState App.idle 0 (Some "Failed")).
Proof. split; reflexivity. Qed.

Lemma batchLoop_state `{Canvas2D} (envOf : nat -> App.ExportEnv)
    (allGroups : list NodeGroup.t) :
  forall (done : nat) (s : App.State),
    App.batchLoop envOf done allGroups s =
      App.mkState (App.groups s) (App.selectedGroupId s) (App.nodes s)
        (rev (batchAssets envOf done allGroups) ++ App.savedAssets s).
Proof.
  induction allGroups as [| group rest IH]; intros done s.
  - destruct s; reflexivity.
  - cbn [App.batchLoop batchAssets].
    destruct (generateGifAsset_state (envOf done) group s) as (Hs & _).
    destruct (App.generateGifAsset (envOf done) group s) as [s' outcome].
    cbn [fst] in Hs. subst s'. rewrite IH.
    cbn [App.groups App.selectedGroupId App.nodes App.savedAssets].
    destruct (exportedAsset (envOf done) group) as [asset |].
    + cbn [option_list rev]. now rewrite <- app_assoc.
    + reflexivity.
Qed.

Lemma batchAssets_complete `{Canvas2D} (envOf : nat -> App.ExportEnv)
    (allGroups : list NodeGroup.t) :
  forall (done k : nat) (group : NodeGroup.t) (asset : SavedAsset.t),
    allGroups !! k = Some group ->
    exportedAsset (envOf (done + k)%nat) group = Some asset ->
    asset ∈ batchAssets envOf done allGroups.
Proof.
  induction allGroups as [| first rest IH]; intros done k group asset Hk Ha.
  - discriminate.
  - cbn [batchAssets]. destruct k as [| k].
    + injection Hk as ->. rewrite Nat.add_0_r in Ha. rewrite Ha. apply list_elem_of_here.
    + assert (Hin : asset ∈ batchAssets envOf (S done) rest).
      { apply (IH (S done) k group asset Hk).
        now replace (S done + k)%nat with (done + S k)%nat by lia. }
      destruct (exportedAsset (envOf done) first);
        [apply list_elem_of_further |]; exact Hin.
Qed.

Lemma batchAssets_length `{Canvas2D} (envOf : nat -> App.ExportEnv)
    (allGroups : list NodeGroup.t) :
  forall done : nat, (length (batchAssets envOf done allGroups) <= length allGroups)%nat.
Proof.
  induction allGroups as [| first rest IH]; intros done; [reflexivity |].
  cbn [batchAssets length]. specialize (IH (S done)).
  destruct (exportedAsset (envOf done) first); cbn [length]; lia.
Qed.

(** X20. Exporting all groups handles them one after the other and a failed
    export does not stop the others: the assets afterwards are the assets of
    the successful exports, newest first, in front of the earlier ones, so
    the asset of every group whose export succeeds is there, and at most one
    per group is added.  Groups, nodes and selection are unchanged.  With at
    least one group the state ends idle at 0 without an error, also when
    exports failed; with no group nothing changes. *)
Theorem handleBatchGenerateGif_result `{Canvas2D} (envOf : nat -> App.ExportEnv)
    (allGroups : list NodeGroup.t) (s : App.State) (ps : App.ProcessingState) :
  let result := App.handleBatchGenerateGif envOf allGroups s ps in
  App.groups (fst result) = App.groups s /\
  App.nodes (fst result) = App.nodes s /\
  App.selectedGroupId (fst result) = App.selectedGroupId s /\
  App.savedAssets (fst result) =
    rev (batchAssets envOf 0 allGroups) ++ App.savedAssets s /\
  (length (App.savedAssets (fst result)) <=
     length allGroups + length (App.savedAssets s))%nat /\
  (forall k group asset,
     allGroups !! k = Some group ->
     exportedAsset (envOf k) group = Some asset ->
     asset ∈ App.savedAssets (fst result)) /\
  (allGroups = [] -> result = (s, ps)) /\
  (allGroups <> [] -> snd result = App.mkProcessingState App.idle 0 None).
Proof.
  intros result.
  assert (Hstate : fst result =
            App.mkState (App.groups s) (App.selectedGroupId s) (App.nodes s)
              (rev (batchAssets envOf 0 allGroups) ++ App.savedAssets s)).
  { unfold result, App.handleBatchGenerateGif.
    destruct allGroups as [| group rest]; [destruct s; reflexivity |].
    cbn [length Nat.eqb fst]. apply batchLoop_state. }
  rewrite Hstate. cbn [App.groups App.nodes App.selectedGroupId App.savedAssets].
  split; [reflexivity |]. split; [reflexivity |]. split; [reflexivity |].
  split; [reflexivity |]. split; [| split; [| split]].
  - rewrite length_app, length_rev.
    pose proof (batchAssets_length envOf allGroups 0). lia.
  - intros k group asset Hk Ha. apply list_elem_of_In, in_app_iff. left.
    apply -> in_rev. apply list_elem_of_In.
    exact (batchAssets_complete envOf allGroups 0 k group asset Hk Ha).
  - intros ->. reflexivity.
  - unfold result, App.handleBatchGenerateGif.
    destruct allGroups; [congruence | reflexivity].
Qed.

Lemma handleBatchGenerateGif_result_witness :
  (@exportedAsset opaquePlatform (browserEnvOf 0) scenarioD = None) /\
  (exists asset,
     @exportedAsset opaquePlatform (browserEnvOf 1) spriteGroup = Some asset /\
     asset ∈ App.savedAssets
       (fst (@App.handleBatchGenerateGif opaquePlatform browserEnvOf
               [scenarioD; spriteGroup] loadedApp
               (App.mkProcessingState App.idle 0 None)))).
Proof.
  split; [vm_compute; reflexivity |].
  destruct (@exportedAsset opaquePlatform (browserEnvOf 1) spriteGroup)
    as [asset |] eqn:Hasset; [| vm_compute in Hasset; discriminate].
  exists asset. split; [reflexivity |].
  destruct (@handleBatchGenerateGif_result opaquePlatform browserEnvOf
              [scenarioD; spriteGroup] loadedApp
              (App.mkProcessingState App.idle 0 None))
    as (_ & _ & _ & _ & _ & Hkept & _).
  exact (Hkept 1%nat spriteGroup asset eq_refl Hasset).
Defined.



(** ** Slicing a 3x3 grid image *)

Lemma slice_axis (W c p : Z) :
  0 <= c <= 2 -> 0 <= p < truncQ (inject_Z W / inject_Z 3) ->
  let u := (inject_Z c * (inject_Z W / inject_Z 3) + inject_Z p)%Q in
  (0 <= u)%Q /\ (u < inject_Z W)%Q /\ Qfloor u = c * W / 3 + p.
Proof.
  intros Hc Hp u.
  destruct (truncQ_column _ p Hp) as [Hpos Hstep].
  assert (Hp0 : (0 <= inject_Z p)%Q).
  { change 0%Q with (inject_Z 0). rewrite <- Zle_Qle. lia. }
  assert (Hthree : (3 * (inject_Z W / inject_Z 3) == inject_Z W)%Q) by field.
  assert (Hfloor : Qfloor u = c * W / 3 + p).
  { assert (Hu : (u == inject_Z (c * W) / inject_Z 3 + inject_Z p)%Q).
    { unfold u. rewrite inject_Z_mult. field. }
    rewrite (Qfloor_comp _ _ Hu), Qfloor_add_Z. f_equal. symmetry. apply Zdiv_Qdiv. }
  unfold u in *. clear u.
  assert (Hcases : c = 0 \/ c = 1 \/ c = 2) by lia.
  set (q := (inject_Z W / inject_Z 3)%Q) in *.
  destruct Hcases as [-> | [-> | ->]];
    (split; [| split; [| exact Hfloor]]);
    change (inject_Z 0) with 0%Q; change (inject_Z 1) with 1%Q;
    change (inject_Z 2) with 2%Q; lra.
Qed.

(** The canvas is cleared before each cell is drawn: the cell looks as if
    it had been cut on a fresh canvas. *)
Lemma sliceCell_fresh `{Canvas2D} (img : Image) (cellW cellH : Q) (canvas : Canvas)
    (i px py : Z) :
  0 <= px < truncQ cellW -> 0 <= py < truncQ cellH ->
  canvasPixel (App.sliceCell img cellW cellH canvas i) px py =
  canvasPixel (App.sliceCell img cellW cellH (setCanvasSize cellW cellH) i) px py.
Proof.
  intros Hx Hy. unfold App.sliceCell.
  rewrite !drawImage_unscaled_pixel by assumption.
  unfold clearRect. rewrite !paintRect_frame by assumption. reflexivity.
Qed.

(** Cells of whole pixels are copied pixel by pixel. *)
Lemma sliceCell_pixel `{Canvas2D} (img : Image) (canvas : Canvas)
    (cellW cellH i px py : Z) :
  naturalWidth img = 3 * cellW -> naturalHeight img = 3 * cellH ->
  0 <= i < 9 -> 0 <= px < cellW -> 0 <= py < cellH ->
  canvasPixel
    (App.sliceCell img (inject_Z (naturalWidth img) / inject_Z 3)
                   (inject_Z (naturalHeight img) / inject_Z 3) canvas i) px py =
  sourceOver (imagePixel img ((i mod 3) * cellW + px) ((i / 3) * cellH + py))
             transparentBlack.
Proof.
  intros HW HH Hi Hx Hy.
  assert (HqW : inject_Z (naturalWidth img) / inject_Z 3 == inject_Z cellW).
  { rewrite HW, inject_Z_mult. field. }
  assert (HqH : inject_Z (naturalHeight img) / inject_Z 3 == inject_Z cellH).
  { rewrite HH, inject_Z_mult. field. }
  assert (HtW : truncQ (inject_Z (naturalWidth img) / inject_Z 3) = cellW).
  { rewrite truncQ_quotient by lia. rewrite HW, Z.mul_comm. apply Z.div_mul. lia. }
  assert (HtH : truncQ (inject_Z (naturalHeight img) / inject_Z 3) = cellH).
  { rewrite truncQ_quotient by lia. rewrite HH, Z.mul_comm. apply Z.div_mul. lia. }
  assert (Hcol : 0 <= i mod 3 <= 2) by (pose proof (Z.mod_pos_bound i 3); lia).
  assert (Hrow : 0 <= i / 3 <= 2).
  { split; [apply Z.div_pos; lia |].
    assert (i / 3 < 3) by (apply Z.div_lt_upper_bound; lia). lia. }
  destruct (slice_axis (naturalWidth img) (i mod 3) px Hcol ltac:(lia))
    as (Hu0 & Hu1 & Hu).
  destruct (slice_axis (naturalHeight img) (i / 3) py Hrow ltac:(lia))
    as (Hv0 & Hv1 & Hv).
  cbv zeta in Hu0, Hu1, Hu, Hv0, Hv1, Hv.
  unfold App.sliceCell. rewrite jsRem_mod, jsFloorDiv_div by lia.
  rewrite drawImage_aligned_pixel.
  - unfold clearRect. rewrite paintRect_frame by lia.
    rewrite Hu, Hv, HW, HH.
    replace (i mod 3 * (3 * cellW) / 3) with (i mod 3 * cellW).
    2:{ replace (i mod 3 * (3 * cellW)) with (i mod 3 * cellW * 3) by lia.
        now rewrite Z.div_mul by lia. }
    replace (i / 3 * (3 * cellH) / 3) with (i / 3 * cellH).
    2:{ replace (i / 3 * (3 * cellH)) with (i / 3 * cellH * 3) by lia.
        now rewrite Z.div_mul by lia. }
    reflexivity.
  - lia.
  - lia.
  - apply (isInteger_true _ (i mod 3 * cellW)).
    rewrite HqW, inject_Z_mult. reflexivity.
  - apply (isInteger_true _ (i / 3 * cellH)).
    rewrite HqH, inject_Z_mult. reflexivity.
  - apply (isInteger_true _ cellW). exact HqW.
  - apply (isInteger_true _ cellH). exact HqH.
  - apply inSource_true. repeat split; assumption.
Qed.

Lemma sliceCell_size `{Canvas2D} (img : Image) (cellW cellH : Q) (canvas : Canvas)
    (i : Z) :
  canvasWidth (App.sliceCell img cellW cellH canvas i) = canvasWidth canvas /\
  canvasHeight (App.sliceCell img cellW cellH canvas i) = canvasHeight canvas.
Proof. split; reflexivity. Qed.

Lemma sliceLoop_spec `{Canvas2D} (img : Image) (cellW cellH : Q) (n : nat) :
  forall (i : Z) (canvas : Canvas) (acc : list Canvas),
    let slices := App.sliceLoop img cellW cellH n i canvas acc in
    length slices = (length acc + n)%nat /\
    (forall k, (k < length acc)%nat -> slices !! k = acc !! k) /\
    (forall k slice,
       slices !! (length acc + k)%nat = Some slice ->
       exists prev,
         slice = App.sliceCell img cellW cellH prev (i + Z.of_nat k) /\
         canvasWidth prev = canvasWidth canvas /\
         canvasHeight prev = canvasHeight canvas).
Proof.
  induction n as [| n IH]; intros i canvas acc slices.
  - unfold slices. cbn [App.sliceLoop]. split; [lia |]. split; [reflexivity |].
    intros k slice Hk. apply lookup_lt_Some in Hk. lia.
  - unfold slices. cbn [App.sliceLoop].
    set (drawn := App.sliceCell img cellW cellH canvas i).
    destruct (IH (i + 1) drawn (acc ++ [drawn])) as (Hlen & Hprefix & Hnew).
    rewrite length_app in Hlen, Hprefix, Hnew. cbn [length] in Hlen, Hprefix, Hnew.
    split; [lia |]. split.
    + intros k Hk. rewrite Hprefix by lia. apply lookup_app_l. exact Hk.
    + intros k slice Hk. destruct k as [| k].
      * rewrite Nat.add_0_r in Hk. rewrite Hprefix in Hk by lia.
        rewrite lookup_app_r, Nat.sub_diag in Hk by lia.
        injection Hk as <-. exists canvas.
        rewrite Z.add_0_r. split; [reflexivity |]. split; reflexivity.
      * replace (length acc + S k)%nat with (length acc + 1 + k)%nat in Hk by lia.
        destruct (Hnew k slice Hk) as (prev & Hslice & Hw & Hh).
        exists prev. split; [| split].
        -- rewrite Hslice. f_equal. lia.
        -- exact Hw.
        -- exact Hh.
Qed.

Lemma sliceGridImage_length `{Canvas2D} (img : Image) :
  length (App.sliceGridImage true img) = 9%nat.
Proof.
  unfold App.sliceGridImage. cbn [negb].
  destruct (sliceLoop_spec img (inject_Z (naturalWidth img) / inject_Z 3)
              (inject_Z (naturalHeight img) / inject_Z 3) 9 0
              (setCanvasSize (inject_Z (naturalWidth img) / inject_Z 3)
                             (inject_Z (naturalHeight img) / inject_Z 3)) [])
    as (Hlen & _). exact Hlen.
Qed.

(** Slice [i] is the cell [i] drawn on a canvas of the slices' size. *)
Lemma sliceGridImage_cell `{Canvas2D} (img : Image) (i : nat) (slice : Canvas) :
  0 <= naturalWidth img -> 0 <= naturalHeight img ->
  App.sliceGridImage true img !! i = Some slice ->
  (i < 9)%nat /\
  exists prev,
    slice = App.sliceCell img (inject_Z (naturalWidth img) / inject_Z 3)
              (inject_Z (naturalHeight img) / inject_Z 3) prev (Z.of_nat i) /\
    canvasWidth slice = naturalWidth img / 3 /\
    canvasHeight slice = naturalHeight img / 3.
Proof.
  intros HW HH Hslice. unfold App.sliceGridImage in Hslice. cbn [negb] in Hslice.
  destruct (sliceLoop_spec img (inject_Z (naturalWidth img) / inject_Z 3)
              (inject_Z (naturalHeight img) / inject_Z 3) 9 0
              (setCanvasSize (inject_Z (naturalWidth img) / inject_Z 3)
                             (inject_Z (naturalHeight img) / inject_Z 3)) [])
    as (Hlen & _ & Hnew).
  cbn [length Nat.add] in Hlen, Hnew.
  assert (Hi : (i < 9)%nat) by (apply lookup_lt_Some in Hslice; lia).
  destruct (Hnew i slice Hslice) as (prev & -> & Hw & Hh).
  cbn [setCanvasSize canvasWidth canvasHeight] in Hw, Hh.
  rewrite truncQ_quotient in Hw, Hh by lia.
  destruct (sliceCell_size img (inject_Z (naturalWidth img) / inject_Z 3)
              (inject_Z (naturalHeight img) / inject_Z 3) prev (0 + Z.of_nat i))
    as [Hsw Hsh].
  split; [exact Hi |]. exists prev. rewrite Z.add_0_l in *.
  split; [reflexivity |]. split; congruence.
Qed.

Lemma sliceGridImage_pixel `{Canvas2D} (img : Image) (i : nat) (slice : Canvas)
    (cellW cellH : Z) :
  naturalWidth img = 3 * cellW -> naturalHeight img = 3 * cellH ->
  0 <= cellW -> 0 <= cellH ->
  App.sliceGridImage true img !! i = Some slice ->
  canvasWidth slice = cellW /\
  canvasHeight slice = cellH /\
  forall px py,
    0 <= px < cellW -> 0 <= py < cellH ->
    readPixel slice px py =
      sourceOver (imagePixel img ((Z.of_nat i mod 3) * cellW + px)
                                 ((Z.of_nat i / 3) * cellH + py))
                 transparentBlack.
Proof.
  intros HW HH HcW HcH Hslice.
  destruct (sliceGridImage_cell img i slice ltac:(lia) ltac:(lia) Hslice)
    as (Hi & prev & Hcell & Hw & Hh).
  assert (HW3 : naturalWidth img / 3 = cellW).
  { rewrite HW, Z.mul_comm. apply Z.div_mul. lia. }
  assert (HH3 : naturalHeight img / 3 = cellH).
  { rewrite HH, Z.mul_comm. apply Z.div_mul. lia. }
  rewrite HW3 in Hw. rewrite HH3 in Hh.
  split; [exact Hw |]. split; [exact Hh |].
  intros px py Hx Hy.
  rewrite readPixel_inside by lia. rewrite Hcell.
  apply sliceCell_pixel; [assumption | assumption | lia | assumption | assumption].
Qed.

(** X21. Slicing a grid image gives nine slices, each a third of the image
    wide and high (fractions dropped).  The canvas is reused from cell to
    cell, yet nothing of an earlier slice remains: every pixel of
    slice [i] is the pixel of cell [i] (row [i / 3], column [i mod 3]) drawn
    by itself on a fresh canvas, on every platform.  When the width and the
    height of the image are multiples of three the cells are copied pixel by
    pixel: a slice pixel is the image pixel at that place of the cell, over
    transparent black. *)
Theorem sliceGridImage_slices `{Canvas2D} (img : Image) :
  0 <= naturalWidth img -> 0 <= naturalHeight img ->
  let slices := App.sliceGridImage true img in
  length slices = 9%nat /\
  forall (i : nat) (slice : Canvas),
    slices !! i = Some slice ->
    canvasWidth slice = naturalWidth img / 3 /\
    canvasHeight slice = naturalHeight img / 3 /\
    (forall px py,
       0 <= px < naturalWidth img / 3 -> 0 <= py < naturalHeight img / 3 ->
       readPixel slice px py = slicedPixel img (Z.of_nat i) px py) /\
    (forall cellW cellH px py,
       naturalWidth img = 3 * cellW -> naturalHeight img = 3 * cellH ->
       0 <= px < cellW -> 0 <= py < cellH ->
       readPixel slice px py =
         sourceOver (imagePixel img ((Z.of_nat i mod 3) * cellW + px)
                                    ((Z.of_nat i / 3) * cellH + py))
                    transparentBlack).
Proof.
  intros HW HH slices. split; [apply sliceGridImage_length |].
  intros i slice Hslice.
  destruct (sliceGridImage_cell img i slice HW HH Hslice)
    as (Hi & prev & Hcell & Hw & Hh).
  split; [exact Hw |]. split; [exact Hh |]. split.
  - intros px py Hx Hy. rewrite readPixel_inside by lia.
    rewrite Hcell. unfold slicedPixel.
    apply sliceCell_fresh; rewrite truncQ_quotient by lia; assumption.
  - intros cellW cellH px py HcW HcH Hx Hy.
    destruct (sliceGridImage_pixel img i slice cellW cellH HcW HcH
                ltac:(lia) ltac:(lia) Hslice) as (_ & _ & Hpixel).
    now apply Hpixel.
Qed.

Lemma sliceGridImage_slices_witness :
  exists slice,
    @App.sliceGridImage opaquePlatform true positionImage !! 5%nat = Some slice /\
    readPixel slice 1 0 = mkPixel 5 2 0 255.
Proof.
  destruct (@sliceGridImage_slices opaquePlatform positionImage) as [Hlen Hslices].
  - simpl. lia.
  - simpl. lia.
  - destruct (@App.sliceGridImage opaquePlatform true positionImage !! 5%nat)
      as [slice |] eqn:Hslice.
    + exists slice. split; [reflexivity |].
      destruct (Hslices 5%nat slice Hslice) as (_ & _ & _ & Hpixel).
      rewrite (Hpixel 2 2 1 0) by (reflexivity || lia).
      reflexivity.
    + apply lookup_ge_None in Hslice. rewrite Hlen in Hslice. lia.
Defined.

(** The slices of the 10x10 sheet whose pixels hold 20 times their column
    are 3 pixels wide; cut with image smoothing on, the second and the
    third slice start with the blends 67 and 133. *)
Example sliceGridImage_fractional :
  (fun slice => (canvasWidth slice, red (readPixel slice 0 0))) <$>
    (@App.sliceGridImage smoothingPlatform true rampImage !! 1%nat) = Some (3, 67) /\
  (fun slice => (canvasWidth slice, red (readPixel slice 0 0))) <$>
    (@App.sliceGridImage smoothingPlatform true rampImage !! 2%nat) = Some (3, 133).
Proof. split; vm_compute; reflexivity. Qed.

(** X22. When the width and the height of the image are multiples of three,
    the nine slices tile it: every pixel of the image is found in the
    slice of its cell, at its position within the cell. *)
Theorem sliceGridImage_tiles `{Canvas2D} (img : Image) (cellW cellH u v : Z) :
  0 < cellW -> 0 < cellH ->
  naturalWidth img = 3 * cellW -> naturalHeight img = 3 * cellH ->
  0 <= u < naturalWidth img -> 0 <= v < naturalHeight img ->
  exists slice,
    App.sliceGridImage true img !! Z.to_nat (3 * (v / cellH) + u / cellW) = Some slice /\
    canvasWidth slice = cellW /\ canvasHeight slice = cellH /\
    readPixel slice (u mod cellW) (v mod cellH) =
      sourceOver (imagePixel img u v) transparentBlack.
Proof.
  intros HcW HcH HW HH Hu Hv.
  assert (Hcol : 0 <= u / cellW < 3).
  { split; [apply Z.div_pos; lia | apply Z.div_lt_upper_bound; lia]. }
  assert (Hrow : 0 <= v / cellH < 3).
  { split; [apply Z.div_pos; lia | apply Z.div_lt_upper_bound; lia]. }
  set (i := Z.to_nat (3 * (v / cellH) + u / cellW)).
  assert (Hi : Z.of_nat i = 3 * (v / cellH) + u / cellW) by (unfold i; lia).
  assert (Hlen : length (App.sliceGridImage true img) = 9%nat)
    by apply sliceGridImage_length.
  destruct (App.sliceGridImage true img !! i) as [slice |] eqn:Hslice.
  - exists slice. split; [reflexivity |].
    destruct (sliceGridImage_pixel img i slice cellW cellH HW HH
                ltac:(lia) ltac:(lia) Hslice) as (Hw & Hh & Hpixel).
    split; [exact Hw |]. split; [exact Hh |].
    rewrite Hpixel by (split; apply Z.mod_pos_bound; lia).
    assert (Hmod : Z.of_nat i mod 3 = u / cellW).
    { rewrite Hi, Z.add_comm, Z.mul_comm, Z.mod_add by lia.
      apply Z.mod_small. lia. }
    assert (Hdiv : Z.of_nat i / 3 = v / cellH).
    { rewrite Hi, Z.add_comm, Z.mul_comm, Z.div_add by lia.
      rewrite Z.div_small by lia. lia. }
    rewrite Hmod, Hdiv.
    replace (u / cellW * cellW + u mod cellW) with u
      by (rewrite (Z.div_mod u cellW) at 1 by lia; lia).
    replace (v / cellH * cellH + v mod cellH) with v
      by (rewrite (Z.div_mod v cellH) at 1 by lia; lia).
    reflexivity.
  - apply lookup_ge_None in Hslice. rewrite Hlen in Hslice. lia.
Qed.

Lemma sliceGridImage_tiles_witness :
  exists slice,
    @App.sliceGridImage opaquePlatform true positionImage !! 7%nat = Some slice /\
    readPixel slice 1 0 = mkPixel 3 4 0 255.
Proof.
  destruct (@sliceGridImage_tiles opaquePlatform positionImage 2 2 3 4)
    as (slice & Hslice & _ & _ & Hpixel);
    [lia | lia | reflexivity | reflexivity | simpl; lia | simpl; lia |].
  exists slice. split; [exact Hslice | exact Hpixel].
Defined.

(** ** Editing the configuration of a group *)

Lemma updateConfigFromEditor_groups (groupId : string) (group : NodeGroup.t)
    (edit : App.ConfigEdit) (s : App.State) :
  App.groups s !! groupId = Some group ->
  App.updateConfigFromEditor groupId edit s =
    App.withGroups s
      (<[groupId := App.withConfig group (App.withField (NodeGroup.config group) edit)]>
         (App.groups s)).
Proof. intros Hg. unfold App.updateConfigFromEditor. now rewrite Hg. Qed.

Lemma handleGridUpdate_groups (groupId : string) (group : NodeGroup.t)
    (newRows newCols : Z) (s : App.State) :
  App.groups s !! groupId = Some group ->
  App.handleGridUpdate groupId newRows newCols s =
    App.withGroups s
      (<[groupId :=
           App.withConfig group
             (App.withField
                (App.withField (App.withField (NodeGroup.config group)
                                  (App.editRows newRows)) (App.editCols newCols))
                (App.editTotalFrames (newRows * newCols)))]>
         (App.groups s)).
Proof. intros Hg. unfold App.handleGridUpdate. now rewrite Hg. Qed.

Lemma onUpdateConfig_groups (groupId : string) (group : NodeGroup.t)
    (edit : App.ConfigEdit) (s : App.State) :
  App.groups s !! groupId = Some group ->
  let edited := App.withField (NodeGroup.config group) edit in
  App.onUpdateConfig groupId group edit s =
    App.withGroups s
      (<[groupId :=
           App.withConfig group
             (if isGridEdit edit
              then App.withField edited
                     (App.editTotalFrames (rows edited * cols edited))
              else edited)]>
         (App.groups s)).
Proof.
  intros Hg edited. unfold edited.
  destruct edit; cbn [App.onUpdateConfig isGridEdit];
    first [ now apply updateConfigFromEditor_groups
          | rewrite (handleGridUpdate_groups _ group) by exact Hg;
            destruct group as [? ? ? ? [] ?]; reflexivity ].
Qed.

(** X23. An edit made in an editor node changes the one field in the
    configuration of the node's group; an edit of rows or of cols also sets
    totalFrames to rows x cols, whatever it was.  The group's image and
    dimensions, the other groups, the selection, the nodes and the assets
    stay as they are. *)
Theorem onUpdateConfig_result (groupId : string) (group : NodeGroup.t)
    (edit : App.ConfigEdit) (s : App.State) :
  App.groups s !! groupId = Some group ->
  let s' := App.onUpdateConfig groupId group edit s in
  let edited := App.withField (NodeGroup.config group) edit in
  exists group',
    App.groups s' !! groupId = Some group' /\
    NodeGroup.config group' =
      (if isGridEdit edit
       then App.withField edited (App.editTotalFrames (rows edited * cols edited))
       else edited) /\
    (isGridEdit edit = true ->
     totalFrames (NodeGroup.config group') =
       rows (NodeGroup.config group') * cols (NodeGroup.config group')) /\
    App.withConfig group' (NodeGroup.config group) = group /\
    (forall other, other <> groupId ->
       App.groups s' !! other = App.groups s !! other) /\
    App.selectedGroupId s' = App.selectedGroupId s /\
    App.nodes s' = App.nodes s /\
    App.savedAssets s' = App.savedAssets s.
Proof.
  intros Hg s' edited. unfold s'.
  rewrite (onUpdateConfig_groups groupId group edit s Hg). fold edited.
  eexists. split; [cbn [App.withGroups App.groups]; apply lookup_insert_eq |].
  split; [reflexivity |]. split.
  { intros Hgrid. rewrite Hgrid. reflexivity. }
  split; [destruct group; reflexivity |].
  split; [intros other Hne; cbn [App.withGroups App.groups];
          apply lookup_insert_ne; congruence |].
  split; [reflexivity |]. split; reflexivity.
Qed.

Lemma onUpdateConfig_result_witness :
  configOf (App.onUpdateConfig (NodeGroup.id spriteGroup) spriteGroup
              (App.editRows 3) loadedApp)
           (NodeGroup.id spriteGroup) =
  Some (mkConfig 3 2 6 12 1 true Row ∅ []).
Proof.
  destruct (onUpdateConfig_result (NodeGroup.id spriteGroup) spriteGroup
              (App.editRows 3) loadedApp)
    as (group' & Hlookup & Hconfig & _); [apply lookup_singleton_eq |].
  unfold configOf. rewrite Hlookup. cbn [fmap option_fmap option_map].
  rewrite Hconfig. reflexivity.
Defined.

(** X24. The sidebar applies an edit to the selected group exactly as the
    editor node of that group would.  Without a selection nothing changes.
    When the selection names a group that is not there, reading its
    configuration fails; this cannot happen in a consistent state. *)
Theorem updateConfigFromSidebar_result (edit : App.ConfigEdit) (s : App.State) :
  (App.truthy (App.selectedGroupId s) = false ->
   App.updateConfigFromSidebar edit s = Some s) /\
  (forall selected group,
     App.selectedGroupId s = Some selected -> selected <> ""%string ->
     App.groups s !! selected = Some group ->
     App.updateConfigFromSidebar edit s =
       Some (App.onUpdateConfig selected group edit s)) /\
  (forall selected,
     App.selectedGroupId s = Some selected -> selected <> ""%string ->
     App.groups s !! selected = None ->
     App.updateConfigFromSidebar edit s = None) /\
  (consistent s -> is_Some (App.updateConfigFromSidebar edit s)).
Proof.
  assert (Htruthy : forall selected, selected <> ""%string ->
                      App.truthy (Some selected) = true).
  { intros selected Hne. unfold App.truthy.
    destruct (String.eqb_spec selected ""); [contradiction | reflexivity]. }
  unfold App.updateConfigFromSidebar.
  split; [| split; [| split]].
  - intros Hfalse. destruct (App.selectedGroupId s); [| reflexivity].
    now rewrite Hfalse.
  - intros selected group Hsel Hne Hg. rewrite Hsel, (Htruthy _ Hne), Hg.
    destruct edit; reflexivity.
  - intros selected Hsel Hne Hg. now rewrite Hsel, (Htruthy _ Hne), Hg.
  - intros (_ & Hselected & _).
    destruct (App.selectedGroupId s) as [selected |] eqn:Hsel; [| eauto].
    destruct (negb (App.truthy (Some selected))); [eauto |].
    destruct (Hselected selected eq_refl) as [group Hg]. rewrite Hg.
    destruct edit; eauto.
Qed.

Lemma updateConfigFromSidebar_result_witness :
  App.updateConfigFromSidebar (App.editFps 24) loadedApp =
    Some (App.onUpdateConfig (NodeGroup.id spriteGroup) spriteGroup
            (App.editFps 24) loadedApp) /\
  App.updateConfigFromSidebar (App.editFps 24) danglingApp = None.
Proof.
  split.
  - destruct (updateConfigFromSidebar_result (App.editFps 24) loadedApp)
      as (_ & Hknown & _).
    apply Hknown; [reflexivity | discriminate | apply lookup_singleton_eq].
  - destruct (updateConfigFromSidebar_result (App.editFps 24) danglingApp)
      as (_ & _ & Hgone & _).
    apply (Hgone (NodeGroup.id spriteGroup));
      [reflexivity | discriminate | apply lookup_empty].
Defined.

(** X25. What the frame editor hands to [onUpdateConfig] after a nudge, a
    reset or a toggle becomes the configuration of the node's group: the
    group then holds the offsets, or the excluded frames, the editor
    computed, with every other field as before, and no other group
    changes. *)
Theorem editor_edits_reach_group (groupId : string) (group : NodeGroup.t)
    (s : App.State) (index dx dy : Z) :
  App.groups s !! groupId = Some group ->
  let config := NodeGroup.config group in
  let nudged := SplitFrameEditor.handleNudge config index dx dy in
  let reset := SplitFrameEditor.handleResetOffset config index in
  let toggled := SplitFrameEditor.toggleExclusion config index in
  configOf (App.onUpdateConfig groupId group
              (App.editFrameOffsets (frameOffsets nudged)) s) groupId = Some nudged /\
  configOf (App.onUpdateConfig groupId group
              (App.editFrameOffsets (frameOffsets reset)) s) groupId = Some reset /\
  configOf (App.onUpdateConfig groupId group
              (App.editExcludedFrames (excludedFrames toggled)) s) groupId
    = Some toggled /\
  (forall edit other, other <> groupId ->
     configOf (App.onUpdateConfig groupId group edit s) other = configOf s other).
Proof.
  intros Hg config nudged reset toggled. unfold configOf.
  split; [| split; [| split]].
  - rewrite (onUpdateConfig_groups groupId group _ s Hg).
    cbn [App.withGroups App.groups isGridEdit]. rewrite lookup_insert_eq. reflexivity.
  - rewrite (onUpdateConfig_groups groupId group _ s Hg).
    cbn [App.withGroups App.groups isGridEdit]. rewrite lookup_insert_eq. reflexivity.
  - rewrite (onUpdateConfig_groups groupId group _ s Hg).
    cbn [App.withGroups App.groups isGridEdit]. rewrite lookup_insert_eq. reflexivity.
  - intros edit other Hne. rewrite (onUpdateConfig_groups groupId group _ s Hg).
    cbn [App.withGroups App.groups]. rewrite lookup_insert_ne by congruence.
    reflexivity.
Qed.

Lemma editor_edits_reach_group_witness :
  ((fun config => offsetOf config 2) <$> configOf
     (App.onUpdateConfig (NodeGroup.id spriteGroup) spriteGroup
        (App.editFrameOffsets
           (frameOffsets (SplitFrameEditor.handleNudge
                            (NodeGroup.config spriteGroup) 2 1 (-1))))
        loadedApp)
     (NodeGroup.id spriteGroup)) = Some (mkOffset 1 (-1)).
Proof.
  destruct (editor_edits_reach_group (NodeGroup.id spriteGroup) spriteGroup
              loadedApp 2 1 (-1)) as (Hnudged & _); [apply lookup_singleton_eq |].
  rewrite Hnudged. reflexivity.
Defined.



(** ** Consistency of the application state *)







(** ** Splitting a data URL *)

Lemma afterPrefix_spec (prefix s rest : string) :
  GeminiService.afterPrefix prefix s = Some rest <-> s = (prefix ++ rest)%string.
Proof.
  revert s. induction prefix as [| a prefix IH]; intros s; cbn.
  - split; [now intros [= ->] | now intros ->].
  - destruct s as [| b s]; [split; discriminate |].
    destruct (Ascii.eqb_spec a b) as [-> | Hne].
    + rewrite IH. split; [now intros -> | now intros [= ->]].
    + split; [discriminate | intros [= <- _]; contradiction].
Qed.

Lemma spanChars_spec (p : ascii -> bool) (s : string) :
  s = (fst (GeminiService.spanChars p s) ++ snd (GeminiService.spanChars p s))%string /\
  GeminiService.allChars p (fst (GeminiService.spanChars p s)) = true.
Proof.
  induction s as [| c s IH]; [split; reflexivity |].
  cbn [GeminiService.spanChars]. destruct (p c) eqn:Hc; [| split; reflexivity].
  destruct (GeminiService.spanChars p s) as [taken rest].
  cbn [fst snd] in *. destruct IH as [IHs IHp]. split.
  - change (String c s = String c (taken ++ rest)%string). f_equal. exact IHs.
  - cbn [GeminiService.allChars]. now rewrite Hc, IHp.
Qed.

Lemma spanChars_app (p : ascii -> bool) (taken : string) (c : ascii) (rest : string) :
  GeminiService.allChars p taken = true -> p c = false ->
  GeminiService.spanChars p (taken ++ String c rest) = (taken, String c rest).
Proof.
  intros Hall Hc. induction taken as [| a taken IH].
  - change (GeminiService.spanChars p (String c rest) = (""%string, String c rest)).
    cbn [GeminiService.spanChars]. now rewrite Hc.
  - change (GeminiService.spanChars p (String a (taken ++ String c rest)%string)
            = (String a taken, String c rest)).
    cbn [GeminiService.allChars] in Hall. apply andb_true_iff in Hall as [Ha Hall].
    cbn [GeminiService.spanChars]. rewrite Ha, (IH Hall). reflexivity.
Qed.

Lemma eqb_empty (s : string) : String.eqb s "" = false <-> s <> ""%string.
Proof. destruct (String.eqb_spec s ""); split; congruence. Qed.

Lemma matchDataUrl_checks (subtype payload : string) :
  isSubtype subtype ->
  GeminiService.matchDataUrl (dataUrl subtype payload) =
    if String.eqb payload "" then None
    else if GeminiService.allChars
              (fun c => negb (GeminiService.isLineTerminator c)) payload
         then Some (("image/" ++ subtype)%string, payload)
         else None.
Proof.
  intros [Hsub Hchars]. unfold GeminiService.matchDataUrl, dataUrl.
  rewrite (proj2 (afterPrefix_spec "data:image/" _
                    (subtype ++ ";base64," ++ payload)%string) eq_refl).
  change (subtype ++ ";base64," ++ payload)%string
    with (subtype ++ String ";" ("base64," ++ payload))%string.
  rewrite (spanChars_app GeminiService.isSubtypeChar subtype ";"
             ("base64," ++ payload)%string Hchars eq_refl).
  apply eqb_empty in Hsub. rewrite Hsub.
  rewrite (proj2 (afterPrefix_spec ";base64,"
                    (String ";" ("base64," ++ payload)%string) payload) eq_refl).
  reflexivity.
Qed.

Lemma matchDataUrl_complete (subtype payload : string) :
  isSubtype subtype -> isOneLine payload ->
  GeminiService.matchDataUrl (dataUrl subtype payload) =
    Some (("image/" ++ subtype)%string, payload).
Proof.
  intros Hsub [Hpay Hline]. rewrite (matchDataUrl_checks subtype payload Hsub).
  apply eqb_empty in Hpay. now rewrite Hpay, Hline.
Qed.

(** X28. The pattern for data URLs matches exactly the strings made of
    [data:image/], a non-empty run of letters and [+], [;base64,] and a
    non-empty payload without line terminators; the two groups are then the
    MIME type [image/...] and the payload, and they determine the string. *)
Theorem matchDataUrl_shape (base64String group1 group2 : string) :
  GeminiService.matchDataUrl base64String = Some (group1, group2) <->
  exists subtype,
    group1 = ("image/" ++ subtype)%string /\
    isSubtype subtype /\ isOneLine group2 /\
    base64String = dataUrl subtype group2.
Proof.
  split.
  - unfold GeminiService.matchDataUrl.
    destruct (GeminiService.afterPrefix "data:image/" base64String)
      as [afterImage |] eqn:Himage; [| discriminate].
    apply afterPrefix_spec in Himage.
    destruct (spanChars_spec GeminiService.isSubtypeChar afterImage) as [Hsplit Hchars].
    destruct (GeminiService.spanChars GeminiService.isSubtypeChar afterImage)
      as [subtype afterSubtype].
    cbn [fst snd] in Hsplit, Hchars.
    destruct (String.eqb subtype "") eqn:Hsub; [discriminate |].
    destruct (GeminiService.afterPrefix ";base64," afterSubtype)
      as [payload |] eqn:Hpayload; [| discriminate].
    apply afterPrefix_spec in Hpayload.
    destruct (String.eqb payload "") eqn:Hpay; [discriminate |].
    destruct (GeminiService.allChars _ payload) eqn:Hline; [| discriminate].
    intros [= <- <-]. exists subtype.
    split; [reflexivity |]. split; [split; [now apply eqb_empty | exact Hchars] |].
    split; [split; [now apply eqb_empty | exact Hline] |].
    unfold dataUrl. rewrite Himage, Hsplit, Hpayload. reflexivity.
  - intros (subtype & -> & Hsub & Hline & ->).
    now apply matchDataUrl_complete.
Qed.

Lemma matchDataUrl_shape_witness :
  GeminiService.matchDataUrl "data:image/svg+xml;base64,PHN2Zz4=" =
    Some ("image/svg+xml"%string, "PHN2Zz4="%string).
Proof.
  apply matchDataUrl_shape. exists "svg+xml"%string.
  split; [reflexivity |].
  split; [split; [discriminate | reflexivity] |].
  split; [split; [discriminate | reflexivity] |]. reflexivity.
Defined.

(** X29. Splitting a well-formed data URL returns its MIME type and its
    payload.  A string that does not start with [data:image/] is returned
    whole as PNG data.  A data URL with a png, jpeg, jpg or webp header whose
    payload is empty or spans several lines loses the header but is reported
    as [image/png] whatever the header said. *)
Theorem getBase64Parts_result (subtype payload base64String : string) :
  (isSubtype subtype -> isOneLine payload ->
   GeminiService.getBase64Parts (dataUrl subtype payload) =
     GeminiService.mkBase64Parts ("image/" ++ subtype) payload) /\
  (GeminiService.afterPrefix "data:image/" base64String = None ->
   GeminiService.getBase64Parts base64String =
     GeminiService.mkBase64Parts "image/png" base64String) /\
  (subtype ∈ ["png"; "jpeg"; "jpg"; "webp"]%string -> ~ isOneLine payload ->
   GeminiService.getBase64Parts (dataUrl subtype payload) =
     GeminiService.mkBase64Parts "image/png" payload).
Proof.
  split; [| split].
  - intros Hsub Hline. unfold GeminiService.getBase64Parts.
    now rewrite (matchDataUrl_complete subtype payload Hsub Hline).
  - intros Hnone. unfold GeminiService.getBase64Parts, GeminiService.matchDataUrl.
    rewrite Hnone. unfold GeminiService.stripKnownHeader.
    assert (Hlonger : forall prefix tail,
              GeminiService.afterPrefix "data:image/" prefix = Some tail ->
              GeminiService.afterPrefix prefix base64String = None).
    { intros prefix tail Hprefix. apply afterPrefix_spec in Hprefix.
      destruct (GeminiService.afterPrefix prefix base64String)
        as [rest |] eqn:Hrest; [| reflexivity].
      apply afterPrefix_spec in Hrest.
      assert (Hsome : GeminiService.afterPrefix "data:image/" base64String
                      = Some (tail ++ rest)%string).
      { apply afterPrefix_spec. rewrite Hrest, Hprefix. reflexivity. }
      congruence. }
    rewrite (Hlonger "data:image/png;base64,"%string _ eq_refl),
      (Hlonger "data:image/jpeg;base64,"%string _ eq_refl),
      (Hlonger "data:image/jpg;base64,"%string _ eq_refl),
      (Hlonger "data:image/webp;base64,"%string _ eq_refl).
    reflexivity.
  - intros Hknown Hbad.
    assert (Hsub : isSubtype subtype).
    { rewrite !elem_of_cons in Hknown.
      destruct Hknown as [-> | [-> | [-> | [-> | Hnil]]]];
        [| | | | now apply not_elem_of_nil in Hnil];
        (split; [discriminate | reflexivity]). }
    unfold GeminiService.getBase64Parts.
    rewrite (matchDataUrl_checks subtype payload Hsub).
    assert (Hstrip : GeminiService.stripKnownHeader (dataUrl subtype payload) = payload).
    { rewrite !elem_of_cons in Hknown.
      destruct Hknown as [-> | [-> | [-> | [-> | Hnil]]]];
        [| | | | now apply not_elem_of_nil in Hnil]; reflexivity. }
    rewrite Hstrip.
    destruct (String.eqb payload "") eqn:Hpay; [reflexivity |].
    destruct (GeminiService.allChars _ payload) eqn:Hline; [| reflexivity].
    exfalso. apply Hbad. split; [now apply eqb_empty | exact Hline].
Qed.

Lemma getBase64Parts_result_witness :
  GeminiService.getBase64Parts "data:image/jpeg;base64,/9j/4AAQ" =
    GeminiService.mkBase64Parts "image/jpeg" "/9j/4AAQ" /\
  GeminiService.getBase64Parts "data:image/jpeg;base64," =
    GeminiService.mkBase64Parts "image/png" "" /\
  GeminiService.getBase64Parts "iVBORw0KGgo=" =
    GeminiService.mkBase64Parts "image/png" "iVBORw0KGgo=".
Proof.
  split; [| split].
  - destruct (getBase64Parts_result "jpeg" "/9j/4AAQ" "") as (Hwell & _).
    apply Hwell; split; [discriminate | reflexivity | discriminate | reflexivity].
  - destruct (getBase64Parts_result "jpeg" "" "") as (_ & _ & Hbad).
    apply Hbad.
    + apply list_elem_of_further, list_elem_of_here.
    + intros [Hne _]. now apply Hne.
  - destruct (getBase64Parts_result "" "" "iVBORw0KGgo=") as (_ & Hplain & _).
    apply Hplain. reflexivity.
Defined.
